(** * The membership ring of pkg/ring/ring.go

    A shallow embedding of the read side of the ring: the operation codec
    (NewOp and its two tests), replica selection (Get), the fleet-wide
    replication sets (GetAllHealthy, GetReplicationSetForOperation), shuffle
    sharding with its subring cache, and AutoForgetFromRing; then the
    listings and lookups of instances, the cleaning of the cache, the
    construction of the ring and the ownership count of countTokens.

    Conventions.  Go's [int], [int64] and [time.Duration] values are integers
    of [Z]; the counters of this file are bounded by the lengths of the slices
    and maps they count, far below 2^63, so their arithmetic is written
    without wrap-around.  [Operation] is a [uint32] and its shifts wrap modulo
    2^32.  Go's [/] and [%] truncate towards zero: [Z.quot] and [Z.rem].  A Go
    [map] is a [gmap]; where the source ranges over a map the model walks
    [map_to_list], and every statement about the outcome is independent of
    that order. *)

From Stdlib Require Import ZArith List Lia Bool.
From stdpp Require Import base option gmap sets list strings fin_maps sorting.

#[local] Set Warnings "-clear-no-such-hyp".

Open Scope Z_scope.

(** ** Instance states and descriptors *)

(** The enumeration [InstanceState] of the generated protobuf code. *)
Inductive InstanceState : Set :=
  | ACTIVE | LEAVING | PENDING | JOINING | LEFT | READONLY.

#[global] Instance InstanceState_eq_dec : EqDecision InstanceState.
Proof. solve_decision. Defined.

(** Modelled from the spec: the declaration of [InstanceDesc] (generated
    protobuf code, outside ring.go).  Section 3 of the specification lists
    its fields: id, addr, state, zone, the registration
    and heartbeat timestamps in unix seconds, and the tokens. *)
Record InstanceDesc : Type := mkInstanceDesc {
  Id : string;
  Addr : string;
  Timestamp : Z;
  State : InstanceState;
  Tokens : list Z;
  Zone : string;
  RegisteredTimestamp : Z
}.

#[global] Instance InstanceDesc_eq_dec : EqDecision InstanceDesc.
Proof. solve_decision. Defined.

(** Go's zero value of [InstanceDesc]: what indexing a map yields for a key
    it does not hold.  The first enumerator, ACTIVE, is the zero state. *)
Definition zeroInstanceDesc : InstanceDesc :=
  {| Id := ""; Addr := ""; Timestamp := 0; State := ACTIVE; Tokens := [];
     Zone := ""; RegisteredTimestamp := 0 |}.

(** [m[k]] on a Go map of instances. *)
Definition index_or_zero (m : gmap string InstanceDesc) (k : string) : InstanceDesc :=
  default zeroInstanceDesc (m !! k).

(** ** The operation codec *)

Module Op.

(** [Operation] is a [uint32]. *)
Definition Operation : Type := Z.

Definition uint32_mod : Z := 2 ^ 32.

(** [x << s] on uint32: the bits shifted past bit 31 are lost. *)
Definition shl32 (x s : Z) : Z := Z.shiftl x s mod uint32_mod.

Section Codec.
(** The numeric value of each state (the generated enum constants): every
    definition of the codec takes it as [code]. *)
Variable code : InstanceState → Z.

(** The states NewOp asks [shouldExtendReplicaSet] about, in its order. *)
Definition extendStates : list InstanceState :=
  [ACTIVE; LEAVING; PENDING; JOINING; LEFT; READONLY].

Definition markHealthy (op : Operation) (s : InstanceState) : Operation :=
  Z.lor op (shl32 1 (code s)).

Definition markExtend (f : InstanceState → bool) (op : Operation)
    (s : InstanceState) : Operation :=
  if f s then Z.lor op (shl32 65536 (code s)) else op.

(** [NewOp(healthyStates, shouldExtendReplicaSet)]; the function may be nil. *)
Definition NewOp (healthyStates : list InstanceState)
    (shouldExtendReplicaSet : option (InstanceState → bool)) : Operation :=
  let op := foldl markHealthy 0 healthyStates in
  match shouldExtendReplicaSet with
  | Some f => foldl (markExtend f) op extendStates
  | None => op
  end.

(** [op&(1<<s) > 0] *)
Definition IsInstanceInStateHealthy (op : Operation) (s : InstanceState) : bool :=
  0 <? Z.land op (shl32 1 (code s)).

(** [op&(0x10000<<s) > 0] *)
Definition ShouldExtendReplicaSetOnState (op : Operation) (s : InstanceState) : bool :=
  0 <? Z.land op (shl32 65536 (code s)).
End Codec.

(** The values of the enum constants, in the order of their declaration
    (the order NewOp lists them in). *)
Definition state_code (s : InstanceState) : Z :=
  match s with
  | ACTIVE => 0 | LEAVING => 1 | PENDING => 2
  | JOINING => 3 | LEFT => 4 | READONLY => 5
  end.

End Op.

(** ** Errors, panics and results *)

(** The four sentinel errors of the package. *)
Inductive RingError : Set :=
  | ErrEmptyRing
  | ErrInstanceNotFound
  | ErrTooManyUnhealthyInstances
  | ErrInconsistentTokensInfo.

(** The run-time panics the modelled code can raise. *)
Inductive GoPanic : Set :=
  | DivideByZero
  | NilDereference
  | IndexOutOfRange
  | PanicError (e : RingError).

(** What a call yields: a value, a returned error, or a panic. *)
Inductive result (A : Type) : Type :=
  | Ok (a : A)
  | Err (e : RingError)
  | Panic (p : GoPanic).
Arguments Ok {A} a.
Arguments Err {A} e.
Arguments Panic {A} p.

(** Sequencing: an error or a panic ends the call.  The instances give
    [result] the notation [x ← c; k]. *)
#[global] Instance result_ret : MRet result := fun A a => Ok a.

#[global] Instance result_bind : MBind result := fun A B k x =>
  match x with
  | Ok a => k a
  | Err e => Err e
  | Panic p => Panic p
  end.

#[global] Instance result_fmap : FMap result := fun A B f x =>
  match x with
  | Ok a => Ok (f a)
  | Err e => Err e
  | Panic p => Panic p
  end.

(** Go's [a / b] and [a % b] on ints. *)
Definition go_div (a b : Z) : result Z :=
  if b =? 0 then Panic DivideByZero else Ok (Z.quot a b).

Definition go_rem (a b : Z) : result Z :=
  if b =? 0 then Panic DivideByZero else Ok (Z.rem a b).

(** [len] of a slice and of a map, as a Go int. *)
Definition len {A : Type} (l : list A) : Z := Z.of_nat (length l).
Definition map_len {K : Type} `{Countable K} {A : Type} (m : gmap K A) : Z :=
  Z.of_nat (size m).

(** ** Time

    A [time.Time] is its unix time in nanoseconds; a [time.Duration] is a
    number of nanoseconds in the int64 range. *)

Definition Second : Z := 1000000000.
Definition maxDuration : Z := 2 ^ 63 - 1.
Definition minDuration : Z := - 2 ^ 63.

(** [time.Unix(sec, 0)] *)
Definition time_Unix (sec : Z) : Z := sec * Second.

(** [t.Sub(u)]: the difference, kept inside the range of a Duration. *)
Definition time_Sub (t u : Z) : Z :=
  Z.max minDuration (Z.min maxDuration (t - u)).

(** [t.Unix()]: whole seconds since the epoch. *)
Definition Unix_of (t : Z) : Z := t `div` Second.

(** ** Configuration, descriptor and ring *)

Record Config : Type := mkConfig {
  HeartbeatTimeout : Z;
  ReplicationFactor : Z;
  ZoneAwarenessEnabled : bool;
  ExcludedZones : list string;
  SubringCacheDisabled : bool
}.

Record instanceInfo : Type := mkInstanceInfo {
  InstanceID : string;
  InfoZone : string
}.

Record subringCacheKey : Type := mkSubringCacheKey {
  identifier : string;
  shardSize : Z;
  zoneStableSharding : bool
}.

#[global] Instance subringCacheKey_eq_dec : EqDecision subringCacheKey.
Proof. solve_decision. Defined.

#[global] Instance subringCacheKey_countable : Countable subringCacheKey.
Proof.
  refine (inj_countable'
    (fun k => (identifier k, shardSize k, zoneStableSharding k))
    (fun t => mkSubringCacheKey t.1.1 t.1.2 t.2) _).
  by intros [].
Defined.

(** [Desc]: the map of instances by id. *)
Record Desc : Type := mkDesc {
  Ingesters : gmap string InstanceDesc
}.

(** The fields of [Ring] the read side uses.  [ringDesc] is a pointer and
    may be nil; the cache is a map that may be nil, and it holds the cached
    subrings themselves, so that a patch of a cached subring is a patch of
    the cache entry.  The KV client is in the environment below, and the
    replication strategy is the default one ([Filter] below). *)
#[warnings="-register-all"]
Inductive Ring : Type := mkRing {
  cfg : Config;
  ringDesc : option Desc;
  ringTokens : list Z;
  ringTokensByZone : gmap string (list Z);
  ringInstanceByToken : gmap Z instanceInfo;
  ringInstanceIdByAddr : gmap string string;
  lastTopologyChange : Z;
  ringZones : list string;
  previousRingZones : list string;
  shuffledSubringCache : option (gmap subringCacheKey Ring)
}.

Record ReplicationSet : Type := mkReplicationSet {
  Instances : list InstanceDesc;
  MaxErrors : Z;
  MaxUnavailableZones : Z
}.

Inductive CompareResult : Set :=
  | Equal | EqualButStatesAndTimestamps | EqualButReadOnly | Different.

#[global] Instance CompareResult_eq_dec : EqDecision CompareResult.
Proof. solve_decision. Defined.

(** What the ring reads from outside itself: the clock, the KV client, the
    seeded random generators of shuffle sharding, and the methods of [Desc]
    that build the derived views (model.go). *)
Record Env : Type := mkEnv {
  (** [time.Now()], fixed for the duration of a call *)
  now : Z;
  (** [r.KVClient.LastUpdateTime(r.key)] *)
  LastUpdateTime : Z;
  (** the [n]-th [Uint32()] of the generator seeded with
      [ShuffleShardSeed(identifier, zone)] *)
  shardRandom : string → string → nat → Z;
  (** [prev.RingCompare(next)] *)
  RingCompare : option Desc → Desc → CompareResult;
  GetTokens : Desc → list Z;
  getTokensByZone : Desc → gmap string (list Z);
  getTokensInfo : Desc → gmap Z instanceInfo;
  getInstancesByAddr : Desc → gmap string string;
  getZones : gmap string (list Z) → list string
}.

(** ** Helpers of the package that the ring calls *)

(** Modelled from the spec: [searchToken] (util.go).  Section 4.1: the
    smallest index [i] such that [tokens[i] > key], else [0]. *)
Fixpoint searchToken_from (i : nat) (tokens : list Z) (key : Z) : option nat :=
  match tokens with
  | [] => None
  | t :: rest => if key <? t then Some i else searchToken_from (S i) rest key
  end.

Definition searchToken (tokens : list Z) (key : Z) : nat :=
  default 0%nat (searchToken_from 0 tokens key).

(** Modelled from the spec: [ShuffleShardExpectedInstancesPerZone]
    (pkg/ring/shard).  Section 4.3.5: [perZone = ceil(size / |ringZones|)]. *)
Definition ShuffleShardExpectedInstancesPerZone (shardSize numZones : Z) : Z :=
  (shardSize + numZones - 1) `div` numZones.

(** [util.StringsContain] *)
Definition StringsContain (values : list string) (search : string) : bool :=
  bool_decide (search ∈ values).

(** Modelled from the spec: [Desc.RemoveIngester] (model.go).  Section 4.4:
    the instance is removed from the descriptor. *)
Definition RemoveIngester (d : Desc) (id : string) : Desc :=
  {| Ingesters := delete id (Ingesters d) |}.

Section Model.
Context (E : Env).

(** [time.Since(t)] *)
Definition time_Since (t : Z) : Z := time_Sub (now E) t.

(** Modelled from the spec: the heartbeat half of the health check
    (model.go).  Section 4.2: [now - max(heartbeat, L) ≤ HT]; section 6: a
    heartbeat timeout of 0 disables the staleness check. *)
Definition IsHeartbeatHealthy (i : InstanceDesc) (heartbeatTimeout storageLastUpdate : Z) : bool :=
  (heartbeatTimeout =? 0)
  || (now E - Z.max (time_Unix (Timestamp i)) storageLastUpdate <=? heartbeatTimeout).

(** Modelled from the spec: [Ring.IsHealthy] (defined outside ring.go).
    Section 4.2: the state is in the operation's healthy
    set and the heartbeat is fresh. *)
Definition IsHealthy (r : Ring) (i : InstanceDesc) (op : Op.Operation)
    (storageLastUpdate : Z) : bool :=
  Op.IsInstanceInStateHealthy Op.state_code op (State i)
  && IsHeartbeatHealthy i (HeartbeatTimeout (cfg r)) storageLastUpdate.

(** Modelled from the spec: [Filter] of the default replication strategy
    (replication_strategy.go).  Section 4.2: the healthy subset of the
    candidates, in their order, with
    [max_errors = len(candidates) - min_required_success] and
    [min_required_success = RF/2 + 1]; TooManyUnhealthy when the healthy
    subset is smaller than [min_required_success]. *)
Definition Filter (r : Ring) (instances : list InstanceDesc) (op : Op.Operation)
    (replicationFactor : Z) (storageLastUpdate : Z) : result (list InstanceDesc * Z) :=
  let minSuccess := Z.quot replicationFactor 2 + 1 in
  let healthy := filter (fun i => IsHealthy r i op storageLastUpdate = true) instances in
  if len healthy <? minSuccess then Err ErrTooManyUnhealthyInstances
  else Ok (healthy, len instances - minSuccess).

(** *** GetAllHealthy *)

(** The body of the loop over [r.ringDesc.Ingesters]. *)
Definition collectHealthy (r : Ring) (op : Op.Operation) (storageLastUpdate : Z)
    (instances : list InstanceDesc) (kv : string * InstanceDesc) : list InstanceDesc :=
  if IsHealthy r kv.2 op storageLastUpdate then instances ++ [kv.2] else instances.

Definition GetAllHealthy (r : Ring) (op : Op.Operation) : result ReplicationSet :=
  match ringDesc r with
  | None => Err ErrEmptyRing
  | Some d =>
      if map_len (Ingesters d) =? 0 then Err ErrEmptyRing
      else
        let storageLastUpdate := LastUpdateTime E in
        let instances :=
          foldl (collectHealthy r op storageLastUpdate) [] (map_to_list (Ingesters d)) in
        Ok {| Instances := instances; MaxErrors := 0; MaxUnavailableZones := 0 |}
  end.

(** *** GetReplicationSetForOperation *)

(** The body of the first loop: a healthy instance is appended, the zone of
    an unhealthy one is recorded. *)
Definition partitionHealthy (r : Ring) (op : Op.Operation) (storageLastUpdate : Z)
    (st : list InstanceDesc * gset string) (kv : string * InstanceDesc)
    : list InstanceDesc * gset string :=
  if IsHealthy r kv.2 op storageLastUpdate then (st.1 ++ [kv.2], st.2)
  else (st.1, {[ Zone kv.2 ]} ∪ st.2).

Definition set_len (s : gset string) : Z := Z.of_nat (size s).

Definition GetReplicationSetForOperation (r : Ring) (op : Op.Operation)
    : result ReplicationSet :=
  match ringDesc r with
  | None => Err ErrEmptyRing
  | Some d =>
      if len (ringTokens r) =? 0 then Err ErrEmptyRing
      else
        let storageLastUpdate := LastUpdateTime E in
        let st := foldl (partitionHealthy r op storageLastUpdate) ([], ∅)
                    (map_to_list (Ingesters d)) in
        let healthyInstances := st.1 in
        let zoneFailures := st.2 in
        if ZoneAwarenessEnabled (cfg r) then
          let numReplicatedZones := Z.min (len (ringZones r)) (ReplicationFactor (cfg r)) in
          let minSuccessZones := Z.quot numReplicatedZones 2 + 1 in
          let maxUnavailableZones := minSuccessZones - 1 in
          if maxUnavailableZones <? set_len zoneFailures then
            Err ErrTooManyUnhealthyInstances
          else
            let healthyInstances :=
              if 0 <? set_len zoneFailures
              then filter (fun i => Zone i ∉ zoneFailures) healthyInstances
              else healthyInstances in
            Ok {| Instances := healthyInstances;
                  MaxErrors := 0;
                  MaxUnavailableZones := maxUnavailableZones - set_len zoneFailures |}
        else
          let numRequired := map_len (Ingesters d) in
          let numRequired :=
            if numRequired <? ReplicationFactor (cfg r)
            then ReplicationFactor (cfg r) else numRequired in
          let numRequired := numRequired - Z.quot (ReplicationFactor (cfg r)) 2 in
          if len healthyInstances <? numRequired then
            Err ErrTooManyUnhealthyInstances
          else
            Ok {| Instances := healthyInstances;
                  MaxErrors := len healthyInstances - numRequired;
                  MaxUnavailableZones := 0 |}
  end.

(** *** AutoForgetFromRing *)

(** The body of the loop: the instance whose last heartbeat is older than
    the forget period is removed from the descriptor being ranged over. *)
Definition autoForgetStep (forgetPeriod : Z) (ringDesc : Desc)
    (kv : string * InstanceDesc) : Desc :=
  let lastHeartbeat := time_Unix (Timestamp kv.2) in
  if forgetPeriod <? time_Since lastHeartbeat
  then RemoveIngester ringDesc kv.1
  else ringDesc.

(** Only the entry at hand is ever deleted, so the loop meets every entry
    of the descriptor it was given. *)
Definition AutoForgetFromRing (ringDesc : Desc) (forgetPeriod : Z) : Desc :=
  foldl (autoForgetStep forgetPeriod) ringDesc (map_to_list (Ingesters ringDesc)).

(** *** Get *)

(** The variables of Get's loop. *)
Record getState : Type := mkGetState {
  replicationFactor : Z;
  instances : list InstanceDesc;
  distinctHosts : list string;
  numOfInstanceByZone : gmap string Z;
  zonesWithExtraInstance : Z
}.

(** [numOfInstanceByZone[zone]] *)
Definition zoneCount (m : gmap string Z) (zone : string) : Z := default 0 (m !! zone).

(** The zone accounting of a selected instance that does not extend the
    replica set. *)
Definition countZone (maxInstancePerZone : Z) (zone : string) (st : getState) : getState :=
  match numOfInstanceByZone st !! zone with
  | None =>
      {| replicationFactor := replicationFactor st;
         instances := instances st;
         distinctHosts := distinctHosts st;
         numOfInstanceByZone := <[zone := 1]> (numOfInstanceByZone st);
         zonesWithExtraInstance := zonesWithExtraInstance st |}
  | Some numOfInstance =>
      if numOfInstance <? maxInstancePerZone then
        {| replicationFactor := replicationFactor st;
           instances := instances st;
           distinctHosts := distinctHosts st;
           numOfInstanceByZone := <[zone := numOfInstance + 1]> (numOfInstanceByZone st);
           zonesWithExtraInstance := zonesWithExtraInstance st |}
      else
        {| replicationFactor := replicationFactor st;
           instances := instances st;
           distinctHosts := distinctHosts st;
           numOfInstanceByZone := <[zone := numOfInstance + 1]> (numOfInstanceByZone st);
           zonesWithExtraInstance := zonesWithExtraInstance st - 1 |}
  end.

(** Whether the zone of the instance at hand is subject to the quota. *)
Definition zoneChecked (r : Ring) (info : instanceInfo) : bool :=
  ZoneAwarenessEnabled (cfg r) && negb (String.eqb (InfoZone info) "").

(** The selection of [info]: the host and the instance are appended, and the
    replica set is extended or the zone is counted. *)
Definition Get_select (r : Ring) (d : Desc) (op : Op.Operation)
    (maxInstancePerZone : Z) (info : instanceInfo) (st : getState) : getState :=
  let hosts := distinctHosts st ++ [InstanceID info] in
  let instance := index_or_zero (Ingesters d) (InstanceID info) in
  let st1 :=
    if Op.ShouldExtendReplicaSetOnState Op.state_code op (State instance) then
      {| replicationFactor := replicationFactor st + 1;
         instances := instances st;
         distinctHosts := hosts;
         numOfInstanceByZone := numOfInstanceByZone st;
         zonesWithExtraInstance := zonesWithExtraInstance st |}
    else
      let st0 :=
        {| replicationFactor := replicationFactor st;
           instances := instances st;
           distinctHosts := hosts;
           numOfInstanceByZone := numOfInstanceByZone st;
           zonesWithExtraInstance := zonesWithExtraInstance st |} in
      if zoneChecked r info then countZone maxInstancePerZone (InfoZone info) st0 else st0 in
  {| replicationFactor := replicationFactor st1;
     instances := instances st ++ [instance];
     distinctHosts := distinctHosts st1;
     numOfInstanceByZone := numOfInstanceByZone st1;
     zonesWithExtraInstance := zonesWithExtraInstance st1 |}.

(** One iteration of the loop, at index [i] (already wrapped). *)
Definition Get_visit (r : Ring) (d : Desc) (op : Op.Operation)
    (maxInstancePerZone : Z) (i : nat) (st : getState) : result getState :=
  match ringTokens r !! i with
  | None => Panic IndexOutOfRange
  | Some token =>
      match ringInstanceByToken r !! token with
      | None => Err ErrInconsistentTokensInfo
      | Some info =>
          if StringsContain (distinctHosts st) (InstanceID info) then Ok st
          else
            let maxNumOfInstance :=
              if 0 <? zonesWithExtraInstance st
              then maxInstancePerZone + 1 else maxInstancePerZone in
            if zoneChecked r info
               && (maxNumOfInstance <=? zoneCount (numOfInstanceByZone st) (InfoZone info))
            then Ok st
            else Ok (Get_select r d op maxInstancePerZone info st)
      end
  end.

(** The loop: [todo] is [len(r.ringTokens) - iterations]. *)
Fixpoint Get_loop (r : Ring) (d : Desc) (op : Op.Operation) (maxInstancePerZone : Z)
    (todo : nat) (i : nat) (st : getState) : result getState :=
  match todo with
  | O => Ok st
  | S todo' =>
      if len (distinctHosts st) <? replicationFactor st then
        let i := (i mod length (ringTokens r))%nat in
        st' ← Get_visit r d op maxInstancePerZone i st;
        Get_loop r d op maxInstancePerZone todo' (S i) st'
      else Ok st
  end.

(** Get up to the call of the replication strategy: the loop's variables
    once the walk has ended. *)
Definition Get_candidates (r : Ring) (key : Z) (op : Op.Operation) : result getState :=
  match ringDesc r with
  | None => Err ErrEmptyRing
  | Some d =>
      if len (ringTokens r) =? 0 then Err ErrEmptyRing
      else
        let start := searchToken (ringTokens r) key in
        maxInstancePerZone ← go_div (ReplicationFactor (cfg r)) (len (ringZones r));
        zonesWithExtra ← go_rem (ReplicationFactor (cfg r)) (len (ringZones r));
        Get_loop r d op maxInstancePerZone (length (ringTokens r)) start
          {| replicationFactor := ReplicationFactor (cfg r);
             instances := [];
             distinctHosts := [];
             numOfInstanceByZone := ∅;
             zonesWithExtraInstance := zonesWithExtra |}
  end.

Definition Get (r : Ring) (key : Z) (op : Op.Operation) : result ReplicationSet :=
  st ← Get_candidates r key op;
  '(healthyInstances, maxFailure) ←
    Filter r (instances st) op (ReplicationFactor (cfg r)) (LastUpdateTime E);
  Ok {| Instances := healthyInstances; MaxErrors := maxFailure;
        MaxUnavailableZones := 0 |}.

(** *** Shuffle sharding *)

(** Modelled from the spec: [InstancesCount] (defined outside ring.go).
    The interface documents it: the number of instances
    in the ring. *)
Definition InstancesCount (r : Ring) : result Z :=
  match ringDesc r with
  | None => Panic NilDereference
  | Some d => Ok (map_len (Ingesters d))
  end.

(** The test that keeps the walk going after an instance has been put into
    the shard. *)
Definition keepsWalking (lookbackPeriod lookbackUntil : Z) (instance : InstanceDesc) : bool :=
  ((0 <? lookbackPeriod) && (lookbackUntil <=? RegisteredTimestamp instance))
  || bool_decide (State instance = READONLY).

(** The inner loop [for p := start; iterations < len(tokens); p++]: [todo] is
    [len(tokens) - iterations].  It yields the shard and [found]. *)
Fixpoint shardWalk (r : Ring) (lookbackPeriod lookbackUntil : Z) (tokens : list Z)
    (todo : nat) (p : nat) (shard : gmap string InstanceDesc)
    : result (gmap string InstanceDesc * bool) :=
  match todo with
  | O => Ok (shard, false)
  | S todo' =>
      let p := (p mod length tokens)%nat in
      match tokens !! p with
      | None => Panic IndexOutOfRange
      | Some token =>
          match ringInstanceByToken r !! token with
          | None => Panic (PanicError ErrInconsistentTokensInfo)
          | Some info =>
              match shard !! InstanceID info with
              | Some _ => shardWalk r lookbackPeriod lookbackUntil tokens todo' (S p) shard
              | None =>
                  match ringDesc r with
                  | None => Panic NilDereference
                  | Some d =>
                      let instanceID := InstanceID info in
                      let instance := index_or_zero (Ingesters d) instanceID in
                      let shard := <[instanceID := instance]> shard in
                      if keepsWalking lookbackPeriod lookbackUntil instance
                      then shardWalk r lookbackPeriod lookbackUntil tokens todo' (S p) shard
                      else Ok (shard, true)
                  end
              end
          end
      end
  end.

(** The loop [for i := 0; i < finalInstancesPerZone; i++]: [todo] draws are
    left and [i] is the index of the next one. *)
Fixpoint shardDraws (r : Ring) (lookbackPeriod lookbackUntil : Z) (identifier zone : string)
    (tokens : list Z) (todo : nat) (i : nat) (shard : gmap string InstanceDesc)
    : result (gmap string InstanceDesc) :=
  match todo with
  | O => Ok shard
  | S todo' =>
      let start := searchToken tokens (shardRandom E identifier zone i) in
      '(shard', found) ←
        shardWalk r lookbackPeriod lookbackUntil tokens (length tokens) start shard;
      if found : bool
      then shardDraws r lookbackPeriod lookbackUntil identifier zone tokens todo' (S i) shard'
      else Ok shard'
  end.

(** The tokens walked for [zone]: the zone's own when zone-awareness is
    enabled, all the tokens of the ring for the single fake zone otherwise. *)
Definition zoneTokens (r : Ring) (zone : string) : list Z :=
  if ZoneAwarenessEnabled (cfg r)
  then default [] (ringTokensByZone r !! zone)
  else ringTokens r.

(** The loop over the zones; its variables are the shard and
    [zonesWithExtraInstance]. *)
Fixpoint shardZones (r : Ring) (lookbackPeriod lookbackUntil : Z) (identifier : string)
    (numInstancesPerZone : Z) (zones : list string)
    (shard : gmap string InstanceDesc) (zonesWithExtra : Z)
    : result (gmap string InstanceDesc) :=
  match zones with
  | [] => Ok shard
  | zone :: zones' =>
      let tokens := zoneTokens r zone in
      let finalInstancesPerZone :=
        if 0 <? zonesWithExtra then numInstancesPerZone + 1 else numInstancesPerZone in
      let zonesWithExtra :=
        if 0 <? zonesWithExtra then zonesWithExtra - 1 else zonesWithExtra in
      shard' ← shardDraws r lookbackPeriod lookbackUntil identifier zone tokens
                 (Z.to_nat finalInstancesPerZone) 0 shard;
      shardZones r lookbackPeriod lookbackUntil identifier numInstancesPerZone zones'
        shard' zonesWithExtra
  end.

(** The instances per zone, the zones to walk and the zones with an extra
    instance. *)
Definition shardPlan (r : Ring) (size : Z) (zoneStableSharding : bool)
    : result (Z * list string * Z) :=
  if ZoneAwarenessEnabled (cfg r) then
    if zoneStableSharding then
      n ← go_div size (len (ringZones r));
      x ← go_rem size (len (ringZones r));
      Ok (n, ringZones r, x)
    else
      Ok (ShuffleShardExpectedInstancesPerZone size (len (ringZones r)), ringZones r, 0)
  else Ok (size, [""], 0).

(** The instances [shuffleShard] selects. *)
Definition shuffleShard_instances (r : Ring) (identifier : string) (size : Z)
    (lookbackPeriod : Z) (now : Z) (zoneStableSharding : bool)
    : result (gmap string InstanceDesc) :=
  let lookbackUntil := Unix_of (now - lookbackPeriod) in
  '(numInstancesPerZone, actualZones, zonesWithExtra) ← shardPlan r size zoneStableSharding;
  shardZones r lookbackPeriod lookbackUntil identifier numInstancesPerZone actualZones
    ∅ zonesWithExtra.

(** The read-only ring built for the shard.  It holds no cache: the field is
    left nil. *)
Definition shuffleShard (r : Ring) (identifier : string) (size : Z)
    (lookbackPeriod : Z) (now : Z) (zoneStableSharding : bool) : result Ring :=
  shard ← shuffleShard_instances r identifier size lookbackPeriod now zoneStableSharding;
  let shardDesc := {| Ingesters := shard |} in
  let shardTokensByZone := getTokensByZone E shardDesc in
  Ok {| cfg := cfg r;
        ringDesc := Some shardDesc;
        ringTokens := GetTokens E shardDesc;
        ringTokensByZone := shardTokensByZone;
        ringZones := getZones E shardTokensByZone;
        ringInstanceByToken := ringInstanceByToken r;
        ringInstanceIdByAddr := ∅;
        lastTopologyChange := lastTopologyChange r;
        previousRingZones := [];
        shuffledSubringCache := None |}.

(** *** The subring cache *)

Definition with_ringDesc (r : Ring) (d : option Desc) : Ring :=
  {| cfg := cfg r; ringDesc := d; ringTokens := ringTokens r;
     ringTokensByZone := ringTokensByZone r;
     ringInstanceByToken := ringInstanceByToken r;
     ringInstanceIdByAddr := ringInstanceIdByAddr r;
     lastTopologyChange := lastTopologyChange r;
     ringZones := ringZones r; previousRingZones := previousRingZones r;
     shuffledSubringCache := shuffledSubringCache r |}.

Definition with_cache (r : Ring) (c : option (gmap subringCacheKey Ring)) : Ring :=
  {| cfg := cfg r; ringDesc := ringDesc r; ringTokens := ringTokens r;
     ringTokensByZone := ringTokensByZone r;
     ringInstanceByToken := ringInstanceByToken r;
     ringInstanceIdByAddr := ringInstanceIdByAddr r;
     lastTopologyChange := lastTopologyChange r;
     ringZones := ringZones r; previousRingZones := previousRingZones r;
     shuffledSubringCache := c |}.

(** The body of the patch loop: the cached instance takes the state and the
    heartbeat timestamp the parent holds under its name. *)
Definition patchInstance (parent : gmap string InstanceDesc)
    (cachedIngesters : gmap string InstanceDesc) (kv : string * InstanceDesc)
    : gmap string InstanceDesc :=
  let ing := index_or_zero parent kv.1 in
  let cachedIng :=
    {| Id := Id kv.2; Addr := Addr kv.2; Timestamp := Timestamp ing;
       State := State ing; Tokens := Tokens kv.2; Zone := Zone kv.2;
       RegisteredTimestamp := RegisteredTimestamp kv.2 |} in
  <[kv.1 := cachedIng]> cachedIngesters.

(** [getCachedShuffledSubring]: the ring with its cache after the call, and
    the subring returned (nil when there is none).  The subring returned is
    the patched cache entry. *)
Definition getCachedShuffledSubring (r : Ring) (identifier : string) (size : Z)
    (zoneStableSharding : bool) : result (Ring * option Ring) :=
  if SubringCacheDisabled (cfg r) then Ok (r, None)
  else
    match shuffledSubringCache r with
    | None => Ok (r, None)
    | Some cache =>
        let key := {| identifier := identifier; shardSize := size;
                      zoneStableSharding := zoneStableSharding |} in
        match cache !! key with
        | None => Ok (r, None)
        | Some cached =>
            match ringDesc cached, ringDesc r with
            | Some cd, Some d =>
                let patched :=
                  foldl (patchInstance (Ingesters d)) (Ingesters cd)
                    (map_to_list (Ingesters cd)) in
                let cached' := with_ringDesc cached (Some {| Ingesters := patched |}) in
                Ok (with_cache r (Some (<[key := cached']> cache)), Some cached')
            | None, _ => Panic NilDereference
            | Some cd, None =>
                if map_len (Ingesters cd) =? 0
                then Ok (r, Some cached) else Panic NilDereference
            end
        end
    end.

Definition setCachedShuffledSubring (r : Ring) (identifier : string) (size : Z)
    (zoneStableSharding : bool) (subring : Ring) : Ring :=
  if SubringCacheDisabled (cfg r) then r
  else
    match shuffledSubringCache r with
    | Some cache =>
        if lastTopologyChange r =? lastTopologyChange subring then
          with_cache r (Some (<[ {| identifier := identifier; shardSize := size;
                                     zoneStableSharding := zoneStableSharding |}
                                 := subring ]> cache))
        else r
    | None => r
    end.

(** [shuffleShardWithCache]: the ring after the call and the ring returned. *)
Definition shuffleShardWithCache (r : Ring) (identifier : string) (size : Z)
    (zoneStableSharding : bool) : result (Ring * Ring) :=
  if size <=? 0 then Ok (r, r)
  else
    count ← InstancesCount r;
    if count <=? size then Ok (r, r)
    else
      '(r', hit) ← getCachedShuffledSubring r identifier size zoneStableSharding;
      match hit with
      | Some cached => Ok (r', cached)
      | None =>
          res ← shuffleShard r identifier size 0 (now E) zoneStableSharding;
          Ok (setCachedShuffledSubring r identifier size zoneStableSharding res, res)
      end.

Definition ShuffleShard (r : Ring) (identifier : string) (size : Z) : result (Ring * Ring) :=
  shuffleShardWithCache r identifier size false.

Definition ShuffleShardWithZoneStability (r : Ring) (identifier : string) (size : Z)
    : result (Ring * Ring) :=
  shuffleShardWithCache r identifier size true.

Definition ShuffleShardWithLookback (r : Ring) (identifier : string) (size : Z)
    (lookbackPeriod : Z) (now : Z) : result Ring :=
  if size <=? 0 then Ok r
  else
    count ← InstancesCount r;
    if count <=? size then Ok r
    else shuffleShard r identifier size lookbackPeriod now false.

(** *** updateRingState *)

(** The body of the loop that drops the instances of the excluded zones. *)
Definition dropExcluded (excluded : list string) (m : gmap string InstanceDesc)
    (kv : string * InstanceDesc) : gmap string InstanceDesc :=
  if StringsContain excluded (Zone kv.2) then delete kv.1 m else m.

Definition filterExcludedZones (r : Ring) (ringDesc : Desc) : Desc :=
  if 0 <? len (ExcludedZones (cfg r)) then
    {| Ingesters := foldl (dropExcluded (ExcludedZones (cfg r))) (Ingesters ringDesc)
                      (map_to_list (Ingesters ringDesc)) |}
  else ringDesc.

(** [updateRingState]; the metrics it refreshes are not part of the model. *)
Definition updateRingState (r : Ring) (ringDesc0 : Desc) : Ring :=
  let prevRing := ringDesc r in
  let ringDesc1 := filterExcludedZones r ringDesc0 in
  let rc := RingCompare E prevRing ringDesc1 in
  if bool_decide (rc = Equal) || bool_decide (rc = EqualButStatesAndTimestamps)
     || bool_decide (rc = EqualButReadOnly) then
    let r1 := with_ringDesc r (Some ringDesc1) in
    if bool_decide (rc = EqualButReadOnly) then
      match shuffledSubringCache r1 with
      | Some _ => with_cache r1 (Some ∅)
      | None => r1
      end
    else r1
  else
    let tokensByZone := getTokensByZone E ringDesc1 in
    {| cfg := cfg r;
       ringDesc := Some ringDesc1;
       ringTokens := GetTokens E ringDesc1;
       ringTokensByZone := tokensByZone;
       ringInstanceByToken := getTokensInfo E ringDesc1;
       ringInstanceIdByAddr := getInstancesByAddr E ringDesc1;
       lastTopologyChange := now E;
       ringZones := getZones E tokensByZone;
       previousRingZones := ringZones r;
       shuffledSubringCache :=
         match shuffledSubringCache r with
         | Some _ => Some ∅
         | None => None
         end |}.

End Model.

(** ** The other operations of ring.go *)

(** Modelled from the spec: [tokenDistance] (util.go).  Section 4.1: the
    arc from [from] to [to] on the 32-bit ring, [to - from] when [to > from],
    else [2^32 - from + to]. *)
Definition tokenDistance (from to : Z) : Z :=
  if from <? to then to - from else 2 ^ 32 - from + to.

(** [m[k]] on a Go map of integers, and [m[k] = m[k] + v]. *)
Definition countOf (m : gmap string Z) (k : string) : Z := default 0 (m !! k).

Definition addTo (m : gmap string Z) (k : string) (v : Z) : gmap string Z :=
  <[k := countOf m k + v]> m.

(** [m[k] = m[k] + 1] on a map of [uint32]. *)
Definition incr32 (m : gmap string Z) (k : string) : gmap string Z :=
  <[k := (countOf m k + 1) mod 2 ^ 32]> m.

(** [r.ringInstanceByToken[token]]: the zero [instanceInfo] for a token the
    map does not hold. *)
Definition infoOrZero (r : Ring) (token : Z) : instanceInfo :=
  default {| InstanceID := ""; InfoZone := "" |} (ringInstanceByToken r !! token).

(** The zero [time.Time], January 1 of year 1: what a field of a new
    struct holds. *)
Definition zeroTime : Z := -62135596800 * Second.

Section Model2.
Context (E : Env).

(** [NewWithStoreClientAndStrategy]: the ring as constructed, or the error
    for a replication factor that is not positive (nil here).  The KV
    store, the metrics and the service are not part of the model. *)
Definition NewWithStoreClientAndStrategy (cfg0 : Config) : option Ring :=
  if ReplicationFactor cfg0 <=? 0 then None
  else Some {| cfg := cfg0;
               ringDesc := Some {| Ingesters := ∅ |};
               ringTokens := [];
               ringTokensByZone := ∅;
               ringInstanceByToken := ∅;
               ringInstanceIdByAddr := ∅;
               lastTopologyChange := zeroTime;
               ringZones := [];
               previousRingZones := [];
               shuffledSubringCache := Some ∅ |}.

(** *** GetAllInstanceDescs *)

(** The body of the loop: the instance goes to the healthy or to the
    unhealthy slice. *)
Definition splitHealthy (r : Ring) (op : Op.Operation) (storageLastUpdate : Z)
    (st : list InstanceDesc * list InstanceDesc) (kv : string * InstanceDesc)
    : list InstanceDesc * list InstanceDesc :=
  if IsHealthy E r kv.2 op storageLastUpdate then (st.1 ++ [kv.2], st.2)
  else (st.1, st.2 ++ [kv.2]).

Definition GetAllInstanceDescs (r : Ring) (op : Op.Operation)
    : result (list InstanceDesc * list InstanceDesc) :=
  match ringDesc r with
  | None => Err ErrEmptyRing
  | Some d =>
      if map_len (Ingesters d) =? 0 then Err ErrEmptyRing
      else
        let storageLastUpdate := LastUpdateTime E in
        Ok (foldl (splitHealthy r op storageLastUpdate) ([], [])
              (map_to_list (Ingesters d)))
  end.

(** *** GetInstanceDescsForOperation *)

Definition keepHealthy (r : Ring) (op : Op.Operation) (storageLastUpdate : Z)
    (instanceDescs : gmap string InstanceDesc) (kv : string * InstanceDesc)
    : gmap string InstanceDesc :=
  if IsHealthy E r kv.2 op storageLastUpdate
  then <[kv.1 := kv.2]> instanceDescs else instanceDescs.

Definition GetInstanceDescsForOperation (r : Ring) (op : Op.Operation)
    : result (gmap string InstanceDesc) :=
  match ringDesc r with
  | None => Err ErrEmptyRing
  | Some d =>
      if map_len (Ingesters d) =? 0 then Err ErrEmptyRing
      else
        let storageLastUpdate := LastUpdateTime E in
        Ok (foldl (keepHealthy r op storageLastUpdate) ∅ (map_to_list (Ingesters d)))
  end.

(** *** GetInstanceState, HasInstance, GetInstanceIdByAddr *)

(** [r.ringDesc.GetIngesters()]: the generated getter, which yields a nil
    map for a nil descriptor. *)
Definition GetIngesters (d : option Desc) : gmap string InstanceDesc :=
  match d with
  | Some d => Ingesters d
  | None => ∅
  end.

(** The state, or [(PENDING, ErrInstanceNotFound)]. *)
Definition GetInstanceState (r : Ring) (instanceID : string) : result InstanceState :=
  match GetIngesters (ringDesc r) !! instanceID with
  | None => Err ErrInstanceNotFound
  | Some instance => Ok (State instance)
  end.

Definition HasInstance (r : Ring) (instanceID : string) : bool :=
  match GetIngesters (ringDesc r) !! instanceID with
  | None => false
  | Some _ => true
  end.

(** The id, or [("notFound", ErrInstanceNotFound)]. *)
Definition GetInstanceIdByAddr (r : Ring) (addr : string) : result string :=
  match ringInstanceIdByAddr r !! addr with
  | Some i => Ok i
  | None => Err ErrInstanceNotFound
  end.

(** *** CleanupShuffleShardCache *)

Definition dropIdentifier (identifier0 : string) (cache : gmap subringCacheKey Ring)
    (kv : subringCacheKey * Ring) : gmap subringCacheKey Ring :=
  if bool_decide (identifier kv.1 = identifier0) then delete kv.1 cache else cache.

Definition CleanupShuffleShardCache (r : Ring) (identifier0 : string) : Ring :=
  if SubringCacheDisabled (cfg r) then r
  else
    match shuffledSubringCache r with
    | None => r
    | Some cache =>
        with_cache r
          (Some (foldl (dropIdentifier identifier0) cache (map_to_list cache)))
    end.

(** *** countTokens *)

(** The body of the first loop, for [i] from 1 to [len(r.ringTokens)]: the
    variables are [numTokens] and [owned]. *)
Definition countStep (r : Ring) (st : result (gmap string Z * gmap string Z)) (i : nat)
    : result (gmap string Z * gmap string Z) :=
  '(numTokens, owned) ← st;
  let index := (i mod length (ringTokens r))%nat in
  match ringTokens r !! (i - 1)%nat, ringTokens r !! index with
  | Some prev, Some token =>
      let diff := tokenDistance prev token in
      let info := infoOrZero r token in
      Ok (incr32 numTokens (InstanceID info), addTo owned (InstanceID info) diff)
  | _, _ => Panic IndexOutOfRange
  end.

(** The body of the second loop: an instance without tokens gets zeros. *)
Definition countMissing (st : gmap string Z * gmap string Z) (kv : string * InstanceDesc)
    : gmap string Z * gmap string Z :=
  match st.2 !! kv.1 with
  | Some _ => st
  | None => (<[kv.1 := 0]> st.1, <[kv.1 := 0]> st.2)
  end.

(** [countTokens]: the number of tokens and the length of the ring owned,
    by instance id. *)
Definition countTokens (r : Ring) : result (gmap string Z * gmap string Z) :=
  st ← foldl (countStep r) (Ok (∅, ∅)) (seq 1 (length (ringTokens r)));
  match ringDesc r with
  | None => Panic NilDereference
  | Some d => Ok (foldl countMissing st (map_to_list (Ingesters d)))
  end.

End Model2.

(** * Notions of the statements *)

(** ** Fleet-wide replication sets and auto-forget *)

(** The instances of [d] that are healthy for [op], as a map. *)
Definition healthyIngesters (E : Env) (r : Ring) (op : Op.Operation) (d : Desc)
    : gmap string InstanceDesc :=
  filter (fun kv : string * InstanceDesc =>
            IsHealthy E r kv.2 op (LastUpdateTime E) = true) (Ingesters d).

(** The test of the loop: the last heartbeat is older than the forget
    period. *)
Definition forgotten (E : Env) (forgetPeriod : Z) (i : InstanceDesc) : Prop :=
  forgetPeriod < time_Since E (time_Unix (Timestamp i)).

#[global] Instance forgotten_dec (E : Env) (fp : Z) (i : InstanceDesc) :
  Decision (forgotten E fp i).
Proof. unfold forgotten. apply _. Defined.

(** ** The subring cache *)

(** What a cache hit does to one cached instance: the state and the
    heartbeat timestamp are those the parent holds under [name]; the other
    fields stay. *)
Definition patchedInstance (parent : gmap string InstanceDesc) (name : string)
    (c : InstanceDesc) : InstanceDesc :=
  {| Id := Id c; Addr := Addr c;
     Timestamp := Timestamp (index_or_zero parent name);
     State := State (index_or_zero parent name);
     Tokens := Tokens c; Zone := Zone c;
     RegisteredTimestamp := RegisteredTimestamp c |}.

(** [sub] is the cached subring [cached] patched from the instances
    [parent]: the same instance ids, every instance with its own id, address,
    tokens, zone and registration time, and with the state and the heartbeat
    timestamp of the parent's instance of that name; the token views, the
    zones, the configuration and the topology stamp are those of [cached]. *)
Definition patched_from (parent : gmap string InstanceDesc) (cached sub : Ring) : Prop :=
  cfg sub = cfg cached
  ∧ ringTokens sub = ringTokens cached
  ∧ ringTokensByZone sub = ringTokensByZone cached
  ∧ ringInstanceByToken sub = ringInstanceByToken cached
  ∧ ringZones sub = ringZones cached
  ∧ lastTopologyChange sub = lastTopologyChange cached
  ∧ ∃ cd cd', ringDesc cached = Some cd ∧ ringDesc sub = Some cd'
      ∧ dom (Ingesters cd') = dom (Ingesters cd)
      ∧ (∀ name, Ingesters cd' !! name
                 = patchedInstance parent name <$> Ingesters cd !! name)
      ∧ (∀ name c' ing, Ingesters cd' !! name = Some c' →
           parent !! name = Some ing →
           State c' = State ing ∧ Timestamp c' = Timestamp ing).

(** ** Get *)

(** The invariant that ties the token map to the descriptor: the instance
    that a token of the ring belongs to is in the descriptor, under its own
    id and with the zone the token map records.  It speaks of the tokens of
    the ring only: a subring shares the token map of its parent, which also
    maps the tokens of instances the subring does not hold. *)
Definition ownerOk (d : Desc) (info : instanceInfo) : bool :=
  match Ingesters d !! InstanceID info with
  | Some i => bool_decide (Id i = InstanceID info) && bool_decide (Zone i = InfoZone info)
  | None => false
  end.

Definition tokenOk (r : Ring) (d : Desc) (t : Z) : bool :=
  match ringInstanceByToken r !! t with
  | Some info => ownerOk d info
  | None => true
  end.

Definition tokens_consistent (r : Ring) (d : Desc) (tokens : list Z) : Prop :=
  Forall (fun t => tokenOk r d t = true) tokens.

#[global] Instance tokens_consistent_dec (r : Ring) (d : Desc) (tokens : list Z) :
  Decision (tokens_consistent r d tokens).
Proof. unfold tokens_consistent. apply _. Defined.

Definition infos_consistent (r : Ring) (d : Desc) : Prop :=
  tokens_consistent r d (ringTokens r).

#[global] Instance infos_consistent_dec (r : Ring) (d : Desc) :
  Decision (infos_consistent r d).
Proof. unfold infos_consistent. apply _. Defined.

(** [ceil(a / b)] for a positive [b]. *)
Definition ceil_div (a b : Z) : Z := (a + b - 1) `div` b.

(** The candidates in zone [z] that do not extend the replica set. *)
Definition zoneMembers (op : Op.Operation) (z : string) (l : list InstanceDesc)
    : list InstanceDesc :=
  filter (fun i => Zone i = z
                   ∧ Op.ShouldExtendReplicaSetOnState Op.state_code op (State i) = false) l.

(** The hosts are distinct, come from the token map, and the instances are
    the descriptor's entries of the hosts, in the same order. *)
Definition hostsInv (r : Ring) (d : Desc) (st : getState) : Prop :=
  NoDup (distinctHosts st)
  ∧ instances st = index_or_zero (Ingesters d) <$> distinctHosts st
  ∧ Forall (fun h => ∃ token info, token ∈ ringTokens r
                                  ∧ ringInstanceByToken r !! token = Some info
                                  ∧ InstanceID info = h) (distinctHosts st).

(** The running count of a zone is the number of its candidates that did
    not extend the replica set, and it stays within the quota. *)
Definition zoneInv (op : Op.Operation) (maxInstancePerZone zonesWithExtra0 : Z)
    (st : getState) : Prop :=
  (∀ z, z ≠ "" →
     zoneCount (numOfInstanceByZone st) z = len (zoneMembers op z (instances st)))
  ∧ (∀ z, z ≠ "" →
       zoneCount (numOfInstanceByZone st) z
       ≤ maxInstancePerZone + (if 0 <? zonesWithExtra0 then 1 else 0))
  ∧ zonesWithExtraInstance st ≤ zonesWithExtra0.

(** The candidates that extended the replica set, and the invariant that
    ties the replication factor of the loop to them: it is the configured
    factor plus their number, and the hosts never outnumber it. *)
Definition extending (op : Op.Operation) (l : list InstanceDesc) : list InstanceDesc :=
  filter (fun i => Op.ShouldExtendReplicaSetOnState Op.state_code op (State i) = true) l.

Definition replicaInv (op : Op.Operation) (RF : Z) (st : getState) : Prop :=
  len (instances st) = len (distinctHosts st)
  ∧ replicationFactor st = RF + len (extending op (instances st))
  ∧ len (distinctHosts st) ≤ replicationFactor st.

(** ** Shuffle sharding *)

(** The tokens the walk meets in [todo] iterations from position [p], in
    the order it meets them: the ring of [tokens] from [p] on, wrapping
    around. *)
Definition walkOrder (tokens : list Z) (p todo : nat) : list Z :=
  (fun j => tokens !!! ((p + j) mod length tokens)%nat) <$> seq 0 todo.

(** The shard once the walk is past the token [t]: the owner of [t] is in
    it, with the descriptor's entry, unless it already was. *)
Definition addOwner (r : Ring) (d : Desc) (shard : gmap string InstanceDesc) (t : Z)
    : gmap string InstanceDesc :=
  match ringInstanceByToken r !! t with
  | Some info =>
      match shard !! InstanceID info with
      | Some _ => shard
      | None => <[InstanceID info := index_or_zero (Ingesters d) (InstanceID info)]> shard
      end
  | None => shard
  end.

(** The condition of the specification for going on after an instance has
    been put into the shard, in the specification's words and apart from the
    code's test: the lookback period is positive and the instance registered
    at or after [now - lookbackPeriod] (the registration time is in unix
    seconds, so the instant is taken to its second); or the instance is
    READONLY. *)
Definition continues (lookbackPeriod now : Z) (instance : InstanceDesc) : Prop :=
  (0 < lookbackPeriod ∧ Unix_of (now - lookbackPeriod) ≤ RegisteredTimestamp instance)
  ∨ State instance = READONLY.

(** The walk goes past [t]: its owner was in the shard before the walk, or
    the owner's instance, put into the shard by the walk, meets the
    condition for going on. *)
Definition passes (r : Ring) (d : Desc) (lookbackPeriod now : Z)
    (shard : gmap string InstanceDesc) (t : Z) : Prop :=
  ∃ info, ringInstanceByToken r !! t = Some info
          ∧ (is_Some (shard !! InstanceID info)
             ∨ continues lookbackPeriod now
                 (index_or_zero (Ingesters d) (InstanceID info))).

(** The walk ends at [t]: its owner is not in the shard, and the owner's
    instance does not meet the condition for going on. *)
Definition settles (r : Ring) (d : Desc) (lookbackPeriod now : Z)
    (shard : gmap string InstanceDesc) (t : Z) : Prop :=
  ∃ info, ringInstanceByToken r !! t = Some info
          ∧ shard !! InstanceID info = None
          ∧ ¬ continues lookbackPeriod now
                (index_or_zero (Ingesters d) (InstanceID info)).

(** The ids of the instances that own some token of [tokens]. *)
Definition ownersOf (r : Ring) (tokens : list Z) : gset string :=
  list_to_set (omap (fun t => InstanceID <$> ringInstanceByToken r !! t) tokens).

(** The number of draws in a zone, and the zones with an extra instance
    that are left after it. *)
Definition quota (numInstancesPerZone zonesWithExtra : Z) : nat :=
  Z.to_nat (if 0 <? zonesWithExtra then numInstancesPerZone + 1 else numInstancesPerZone).

Definition nextExtra (zonesWithExtra : Z) : Z :=
  if 0 <? zonesWithExtra then zonesWithExtra - 1 else zonesWithExtra.

(** The plan [(p1, e1)] asks no zone for more draws than [(p2, e2)]. *)
Definition planLe (p1 e1 p2 e2 : Z) : Prop := p1 < p2 ∨ (p1 = p2 ∧ e1 ≤ e2).

(** No instance owns tokens of two of the zones. *)
Fixpoint zonesSeparate (r : Ring) (zones : list string) : Prop :=
  match zones with
  | [] => True
  | zone :: zones' =>
      Forall (fun z' => ownersOf r (zoneTokens r zone) ## ownersOf r (zoneTokens r z')) zones'
      ∧ zonesSeparate r zones'
  end.

(** The zones shuffle sharding walks, and the invariant of Get for the
    tokens of each. *)
Definition walkedZones (r : Ring) : list string :=
  if ZoneAwarenessEnabled (cfg r) then ringZones r else [""].

Definition shard_consistent (r : Ring) (d : Desc) : Prop :=
  Forall (fun zone => tokens_consistent r d (zoneTokens r zone)) (walkedZones r).

#[global] Instance shard_consistent_dec (r : Ring) (d : Desc) :
  Decision (shard_consistent r d).
Proof. unfold shard_consistent. apply _. Defined.

(** The tokens listed for a zone belong to instances of that zone. *)
Definition zoneTokenOk (r : Ring) (zone : string) (t : Z) : bool :=
  match ringInstanceByToken r !! t with
  | Some info => bool_decide (InfoZone info = zone)
  | None => false
  end.

Definition zones_owned (r : Ring) : Prop :=
  Forall (fun zone =>
            Forall (fun t => zoneTokenOk r zone t = true)
              (default [] (ringTokensByZone r !! zone)))
    (ringZones r).

#[global] Instance zones_owned_dec (r : Ring) : Decision (zones_owned r).
Proof. unfold zones_owned. apply _. Defined.

(** The cached subrings hold the instances shuffle sharding selects on the
    ring as it is. *)
Definition cache_coherent (E : Env) (r : Ring) : Prop :=
  ∀ cache key cached,
    shuffledSubringCache r = Some cache →
    cache !! key = Some cached →
    ∃ cd fresh,
      ringDesc cached = Some cd
      ∧ shuffleShard_instances E r (identifier key) (shardSize key) 0 (now E)
          (zoneStableSharding key) = Ok fresh
      ∧ dom (Ingesters cd) = dom fresh.

(** Every instance of the shard is the descriptor's entry of its id. *)
Definition fromDesc (d : Desc) (shard : gmap string InstanceDesc) : Prop :=
  ∀ id i, shard !! id = Some i → i = index_or_zero (Ingesters d) id.

(** The instances of the shard that end a draw: those that are neither
    READONLY nor registered within the lookback period. *)
Definition settled (lookbackPeriod lookbackUntil : Z) (shard : gmap string InstanceDesc)
    : gmap string InstanceDesc :=
  filter (fun kv => keepsWalking lookbackPeriod lookbackUntil kv.2 = false) shard.

(** The draws the loop over the zones asks for, all zones together. *)
Fixpoint plannedDraws (numInstancesPerZone zonesWithExtra : Z) (zones : list string) : nat :=
  match zones with
  | [] => 0
  | _ :: zones' =>
      quota numInstancesPerZone zonesWithExtra
      + plannedDraws numInstancesPerZone (nextExtra zonesWithExtra) zones'
  end.

(** ** Ownership of the ring *)

(** The sum of the values of a map of counters. *)
Definition totalOf (m : gmap string Z) : Z := foldr Z.add 0 (map_to_list m).*2.

(** ** A ring to run the model on

    Six instances in three zones, two to a zone, every one ACTIVE with a
    heartbeat ten seconds old; replication factor 3. *)

Module Example.

Definition instance (id zone : string) (tokens : list Z) (state : InstanceState)
    : InstanceDesc :=
  {| Id := id; Addr := id; Timestamp := 1000; State := state; Tokens := tokens;
     Zone := zone; RegisteredTimestamp := 500 |}.

Definition ingesters : gmap string InstanceDesc :=
  list_to_map
    [("a1", instance "a1" "a" [10; 70] ACTIVE);
     ("b1", instance "b1" "b" [20; 80] ACTIVE);
     ("c1", instance "c1" "c" [30; 90] ACTIVE);
     ("a2", instance "a2" "a" [40] ACTIVE);
     ("b2", instance "b2" "b" [50] ACTIVE);
     ("c2", instance "c2" "c" [60] ACTIVE)].

Definition desc : Desc := {| Ingesters := ingesters |}.

Definition infoOf (id zone : string) : instanceInfo :=
  {| InstanceID := id; InfoZone := zone |}.

Definition byToken : gmap Z instanceInfo :=
  list_to_map
    [(10, infoOf "a1" "a"); (20, infoOf "b1" "b"); (30, infoOf "c1" "c");
     (40, infoOf "a2" "a"); (50, infoOf "b2" "b"); (60, infoOf "c2" "c");
     (70, infoOf "a1" "a"); (80, infoOf "b1" "b"); (90, infoOf "c1" "c")].

Definition config (zoneAware : bool) : Config :=
  {| HeartbeatTimeout := 60 * Second; ReplicationFactor := 3;
     ZoneAwarenessEnabled := zoneAware; ExcludedZones := [];
     SubringCacheDisabled := false |}.

Definition ringOf (zoneAware : bool) (d : Desc)
    (cache : option (gmap subringCacheKey Ring)) : Ring :=
  {| cfg := config zoneAware;
     ringDesc := Some d;
     ringTokens := [10; 20; 30; 40; 50; 60; 70; 80; 90];
     ringTokensByZone :=
       list_to_map [("a", [10; 40; 70]); ("b", [20; 50; 80]); ("c", [30; 60; 90])];
     ringInstanceByToken := byToken;
     ringInstanceIdByAddr := ∅;
     lastTopologyChange := 0;
     ringZones := ["a"; "b"; "c"];
     previousRingZones := [];
     shuffledSubringCache := cache |}.

(** The ring with zone-awareness and an empty cache, and the same ring
    without zone-awareness. *)
Definition ring : Ring := ringOf true desc (Some ∅).
Definition flatRing : Ring := ringOf false desc (Some ∅).

(** The operations of the package. *)
Definition Write : Op.Operation :=
  Op.NewOp Op.state_code [ACTIVE] (Some (fun s => bool_decide (s ≠ ACTIVE))).
Definition Read : Op.Operation :=
  Op.NewOp Op.state_code [ACTIVE; PENDING; LEAVING; JOINING; READONLY]
    (Some (fun s => bool_decide (s ≠ ACTIVE ∧ s ≠ LEAVING ∧ s ≠ JOINING ∧ s ≠ READONLY))).
Definition Reporting : Op.Operation := 65535.
Definition WriteNoExtend : Op.Operation :=
  Op.NewOp Op.state_code [ACTIVE] (Some (fun s => bool_decide (s = READONLY))).

(** Modelled from the spec: the derived views of a descriptor (model.go).
    Section 3: the tokens of all instances in ascending order, the tokens of
    each zone in ascending order, the owner of each token, the instance id
    of each address, and the zones in alphabetical order. *)
Definition entries (d : Desc) : list (string * InstanceDesc) := map_to_list (Ingesters d).

Definition exGetTokens (d : Desc) : list Z :=
  merge_sort Z.le (concat ((fun kv => Tokens kv.2) <$> entries d)).

Definition exGetTokensByZone (d : Desc) : gmap string (list Z) :=
  foldr (fun kv m =>
           <[Zone kv.2 := merge_sort Z.le (default [] (m !! Zone kv.2) ++ Tokens kv.2)]> m)
    ∅ (entries d).

Definition exGetTokensInfo (d : Desc) : gmap Z instanceInfo :=
  foldr (fun kv m =>
           foldr (fun t m => <[t := {| InstanceID := kv.1; InfoZone := Zone kv.2 |}]> m)
             m (Tokens kv.2))
    ∅ (entries d).

Definition exGetInstancesByAddr (d : Desc) : gmap string string :=
  foldr (fun kv m => <[Addr kv.2 := kv.1]> m) ∅ (entries d).

Definition string_le (a b : string) : Prop := String.leb a b = true.

#[global] Instance string_le_dec (a b : string) : Decision (string_le a b).
Proof. unfold string_le. apply _. Defined.

Definition exGetZones (tokens : gmap string (list Z)) : list string :=
  merge_sort string_le (map_to_list tokens).*1.

(** Modelled from the spec: [RingCompare] (model.go).  Section 4.3.2 and
    the glossary: the topology is the set of instances with their zones and
    tokens; a change of READONLY membership is told apart from other changes
    of state and heartbeat. *)
Definition topologyOf (i : InstanceDesc) : InstanceDesc :=
  {| Id := Id i; Addr := Addr i; Timestamp := 0; State := ACTIVE;
     Tokens := Tokens i; Zone := Zone i; RegisteredTimestamp := RegisteredTimestamp i |}.

Definition exRingCompare (prev : option Desc) (next : Desc) : CompareResult :=
  match prev with
  | None => Different
  | Some p =>
      if bool_decide (Ingesters p = Ingesters next) then Equal
      else if bool_decide (topologyOf <$> Ingesters p = topologyOf <$> Ingesters next) then
        if bool_decide ((fun i => bool_decide (State i = READONLY)) <$> Ingesters p
                        = (fun i => bool_decide (State i = READONLY)) <$> Ingesters next)
        then EqualButStatesAndTimestamps
        else EqualButReadOnly
      else Different
  end.

(** An environment: ten seconds after the heartbeats, a KV store synced at
    the epoch, and generators that yield 15, 45, 75, ... in every zone. *)
Definition env : Env :=
  {| now := 1010 * Second;
     LastUpdateTime := 0;
     shardRandom := fun _ _ n => 15 + 30 * Z.of_nat n;
     RingCompare := exRingCompare;
     GetTokens := exGetTokens;
     getTokensByZone := exGetTokensByZone;
     getTokensInfo := exGetTokensInfo;
     getInstancesByAddr := exGetInstancesByAddr;
     getZones := exGetZones |}.

(** A ring with instances that have no zone: replication factor 2, the
    zones [""] and ["z"], zone-awareness enabled. *)
Definition unzoned : Ring :=
  {| cfg := {| HeartbeatTimeout := 60 * Second; ReplicationFactor := 2;
               ZoneAwarenessEnabled := true; ExcludedZones := [];
               SubringCacheDisabled := false |};
     ringDesc :=
       Some {| Ingesters :=
                 list_to_map
                   [("x1", instance "x1" "" [10] ACTIVE);
                    ("x2", instance "x2" "" [20] ACTIVE);
                    ("z1", instance "z1" "z" [30] ACTIVE)] |};
     ringTokens := [10; 20; 30];
     ringTokensByZone := list_to_map [("", [10; 20]); ("z", [30])];
     ringInstanceByToken :=
       list_to_map [(10, infoOf "x1" ""); (20, infoOf "x2" ""); (30, infoOf "z1" "z")];
     ringInstanceIdByAddr := ∅;
     lastTopologyChange := 0;
     ringZones := [""; "z"];
     previousRingZones := [];
     shuffledSubringCache := Some ∅ |}.

(** A subring cached for the tenant ["t"] with shard size 3: the instances
    a2, b1 and c1 as they were when a2 was still PENDING. *)
Definition cachedKey : subringCacheKey :=
  {| identifier := "t"; shardSize := 3; zoneStableSharding := false |}.

Definition cachedDesc : Desc :=
  {| Ingesters :=
       list_to_map
         [("a2", {| Id := "a2"; Addr := "a2"; Timestamp := 900; State := PENDING;
                    Tokens := [40]; Zone := "a"; RegisteredTimestamp := 500 |});
          ("b1", instance "b1" "b" [20; 80] ACTIVE);
          ("c1", instance "c1" "c" [30; 90] ACTIVE)] |}.

Definition cachedSubring : Ring :=
  {| cfg := config true;
     ringDesc := Some cachedDesc;
     ringTokens := [20; 30; 40; 80; 90];
     ringTokensByZone := list_to_map [("a", [40]); ("b", [20; 80]); ("c", [30; 90])];
     ringInstanceByToken := byToken;
     ringInstanceIdByAddr := ∅;
     lastTopologyChange := 0;
     ringZones := ["a"; "b"; "c"];
     previousRingZones := [];
     shuffledSubringCache := None |}.

Definition cachingRing : Ring := ringOf true desc (Some {[ cachedKey := cachedSubring ]}).

(** The descriptor with a1's last heartbeat 110 seconds old, past the
    heartbeat timeout of one minute. *)
Definition staleDesc : Desc :=
  {| Ingesters :=
       <["a1" := {| Id := "a1"; Addr := "a1"; Timestamp := 900; State := ACTIVE;
                    Tokens := [10; 70]; Zone := "a"; RegisteredTimestamp := 500 |}]>
         ingesters |}.

(** The descriptor after a2 has started LEAVING and sent a heartbeat. *)
Definition leavingDesc : Desc :=
  {| Ingesters :=
       <["a2" := {| Id := "a2"; Addr := "a2"; Timestamp := 1005; State := LEAVING;
                    Tokens := [40]; Zone := "a"; RegisteredTimestamp := 500 |}]>
         ingesters |}.

(** The descriptor with a2 READONLY. *)
Definition readonlyDesc : Desc :=
  {| Ingesters := <["a2" := instance "a2" "a" [40] READONLY]> ingesters |}.

(** The ids of a replication set, with its two tolerances. *)
Definition summary (res : result ReplicationSet) : option (list string * Z * Z) :=
  match res with
  | Ok rs => Some (Id <$> Instances rs, MaxErrors rs, MaxUnavailableZones rs)
  | _ => None
  end.

(** The ids of the instances of a ring. *)
Definition members (res : result Ring) : option (list string) :=
  match res with
  | Ok r => (fun d => (map_to_list (Ingesters d)).*1) <$> ringDesc r
  | _ => None
  end.

End Example.

(** * Properties *)

(** ** The operation codec *)

Section CodecFacts.
Context (code : InstanceState → Z).
Hypothesis code_range : ∀ s, 0 ≤ code s < 16.

Lemma shl32_one (c : Z) : 0 ≤ c < 32 → Op.shl32 1 c = 2 ^ c.
Proof.
  intros Hc. unfold Op.shl32, Op.uint32_mod.
  rewrite Z.shiftl_1_l. apply Z.mod_small. split; [apply Z.pow_nonneg; lia|].
  apply Z.pow_lt_mono_r; lia.
Qed.

Lemma shl32_extend (c : Z) : 0 ≤ c < 16 → Op.shl32 65536 c = 2 ^ (16 + c).
Proof.
  intros Hc. unfold Op.shl32, Op.uint32_mod.
  rewrite Z.shiftl_mul_pow2 by lia.
  change 65536 with (2 ^ 16). rewrite <- Z.pow_add_r by lia.
  apply Z.mod_small. split; [apply Z.pow_nonneg; lia|].
  apply Z.pow_lt_mono_r; lia.
Qed.

Lemma land_pow2 (a n : Z) :
  0 ≤ n → Z.land a (2 ^ n) = if Z.testbit a n then 2 ^ n else 0.
Proof.
  intros Hn. apply Z.bits_inj'. intros m Hm.
  rewrite Z.land_spec, Z.pow2_bits_eqb by lia.
  destruct (Z.eqb_spec n m) as [->|Hne].
  - destruct (Z.testbit a m); simpl.
    + rewrite Z.pow2_bits_eqb by lia. symmetry. apply Z.eqb_refl.
    + symmetry. apply Z.bits_0.
  - rewrite andb_false_r. destruct (Z.testbit a n).
    + rewrite Z.pow2_bits_eqb by lia. symmetry. by apply Z.eqb_neq.
    + symmetry. apply Z.bits_0.
Qed.

Lemma mask_test (a n : Z) : 0 ≤ n → (0 <? Z.land a (2 ^ n)) = Z.testbit a n.
Proof.
  intros Hn. rewrite land_pow2 by done. destruct (Z.testbit a n).
  - apply Z.ltb_lt. apply Z.pow_pos_nonneg; lia.
  - done.
Qed.

Lemma markHealthy_bits (l : list InstanceState) (a n : Z) :
  0 ≤ n →
  Z.testbit (foldl (Op.markHealthy code) a l) n
  = Z.testbit a n || existsb (fun s => code s =? n) l.
Proof.
  intros Hn. revert a. induction l as [|s l IH]; intros a; simpl.
  - by rewrite orb_false_r.
  - rewrite IH. unfold Op.markHealthy.
    rewrite Z.lor_spec, shl32_one by (specialize (code_range s); lia).
    rewrite Z.pow2_bits_eqb by (specialize (code_range s); lia).
    by rewrite orb_assoc.
Qed.

Lemma markExtend_bits (f : InstanceState → bool) (l : list InstanceState) (a n : Z) :
  0 ≤ n →
  Z.testbit (foldl (Op.markExtend code f) a l) n
  = Z.testbit a n || existsb (fun s => f s && (16 + code s =? n)) l.
Proof.
  intros Hn. revert a. induction l as [|s l IH]; intros a; simpl.
  - by rewrite orb_false_r.
  - rewrite IH. unfold Op.markExtend. destruct (f s); simpl.
    + rewrite Z.lor_spec, shl32_extend by apply code_range.
      rewrite Z.pow2_bits_eqb by (specialize (code_range s); lia).
      by rewrite orb_assoc.
    + done.
Qed.

Lemma NewOp_bits (healthy : list InstanceState)
    (ext : option (InstanceState → bool)) (n : Z) :
  0 ≤ n →
  Z.testbit (Op.NewOp code healthy ext) n
  = existsb (fun s => code s =? n) healthy
    || match ext with
       | Some f => existsb (fun s => f s && (16 + code s =? n)) Op.extendStates
       | None => false
       end.
Proof.
  intros Hn. unfold Op.NewOp. destruct ext as [f|].
  - rewrite markExtend_bits, markHealthy_bits by done. by rewrite Z.bits_0.
  - rewrite markHealthy_bits by done. by rewrite Z.bits_0, orb_false_r.
Qed.

Lemma healthy_test_bit (op : Z) (s : InstanceState) :
  Op.IsInstanceInStateHealthy code op s = Z.testbit op (code s).
Proof.
  unfold Op.IsInstanceInStateHealthy.
  rewrite shl32_one by (specialize (code_range s); lia).
  apply mask_test. apply code_range.
Qed.

Lemma extend_test_bit (op : Z) (s : InstanceState) :
  Op.ShouldExtendReplicaSetOnState code op s = Z.testbit op (16 + code s).
Proof.
  unfold Op.ShouldExtendReplicaSetOnState.
  rewrite shl32_extend by apply code_range.
  apply mask_test. specialize (code_range s); lia.
Qed.

End CodecFacts.

(** C8.  Whatever the numbering of the states, as long as it is injective
    and stays below 16: a state is healthy for the operation NewOp builds if
    and only if it is one of the healthy states NewOp was given, for every
    list of healthy states and every extend function (nil included).  The
    extend bits sit at positions 16 and above and never reach the bit the
    test reads. *)
Theorem NewOp_healthy_iff (code : InstanceState → Z)
    (code_range : ∀ s, 0 ≤ code s < 16)
    (code_inj : ∀ s t, code s = code t → s = t)
    (healthyStates : list InstanceState)
    (shouldExtendReplicaSet : option (InstanceState → bool))
    (s : InstanceState) :
  Op.IsInstanceInStateHealthy code (Op.NewOp code healthyStates shouldExtendReplicaSet) s = true
  ↔ s ∈ healthyStates.
Proof.
  rewrite healthy_test_bit by done.
  rewrite NewOp_bits by (apply code_range || done).
  assert (Hext : match shouldExtendReplicaSet with
                 | Some f => existsb (fun s0 => f s0 && (16 + code s0 =? code s)) Op.extendStates
                 | None => false
                 end = false).
  { destruct shouldExtendReplicaSet as [f|]; [|done].
    apply not_true_is_false. intros Hex. apply existsb_exists in Hex.
    destruct Hex as (t & _ & Ht). apply andb_true_iff in Ht as [_ Ht].
    apply Z.eqb_eq in Ht. pose proof (code_range t). pose proof (code_range s). lia. }
  rewrite Hext, orb_false_r. rewrite existsb_exists. split.
  - intros (t & Hin & Ht). apply Z.eqb_eq, code_inj in Ht. subst t.
    by apply list_elem_of_In.
  - intros Hin. exists s. split; [by apply list_elem_of_In | apply Z.eqb_refl].
Qed.

Lemma state_code_range (s : InstanceState) : 0 ≤ Op.state_code s < 16.
Proof. destruct s; simpl; lia. Qed.

Lemma state_code_inj (s t : InstanceState) : Op.state_code s = Op.state_code t → s = t.
Proof. destruct s, t; simpl; intros H; congruence. Qed.

Lemma NewOp_healthy_iff_witness :
  Op.IsInstanceInStateHealthy Op.state_code
    (Op.NewOp Op.state_code [ACTIVE; READONLY] (Some (fun s => bool_decide (s ≠ ACTIVE))))
    READONLY = true
  ↔ READONLY ∈ [ACTIVE; READONLY].
Proof.
  apply (NewOp_healthy_iff Op.state_code state_code_range state_code_inj).
Defined.

(** ** Ranging over a map of instances *)

Lemma filter_fmap {A B : Type} (f : A → B) (P : B → Prop) `{∀ x, Decision (P x)}
    (l : list A) :
  filter P (f <$> l) = f <$> filter (fun a => P (f a)) l.
Proof.
  induction l as [|a l IH]; [done|].
  rewrite fmap_cons, !filter_cons.
  destruct (decide (P (f a))); simpl; by rewrite IH.
Qed.

Lemma map_to_list_filter_perm {A : Type} (Q : string * A → Prop)
    `{∀ x, Decision (Q x)} (m : gmap string A) :
  map_to_list (filter Q m) ≡ₚ filter Q (map_to_list m).
Proof.
  rewrite map_filter_alt. apply map_to_list_to_map.
  eapply sublist_NoDup; [apply (NoDup_fst_map_to_list m)|].
  apply fmap_sublist, sublist_filter.
Qed.

(** The values a filter keeps, whatever the order the map is ranged in. *)
Lemma filter_values {A : Type} (P : A → Prop) `{∀ x, Decision (P x)}
    (m : gmap string A) :
  filter P (map_to_list m).*2 ≡ₚ (map_to_list (filter (fun kv => P kv.2) m)).*2.
Proof.
  rewrite filter_fmap. apply fmap_Permutation. symmetry.
  apply map_to_list_filter_perm.
Qed.

Lemma map_len_zero {A : Type} (m : gmap string A) : (map_len m =? 0) = true ↔ m = ∅.
Proof.
  unfold map_len. rewrite Z.eqb_eq. rewrite <- map_size_empty_iff. lia.
Qed.

Lemma len_zero {A : Type} (l : list A) : (len l =? 0) = true ↔ l = [].
Proof.
  unfold len. rewrite Z.eqb_eq. destruct l; simpl; split; intros; try done; lia.
Qed.

Section FleetFacts.
Context (E : Env).

Lemma collectHealthy_foldl (r : Ring) (op : Op.Operation) (L : Z)
    (l : list (string * InstanceDesc)) (acc : list InstanceDesc) :
  foldl (collectHealthy E r op L) acc l
  = acc ++ filter (fun i => IsHealthy E r i op L = true) l.*2.
Proof.
  revert acc. induction l as [|[k i] l IH]; intros acc; simpl.
  - by rewrite app_nil_r.
  - rewrite IH. unfold collectHealthy. simpl. rewrite filter_cons.
    case_decide as Hh.
    + rewrite Hh. by rewrite <- app_assoc.
    + apply not_true_is_false in Hh. by rewrite Hh.
Qed.

Lemma partitionHealthy_foldl (r : Ring) (op : Op.Operation) (L : Z)
    (l : list (string * InstanceDesc)) (st : list InstanceDesc * gset string) :
  foldl (partitionHealthy E r op L) st l
  = (st.1 ++ filter (fun i => IsHealthy E r i op L = true) l.*2,
     list_to_set (Zone <$> filter (fun i => IsHealthy E r i op L ≠ true) l.*2) ∪ st.2).
Proof.
  revert st. induction l as [|[k i] l IH]; intros [hs zs]; simpl.
  - rewrite app_nil_r. f_equal. by rewrite (left_id_L ∅ (∪)).
  - rewrite IH. unfold partitionHealthy. simpl. rewrite !filter_cons.
    destruct (IsHealthy E r i op L) eqn:Hh; simpl.
    + by rewrite <- app_assoc.
    + f_equal. set_solver.
Qed.

(** The zones of the unhealthy instances, as the first loop of
    GetReplicationSetForOperation gathers them. *)
Lemma zoneFailures_spec (r : Ring) (op : Op.Operation) (L : Z) (d : Desc) (z : string) :
  z ∈ (foldl (partitionHealthy E r op L) ([], ∅) (map_to_list (Ingesters d))).2
  ↔ ∃ id i, Ingesters d !! id = Some i ∧ Zone i = z ∧ IsHealthy E r i op L = false.
Proof.
  rewrite partitionHealthy_foldl. simpl.
  rewrite elem_of_union, elem_of_list_to_set, list_elem_of_fmap. split.
  - intros [(i & -> & Hi)|Hemp]; [|set_solver].
    apply list_elem_of_filter in Hi as [Hh Hi].
    apply list_elem_of_fmap in Hi as ([id i'] & -> & Hin).
    apply elem_of_map_to_list in Hin. exists id, i'. simpl in *.
    split_and!; [done..|]. by destruct (IsHealthy E r i' op L).
  - intros (id & i & Hl & <- & Hh). left. exists i. split; [done|].
    apply list_elem_of_filter. split; [congruence|].
    apply list_elem_of_fmap. exists (id, i). split; [done|].
    by apply elem_of_map_to_list.
Qed.

End FleetFacts.

Section FleetClaims.
Context (E : Env).

Lemma healthy_count (r : Ring) (op : Op.Operation) (d : Desc) :
  len (filter (fun i => IsHealthy E r i op (LastUpdateTime E) = true)
         (map_to_list (Ingesters d)).*2)
  = map_len (healthyIngesters E r op d).
Proof.
  unfold len, map_len. f_equal.
  rewrite (Permutation_length (filter_values _ (Ingesters d))).
  by rewrite length_fmap, length_map_to_list.
Qed.

(** C10.  GetAllHealthy never fails with TooManyUnhealthy.  It returns
    EmptyRing exactly when the descriptor is nil or holds no instance.  On
    a descriptor with at least one instance it succeeds with MaxErrors = 0
    and returns exactly the instances that pass the health check for the
    operation (each once, in some order), also when none passes it. *)
Theorem GetAllHealthy_spec (r : Ring) (op : Op.Operation) :
  GetAllHealthy E r op ≠ Err ErrTooManyUnhealthyInstances
  ∧ (GetAllHealthy E r op = Err ErrEmptyRing
     ↔ ringDesc r = None ∨ ∃ d, ringDesc r = Some d ∧ Ingesters d = ∅)
  ∧ (∀ d, ringDesc r = Some d → Ingesters d ≠ ∅ →
       ∃ rs, GetAllHealthy E r op = Ok rs
             ∧ MaxErrors rs = 0
             ∧ Instances rs ≡ₚ (map_to_list (healthyIngesters E r op d)).*2).
Proof.
  unfold GetAllHealthy. destruct (ringDesc r) as [d|] eqn:Hd.
  - destruct (map_len (Ingesters d) =? 0) eqn:Hz.
    + apply map_len_zero in Hz. split_and!; [done| |].
      * split; [|done]. intros _. right. by exists d.
      * intros d' [= <-] Hne. done.
    + assert (Ingesters d ≠ ∅) as Hne.
      { intros Hemp. apply map_len_zero in Hemp. congruence. }
      split_and!; [done| |].
      * split; [done|]. intros [?|(d' & [= <-] & ?)]; done.
      * intros d' [= <-] _. eexists. split_and!; [done..|]. simpl.
        rewrite collectHealthy_foldl. simpl. apply filter_values.
  - split_and!; [done| |].
    + split; [|done]. intros _. by left.
    + intros d' [=].
Qed.

(** C5.  Zone-awareness disabled, descriptor present and tokens in the
    ring: with [required = max(|ingesters|, RF) - RF/2], the call fails with
    TooManyUnhealthy exactly when fewer than [required] instances are healthy
    for the operation; otherwise it returns the healthy instances with
    [max_errors = |healthy| - required] and [max_unavailable_zones = 0]. *)
Theorem GetReplicationSetForOperation_zone_unaware
    (r : Ring) (op : Op.Operation) (d : Desc) :
  ZoneAwarenessEnabled (cfg r) = false →
  ringDesc r = Some d →
  ringTokens r ≠ [] →
  let RF := ReplicationFactor (cfg r) in
  let required := Z.max (map_len (Ingesters d)) RF - Z.quot RF 2 in
  let healthy := healthyIngesters E r op d in
  (GetReplicationSetForOperation E r op = Err ErrTooManyUnhealthyInstances
   ↔ map_len healthy < required)
  ∧ (required ≤ map_len healthy →
     ∃ rs, GetReplicationSetForOperation E r op = Ok rs
           ∧ Instances rs ≡ₚ (map_to_list healthy).*2
           ∧ MaxErrors rs = map_len healthy - required
           ∧ MaxUnavailableZones rs = 0).
Proof.
  intros Hza Hd Htok RF required healthy.
  unfold GetReplicationSetForOperation. rewrite Hd, Hza.
  destruct (len (ringTokens r) =? 0) eqn:Hz; [by apply len_zero in Hz|].
  rewrite partitionHealthy_foldl. simpl. rewrite healthy_count.
  fold RF healthy.
  assert ((if map_len (Ingesters d) <? RF then RF else map_len (Ingesters d))
            - Z.quot RF 2 = required) as ->.
  { unfold required. destruct (Z.ltb_spec (map_len (Ingesters d)) RF); lia. }
  destruct (Z.ltb_spec (map_len healthy) required) as [Hlt|Hge].
  - split; [done|]. lia.
  - split; [split; [done|lia]|]. intros _. eexists. split_and!; [done| |done..].
    simpl. apply filter_values.
Qed.

(** C1.  Zone-awareness enabled, descriptor present and tokens in the
    ring.  Let [failedZones] be the zones that hold at least one instance
    unhealthy for the operation, [numReplicatedZones = min(|ringZones|, RF)],
    [minSuccessZones = numReplicatedZones/2 + 1] and
    [maxUnavailableZones = minSuccessZones - 1].  The call fails with
    TooManyUnhealthy exactly when [|failedZones| > maxUnavailableZones];
    otherwise it returns the healthy instances whose zone is not a failed
    zone, with [max_errors = 0] and
    [max_unavailable_zones = maxUnavailableZones - |failedZones|]. *)
Theorem GetReplicationSetForOperation_zone_aware
    (r : Ring) (op : Op.Operation) (d : Desc) :
  ZoneAwarenessEnabled (cfg r) = true →
  ringDesc r = Some d →
  ringTokens r ≠ [] →
  ∃ failedZones : gset string,
    (∀ z, z ∈ failedZones
          ↔ ∃ id i, Ingesters d !! id = Some i ∧ Zone i = z
                    ∧ IsHealthy E r i op (LastUpdateTime E) = false)
    ∧
    let numReplicatedZones := Z.min (len (ringZones r)) (ReplicationFactor (cfg r)) in
    let minSuccessZones := Z.quot numReplicatedZones 2 + 1 in
    let maxUnavailableZones := minSuccessZones - 1 in
    (GetReplicationSetForOperation E r op = Err ErrTooManyUnhealthyInstances
     ↔ maxUnavailableZones < set_len failedZones)
    ∧ (set_len failedZones ≤ maxUnavailableZones →
       ∃ rs, GetReplicationSetForOperation E r op = Ok rs
             ∧ Instances rs
               ≡ₚ (map_to_list
                     (filter (fun kv : string * InstanceDesc =>
                                IsHealthy E r kv.2 op (LastUpdateTime E) = true
                                ∧ Zone kv.2 ∉ failedZones) (Ingesters d))).*2
             ∧ MaxErrors rs = 0
             ∧ MaxUnavailableZones rs = maxUnavailableZones - set_len failedZones).
Proof.
  intros Hza Hd Htok.
  set (st := foldl (partitionHealthy E r op (LastUpdateTime E)) ([], ∅)
               (map_to_list (Ingesters d))).
  exists st.2. split; [apply zoneFailures_spec|].
  intros numReplicatedZones minSuccessZones maxUnavailableZones.
  unfold GetReplicationSetForOperation. rewrite Hd, Hza.
  destruct (len (ringTokens r) =? 0) eqn:Hz; [by apply len_zero in Hz|].
  fold st. fold numReplicatedZones. fold minSuccessZones. fold maxUnavailableZones.
  destruct (Z.ltb_spec maxUnavailableZones (set_len st.2)) as [Hlt|Hge].
  - split; [done|lia].
  - split; [split; [done|lia]|]. intros _. eexists. split_and!; [done| |done..].
    simpl.
    assert (st.1 = filter (fun i => IsHealthy E r i op (LastUpdateTime E) = true)
                     (map_to_list (Ingesters d)).*2) as Hst1.
    { unfold st. by rewrite partitionHealthy_foldl. }
    assert (filter (fun i => Zone i ∉ st.2) st.1
            ≡ₚ (map_to_list
                  (filter (fun kv : string * InstanceDesc =>
                             IsHealthy E r kv.2 op (LastUpdateTime E) = true
                             ∧ Zone kv.2 ∉ st.2) (Ingesters d))).*2) as Hperm.
    { rewrite Hst1, list_filter_filter.
      rewrite (list_filter_iff _
        (fun i => IsHealthy E r i op (LastUpdateTime E) = true ∧ Zone i ∉ st.2))
        by tauto.
      apply filter_values. }
    destruct (Z.ltb_spec 0 (set_len st.2)) as [Hpos|Hzero]; [done|].
    rewrite <- Hperm.
    assert (st.2 = ∅) as ->.
    { apply leibniz_equiv, size_empty_iff. unfold set_len in Hzero. lia. }
    clear. induction st.1 as [|i l IH]; [done|].
    rewrite filter_cons_True by set_solver. by f_equiv.
Qed.

End FleetClaims.

(** ** AutoForgetFromRing *)

Section AutoForgetFacts.
Context (E : Env).

Lemma autoForgetStep_foldl_lookup (fp : Z) (l : list (string * InstanceDesc))
    (d : Desc) (id : string) :
  Ingesters (foldl (autoForgetStep E fp) d l) !! id
  = if decide (id ∈ (filter (fun kv => forgotten E fp kv.2) l).*1)
    then None else Ingesters d !! id.
Proof.
  revert d. induction l as [|[k i] l IH]; intros d; simpl.
  - done.
  - rewrite IH. unfold autoForgetStep. simpl.
    rewrite filter_cons. simpl.
    destruct (Z.ltb_spec fp (time_Since E (time_Unix (Timestamp i)))) as [Hs|Hs].
    + rewrite (decide_True (P := forgotten E fp i)) by done. simpl.
      destruct (decide (id = k)) as [->|Hne].
      * rewrite (decide_True (P := k ∈ k :: _)) by apply list_elem_of_here.
        case_decide; [done|]. simpl. apply lookup_delete_eq.
      * simpl. rewrite lookup_delete_ne by done.
        repeat case_decide; try done; set_solver.
    + rewrite (decide_False (P := forgotten E fp i)) by (unfold forgotten; lia).
      done.
Qed.

Lemma AutoForgetFromRing_filter (d : Desc) (fp : Z) :
  Ingesters (AutoForgetFromRing E d fp)
  = filter (fun kv => ¬ forgotten E fp kv.2) (Ingesters d).
Proof.
  apply map_eq. intros id. unfold AutoForgetFromRing.
  rewrite autoForgetStep_foldl_lookup. apply option_eq. intros i.
  rewrite map_lookup_filter_Some. simpl. case_decide as Hin.
  - split; [done|]. intros [Hl Hn]. exfalso. apply Hn.
    apply list_elem_of_fmap in Hin as ([k j] & -> & Hin).
    apply list_elem_of_filter in Hin as [Hf Hin].
    apply elem_of_map_to_list in Hin. simpl in *. congruence.
  - split; [|tauto]. intros Hl. split; [done|]. intros Hf. apply Hin.
    apply list_elem_of_fmap. exists (id, i). split; [done|].
    apply list_elem_of_filter. split; [done|]. by apply elem_of_map_to_list.
Qed.

(** Below the largest Duration the test reads as the specification puts
    it: the heartbeat lies before [now - forgetPeriod]. *)
Lemma forgotten_before (fp : Z) (i : InstanceDesc) :
  minDuration ≤ fp < maxDuration →
  forgotten E fp i ↔ time_Unix (Timestamp i) < now E - fp.
Proof.
  unfold forgotten, time_Since, time_Sub, maxDuration, minDuration.
  change (2 ^ 63) with 9223372036854775808. lia.
Qed.

(** C9.  For a fixed evaluation time and forget period, AutoForgetFromRing
    leaves in the descriptor exactly the instances whose last heartbeat is
    not older than the forget period, and a second run gives the descriptor
    the first run gave: nothing further is removed.  The age of a heartbeat
    is Go's [time.Since], a Duration; for every forget period that is a
    Duration below the largest one, "older than the forget period" is
    "before [now - forgetPeriod]". *)
Theorem AutoForgetFromRing_idempotent (ringDesc : Desc) (forgetPeriod : Z) :
  AutoForgetFromRing E (AutoForgetFromRing E ringDesc forgetPeriod) forgetPeriod
  = AutoForgetFromRing E ringDesc forgetPeriod
  ∧ (∀ id i, Ingesters (AutoForgetFromRing E ringDesc forgetPeriod) !! id = Some i
             ↔ Ingesters ringDesc !! id = Some i
               ∧ ¬ forgetPeriod < time_Since E (time_Unix (Timestamp i)))
  ∧ (minDuration ≤ forgetPeriod < maxDuration →
     ∀ id i, Ingesters ringDesc !! id = Some i →
       (Ingesters (AutoForgetFromRing E ringDesc forgetPeriod) !! id = None
        ↔ time_Unix (Timestamp i) < now E - forgetPeriod)).
Proof.
  split_and!.
  - destruct (AutoForgetFromRing E (AutoForgetFromRing E ringDesc forgetPeriod)
                forgetPeriod) as [m2] eqn:H2.
    destruct (AutoForgetFromRing E ringDesc forgetPeriod) as [m1] eqn:H1.
    f_equal.
    pose proof (AutoForgetFromRing_filter {| Ingesters := m1 |} forgetPeriod) as Hf2.
    pose proof (AutoForgetFromRing_filter ringDesc forgetPeriod) as Hf1.
    rewrite H2 in Hf2. rewrite H1 in Hf1. simpl in *. subst m2 m1.
    apply map_eq. intros id. apply option_eq. intros i.
    rewrite !map_lookup_filter_Some. tauto.
  - intros id i. rewrite AutoForgetFromRing_filter, map_lookup_filter_Some. done.
  - intros Hfp id i Hl. rewrite AutoForgetFromRing_filter.
    rewrite <- forgotten_before by done.
    rewrite map_lookup_filter_None. simpl. split.
    + intros [Hn|Hall]; [congruence|]. specialize (Hall i Hl).
      by destruct (decide (forgotten E forgetPeriod i)).
    + intros Hf. right. intros j Hj. assert (j = i) as -> by congruence. tauto.
Qed.

End AutoForgetFacts.

(** ** The subring cache *)

Lemma patchInstance_foldl_lookup (parent : gmap string InstanceDesc)
    (l : list (string * InstanceDesc)) (m : gmap string InstanceDesc) (name : string) :
  NoDup l.*1 →
  foldl (patchInstance parent) m l !! name
  = match (list_to_map l : gmap string InstanceDesc) !! name with
    | Some c => Some (patchedInstance parent name c)
    | None => m !! name
    end.
Proof.
  revert m. induction l as [|[k c] l IH]; intros m Hnd; simpl.
  - by rewrite lookup_empty.
  - apply NoDup_cons in Hnd as [Hk Hnd]. rewrite IH by done.
    unfold patchInstance. simpl. fold (patchedInstance parent k c).
    destruct (decide (name = k)) as [->|Hne].
    + rewrite (not_elem_of_list_to_map_1 _ _ Hk).
      by rewrite !lookup_insert_eq.
    + rewrite !(lookup_insert_ne _ k name) by done. done.
Qed.

Lemma patch_lookup (parent m : gmap string InstanceDesc) (name : string) :
  foldl (patchInstance parent) m (map_to_list m) !! name
  = patchedInstance parent name <$> m !! name.
Proof.
  rewrite patchInstance_foldl_lookup by apply NoDup_fst_map_to_list.
  rewrite list_to_map_to_list. by destruct (m !! name).
Qed.

Section CacheFacts.
Context (E : Env).

Lemma getCachedShuffledSubring_hit (r : Ring) (identifier : string) (size : Z)
    (zoneStableSharding : bool) (cache : gmap subringCacheKey Ring)
    (cached : Ring) (cd d : Desc) :
  let key := {| identifier := identifier; shardSize := size;
                zoneStableSharding := zoneStableSharding |} in
  SubringCacheDisabled (cfg r) = false →
  shuffledSubringCache r = Some cache →
  cache !! key = Some cached →
  ringDesc cached = Some cd →
  ringDesc r = Some d →
  ∃ r' sub,
    getCachedShuffledSubring r identifier size zoneStableSharding = Ok (r', Some sub)
    ∧ patched_from (Ingesters d) cached sub
    ∧ shuffledSubringCache r' = Some (<[key := sub]> cache)
    ∧ ringDesc r' = ringDesc r.
Proof.
  intros key Hen Hc Hk Hcd Hd. unfold getCachedShuffledSubring.
  rewrite Hen, Hc. fold key. rewrite Hk, Hcd, Hd.
  eexists _, _. split; [done|]. split; [|done].
  unfold patched_from. simpl. split_and!; try done.
  exists cd, {| Ingesters := foldl (patchInstance (Ingesters d)) (Ingesters cd)
                               (map_to_list (Ingesters cd)) |}.
  simpl. split_and!; try done.
  - apply set_eq. intros name. rewrite !elem_of_dom, patch_lookup.
    by rewrite fmap_is_Some.
  - intros name. apply patch_lookup.
  - intros name c' ing Hl Hp. rewrite patch_lookup in Hl.
    destruct (Ingesters cd !! name) as [c|]; [|done]. simpl in Hl.
    injection Hl as <-. simpl. unfold index_or_zero. by rewrite Hp.
Qed.

Lemma updateRingState_states_only (r : Ring) (newDesc : Desc) :
  RingCompare E (ringDesc r) (filterExcludedZones r newDesc) = EqualButStatesAndTimestamps →
  updateRingState E r newDesc = with_ringDesc r (Some (filterExcludedZones r newDesc)).
Proof. intros Hrc. unfold updateRingState. by rewrite Hrc. Qed.

(** C7.  A hit of the subring cache returns the cached subring with, for
    every instance it holds, the state and the heartbeat timestamp the
    parent's current descriptor has under that name; the set of instances,
    their ids, addresses, tokens, zones and registration times, and the
    token views, zones and configuration of the subring are as they were
    cached, and the cache then holds the patched subring.  Hence, after an
    update that RingCompare classifies as EqualButStatesAndTimestamps, the
    cached subring that is returned carries the state and the heartbeat of
    the updated descriptor for every instance it contains. *)
Theorem cached_subring_patched (r : Ring) (identifier : string) (size : Z)
    (zoneStableSharding : bool) (cache : gmap subringCacheKey Ring)
    (cached : Ring) (cd : Desc) :
  let key := {| identifier := identifier; shardSize := size;
                zoneStableSharding := zoneStableSharding |} in
  SubringCacheDisabled (cfg r) = false →
  shuffledSubringCache r = Some cache →
  cache !! key = Some cached →
  ringDesc cached = Some cd →
  (∀ d, ringDesc r = Some d →
     ∃ r' sub,
       getCachedShuffledSubring r identifier size zoneStableSharding = Ok (r', Some sub)
       ∧ patched_from (Ingesters d) cached sub
       ∧ shuffledSubringCache r' = Some (<[key := sub]> cache))
  ∧ (∀ newDesc,
       RingCompare E (ringDesc r) (filterExcludedZones r newDesc)
         = EqualButStatesAndTimestamps →
       ∃ r' sub,
         getCachedShuffledSubring (updateRingState E r newDesc)
           identifier size zoneStableSharding = Ok (r', Some sub)
         ∧ patched_from (Ingesters (filterExcludedZones r newDesc)) cached sub
         ∧ shuffledSubringCache r' = Some (<[key := sub]> cache)).
Proof.
  intros key Hen Hc Hk Hcd. split.
  - intros d Hd.
    destruct (getCachedShuffledSubring_hit r identifier size zoneStableSharding
                cache cached cd d Hen Hc Hk Hcd Hd) as (r' & sub & ? & ? & ? & _).
    by exists r', sub.
  - intros newDesc Hrc. rewrite updateRingState_states_only by done.
    destruct (getCachedShuffledSubring_hit
                (with_ringDesc r (Some (filterExcludedZones r newDesc)))
                identifier size zoneStableSharding
                cache cached cd (filterExcludedZones r newDesc))
      as (r' & sub & ? & ? & ? & _); try done.
    by exists r', sub.
Qed.

End CacheFacts.

(** ** Get *)

Lemma ownerOk_spec (d : Desc) (info : instanceInfo) :
  ownerOk d info = true →
  Id (index_or_zero (Ingesters d) (InstanceID info)) = InstanceID info
  ∧ Zone (index_or_zero (Ingesters d) (InstanceID info)) = InfoZone info.
Proof.
  unfold ownerOk, index_or_zero. destruct (Ingesters d !! InstanceID info); [|done].
  simpl. rewrite andb_true_iff, !bool_decide_eq_true. done.
Qed.

Lemma tokens_consistent_owner (r : Ring) (d : Desc) (tokens : list Z) (t : Z)
    (info : instanceInfo) :
  tokens_consistent r d tokens →
  t ∈ tokens →
  ringInstanceByToken r !! t = Some info →
  ownerOk d info = true.
Proof.
  intros Hall Ht Hi. unfold tokens_consistent in Hall. rewrite Forall_forall in Hall.
  specialize (Hall t Ht). unfold tokenOk in Hall. by rewrite Hi in Hall.
Qed.

Section GetFacts.
Context (r : Ring) (d : Desc) (op : Op.Operation) (maxInstancePerZone : Z).

Lemma StringsContain_spec (l : list string) (x : string) :
  StringsContain l x = true ↔ x ∈ l.
Proof. unfold StringsContain. apply bool_decide_eq_true. Qed.

Lemma Get_visit_cases (i : nat) (st st' : getState) :
  Get_visit r d op maxInstancePerZone i st = Ok st' →
  st' = st
  ∨ ∃ token info,
      ringTokens r !! i = Some token
      ∧ ringInstanceByToken r !! token = Some info
      ∧ (InstanceID info ∉ distinctHosts st)
      ∧ (zoneChecked r info = true →
         (zoneCount (numOfInstanceByZone st) (InfoZone info)
          < (if 0 <? zonesWithExtraInstance st
             then maxInstancePerZone + 1 else maxInstancePerZone)))
      ∧ st' = Get_select r d op maxInstancePerZone info st.
Proof.
  unfold Get_visit. destruct (ringTokens r !! i) as [token|] eqn:Htok; [|done].
  destruct (ringInstanceByToken r !! token) as [info|] eqn:Hinfo; [|done].
  destruct (StringsContain (distinctHosts st) (InstanceID info)) eqn:Hc.
  { intros [= <-]. by left. }
  destruct (zoneChecked r info) eqn:Hzc; simpl.
  - match goal with |- context [?a <=? ?b] => destruct (Z.leb_spec a b) as [Hle|Hlt] end.
    { intros [= <-]. by left. }
    intros [= <-]. right. exists token, info. split_and!; try done.
    intros Hin. apply StringsContain_spec in Hin. congruence.
  - intros [= <-]. right. exists token, info. split_and!; try done.
    + intros Hin. apply StringsContain_spec in Hin. congruence.
    + congruence.
Qed.

(** An invariant of the visits is an invariant of the loop. *)
Lemma Get_loop_invariant (P : getState → Prop) :
  (∀ i st st', P st → Get_visit r d op maxInstancePerZone i st = Ok st' → P st') →
  ∀ todo i st st',
    P st → Get_loop r d op maxInstancePerZone todo i st = Ok st' → P st'.
Proof.
  intros Hstep todo. induction todo as [|todo IH]; intros i st st' HP; simpl.
  - by intros [= <-].
  - destruct (len (distinctHosts st) <? replicationFactor st); [|by intros [= <-]].
    destruct (Get_visit r d op maxInstancePerZone (i mod length (ringTokens r)) st)
      as [st1| |] eqn:Hv; simpl; [|done..].
    intros Hl. eapply IH; [|exact Hl]. eapply Hstep; [exact HP|exact Hv].
Qed.

Lemma countZone_frame (zone : string) (st : getState) :
  replicationFactor (countZone maxInstancePerZone zone st) = replicationFactor st
  ∧ instances (countZone maxInstancePerZone zone st) = instances st
  ∧ distinctHosts (countZone maxInstancePerZone zone st) = distinctHosts st.
Proof.
  unfold countZone. destruct (numOfInstanceByZone st !! zone) as [n|]; [|done].
  by destruct (n <? maxInstancePerZone).
Qed.

Lemma Get_select_hosts (info : instanceInfo) (st : getState) :
  distinctHosts (Get_select r d op maxInstancePerZone info st)
  = distinctHosts st ++ [InstanceID info].
Proof.
  unfold Get_select. simpl.
  destruct (Op.ShouldExtendReplicaSetOnState _ _ _); [done|].
  destruct (zoneChecked r info); [|done].
  by rewrite (proj2 (proj2 (countZone_frame _ _))).
Qed.

Lemma Get_select_instances (info : instanceInfo) (st : getState) :
  instances (Get_select r d op maxInstancePerZone info st)
  = instances st ++ [index_or_zero (Ingesters d) (InstanceID info)].
Proof. done. Qed.

Lemma hostsInv_visit (i : nat) (st st' : getState) :
  hostsInv r d st → Get_visit r d op maxInstancePerZone i st = Ok st' → hostsInv r d st'.
Proof.
  intros (Hnd & Hinst & Hown) Hv.
  apply Get_visit_cases in Hv as [->|(token & info & Htok & Hinfo & Hnew & _ & ->)]; [done|].
  apply list_elem_of_lookup_2 in Htok.
  unfold hostsInv. rewrite Get_select_hosts, Get_select_instances. split_and!.
  - apply NoDup_app. split_and!; [done| |apply NoDup_singleton].
    intros x Hx Hx'. apply list_elem_of_singleton in Hx'. by subst x.
  - by rewrite fmap_app, Hinst.
  - apply Forall_app. split; [done|]. apply Forall_singleton. by exists token, info.
Qed.

End GetFacts.

Section ZoneQuota.
Context (r : Ring) (d : Desc) (op : Op.Operation).
Context (maxInstancePerZone zonesWithExtra0 : Z).
Hypothesis zone_aware : ZoneAwarenessEnabled (cfg r) = true.
Hypothesis consistent : infos_consistent r d.

Lemma zoneMembers_snoc (z : string) (l : list InstanceDesc) (i : InstanceDesc) :
  zoneMembers op z (l ++ [i])
  = zoneMembers op z l
    ++ (if decide (Zone i = z
                   ∧ Op.ShouldExtendReplicaSetOnState Op.state_code op (State i) = false)
        then [i] else []).
Proof. unfold zoneMembers. by rewrite filter_app. Qed.

Lemma countZone_count (zone : string) (st : getState) :
  numOfInstanceByZone (countZone maxInstancePerZone zone st)
  = <[zone := zoneCount (numOfInstanceByZone st) zone + 1]> (numOfInstanceByZone st)
  ∧ zonesWithExtraInstance (countZone maxInstancePerZone zone st)
    ≤ zonesWithExtraInstance st.
Proof.
  unfold countZone, zoneCount.
  destruct (numOfInstanceByZone st !! zone) as [n|]; simpl; [|split; [done|lia]].
  destruct (n <? maxInstancePerZone); simpl; split; (done || lia).
Qed.

Lemma zoneCount_insert (m : gmap string Z) (zone z : string) (n : Z) :
  zoneCount (<[zone := n]> m) z = if decide (zone = z) then n else zoneCount m z.
Proof.
  unfold zoneCount. rewrite lookup_insert. by destruct (decide (zone = z)).
Qed.

Lemma zoneChecked_spec (info : instanceInfo) :
  zoneChecked r info = true ↔ InfoZone info ≠ "".
Proof.
  unfold zoneChecked. rewrite zone_aware. simpl. rewrite negb_true_iff.
  destruct (String.eqb_spec (InfoZone info) ""); split; congruence.
Qed.

Lemma zoneInv_visit (i : nat) (st st' : getState) :
  zoneInv op maxInstancePerZone zonesWithExtra0 st →
  Get_visit r d op maxInstancePerZone i st = Ok st' →
  zoneInv op maxInstancePerZone zonesWithExtra0 st'.
Proof.
  intros (Hcount & Hbound & Hextra) Hv.
  apply Get_visit_cases in Hv as [->|(token & info & Htok & Hinfo & _ & Hroom & ->)]; [done|].
  apply list_elem_of_lookup_2 in Htok.
  destruct (ownerOk_spec d info
              (tokens_consistent_owner r d _ token info consistent Htok Hinfo))
    as [_ Hzone].
  set (inst := index_or_zero (Ingesters d) (InstanceID info)) in *.
  unfold zoneInv, Get_select. fold inst. simpl.
  destruct (Op.ShouldExtendReplicaSetOnState Op.state_code op (State inst)) eqn:Hext; simpl.
  { split_and!; [|done..]. intros z Hz. rewrite zoneMembers_snoc, Hext.
    rewrite decide_False by (intros [_ ?]; done). rewrite app_nil_r. by apply Hcount. }
  destruct (zoneChecked r info) eqn:Hzc; simpl.
  - specialize (Hroom eq_refl). apply zoneChecked_spec in Hzc.
    match goal with |- context [countZone ?m ?z ?s] =>
      destruct (countZone_count z s) as [-> Hx]; simpl in * end.
    split_and!.
    + intros z Hz. rewrite zoneCount_insert, zoneMembers_snoc, Hext, Hzone.
      destruct (decide (InfoZone info = z)) as [<-|Hne].
      * rewrite decide_True by done. rewrite Hcount by done.
        unfold len. rewrite length_app. simpl. lia.
      * rewrite decide_False by (intros [? _]; done). rewrite app_nil_r. by apply Hcount.
    + intros z Hz. rewrite zoneCount_insert.
      destruct (decide (InfoZone info = z)) as [<-|Hne]; [|by apply Hbound].
      destruct (0 <? zonesWithExtraInstance st) eqn:Hpos.
      * apply Z.ltb_lt in Hpos. destruct (Z.ltb_spec 0 zonesWithExtra0); lia.
      * destruct (0 <? zonesWithExtra0); lia.
    + lia.
  - assert (InfoZone info = "") as Hempty.
    { destruct (decide (InfoZone info = "")) as [|Hne]; [done|].
      apply zoneChecked_spec in Hne. congruence. }
    split_and!; [|done..]. intros z Hz. rewrite zoneMembers_snoc, Hzone, Hempty.
    rewrite decide_False by (intros [? _]; done). rewrite app_nil_r. by apply Hcount.
Qed.

End ZoneQuota.

Lemma ceil_div_quot_rem (a b : Z) :
  0 < a → 0 < b →
  Z.quot a b + (if 0 <? Z.rem a b then 1 else 0) = ceil_div a b.
Proof.
  intros Ha Hb. unfold ceil_div.
  rewrite Z.quot_div_nonneg, Z.rem_mod_nonneg by lia.
  pose proof (Z.div_mod a b ltac:(lia)) as Hdm.
  pose proof (Z.mod_pos_bound a b Hb) as Hm.
  destruct (Z.ltb_spec 0 (a `mod` b)) as [Hpos|Hzero].
  - apply (Z.div_unique _ _ _ (a `mod` b - 1)); lia.
  - rewrite Z.add_0_r. apply (Z.div_unique _ _ _ (b - 1)); lia.
Qed.

(** The quota of Get, for any number of zones: a non-empty zone holds at
    most [ceil(RF / |zones|)] candidates that did not extend the replica
    set. *)
Lemma Get_zone_quota (r : Ring) (d : Desc) (key : Z) (op : Op.Operation) (st : getState) :
  ZoneAwarenessEnabled (cfg r) = true →
  0 < ReplicationFactor (cfg r) →
  ringDesc r = Some d →
  infos_consistent r d →
  Get_candidates r key op = Ok st →
  ∀ z, z ≠ "" →
    len (zoneMembers op z (instances st))
    ≤ ceil_div (ReplicationFactor (cfg r)) (len (ringZones r)).
Proof.
  intros Hza Hrf Hd Hcons. unfold Get_candidates. rewrite Hd.
  destruct (len (ringTokens r) =? 0); [done|].
  unfold go_div, go_rem.
  destruct (Z.eqb_spec (len (ringZones r)) 0) as [|Hn]; [done|]. simpl.
  intros Hl z Hz.
  assert (0 < len (ringZones r)) as Hpos by (unfold len in *; lia).
  rewrite <- ceil_div_quot_rem by done.
  set (m := Z.quot (ReplicationFactor (cfg r)) (len (ringZones r))) in *.
  set (x := Z.rem (ReplicationFactor (cfg r)) (len (ringZones r))) in *.
  assert (zoneInv op m x st) as (Hcount & Hbound & _).
  { eapply (Get_loop_invariant r d op m (zoneInv op m x)); [| |exact Hl].
    - intros i s s'. by apply zoneInv_visit.
    - unfold zoneInv. simpl. split_and!.
      + intros z' _. done.
      + intros z' _. unfold zoneCount. rewrite lookup_empty. simpl.
        pose proof (Z.quot_pos (ReplicationFactor (cfg r)) (len (ringZones r))
                      ltac:(lia) ltac:(lia)).
        fold m in H. destruct (0 <? x); lia.
      + lia. }
  rewrite <- Hcount by done. by apply Hbound.
Qed.

(** C3, amended.  With zone-awareness enabled, a replication factor of at
    least 1 and at least as many zones as the replication factor, on a ring
    whose token map agrees with its descriptor: for every key and operation,
    every zone with a non-empty name holds at most [ceil(RF / |zones|)] of
    the candidates Get collected that did not extend the replica set; when
    no candidate extended it, these are all the candidates of the zone.
    Instances without a zone are not subject to the quota. *)
Theorem Get_zone_balance (r : Ring) (d : Desc) (key : Z) (op : Op.Operation)
    (st : getState) :
  ZoneAwarenessEnabled (cfg r) = true →
  0 < ReplicationFactor (cfg r) →
  ReplicationFactor (cfg r) ≤ len (ringZones r) →
  ringDesc r = Some d →
  infos_consistent r d →
  Get_candidates r key op = Ok st →
  (∀ z, z ≠ "" →
     len (zoneMembers op z (instances st))
     ≤ ceil_div (ReplicationFactor (cfg r)) (len (ringZones r)))
  ∧ (Forall (fun i => Op.ShouldExtendReplicaSetOnState Op.state_code op (State i) = false)
       (instances st) →
     ∀ z, z ≠ "" →
       len (filter (fun i => Zone i = z) (instances st))
       ≤ ceil_div (ReplicationFactor (cfg r)) (len (ringZones r))).
Proof.
  intros Hza Hrf _ Hd Hcons Hget.
  pose proof (Get_zone_quota r d key op st Hza Hrf Hd Hcons Hget) as Hq.
  split; [exact Hq|]. intros Hall z Hz.
  assert (filter (fun i => Zone i = z) (instances st) = zoneMembers op z (instances st))
    as ->; [|by apply Hq].
  unfold zoneMembers. clear -Hall. induction Hall as [|i l Hi Hall IH]; [done|].
  rewrite !filter_cons, IH. destruct (decide (Zone i = z)) as [Hz|Hz].
  - by rewrite decide_True.
  - rewrite decide_False; [done|]. by intros [? _].
Qed.

Section GetClaims.
Context (E : Env).

Lemma Get_candidates_hostsInv (r : Ring) (key : Z) (op : Op.Operation) (st : getState) :
  Get_candidates r key op = Ok st →
  ∃ d, ringDesc r = Some d ∧ hostsInv r d st.
Proof.
  unfold Get_candidates. destruct (ringDesc r) as [d|]; [|done].
  destruct (len (ringTokens r) =? 0); [done|].
  destruct (go_div _ _) as [m| |]; simpl; [|done..].
  destruct (go_rem _ _) as [x| |]; simpl; [|done..].
  intros Hl. exists d. split; [done|].
  eapply (Get_loop_invariant r d op m (hostsInv r d)); [|  |exact Hl].
  - intros i s s'. apply hostsInv_visit.
  - unfold hostsInv. simpl. split_and!; [apply NoDup_nil_2|done|apply Forall_nil_2].
Qed.

(** C6.  The replication set Get returns holds the descriptor's entries of
    a duplicate-free list of instance ids, in that order; on a ring whose
    token map agrees with its descriptor these ids are the ids of the
    returned instances, so no instance id occurs twice and the returned
    instances are distinct. *)
Theorem Get_distinct (r : Ring) (key : Z) (op : Op.Operation) (rs : ReplicationSet) :
  Get E r key op = Ok rs →
  ∃ d hosts,
    ringDesc r = Some d
    ∧ NoDup hosts
    ∧ Instances rs = index_or_zero (Ingesters d) <$> hosts
    ∧ (infos_consistent r d →
       Id <$> Instances rs = hosts
       ∧ NoDup (Id <$> Instances rs)
       ∧ NoDup (Instances rs)).
Proof.
  unfold Get. destruct (Get_candidates r key op) as [st| |] eqn:Hc; simpl; [|done..].
  apply Get_candidates_hostsInv in Hc as (d & Hd & Hnd & Hinst & Hown).
  unfold Filter.
  match goal with |- context [len ?h <? ?m] => destruct (len h <? m) end; [done|].
  simpl. intros [= <-]. simpl.
  set (P := fun i => IsHealthy E r i op (LastUpdateTime E) = true).
  exists d, (filter (fun h => P (index_or_zero (Ingesters d) h)) (distinctHosts st)).
  split_and!; [done|by apply NoDup_filter|by rewrite Hinst, filter_fmap|].
  intros Hcons.
  assert (Id <$> filter P (instances st)
          = filter (fun h => P (index_or_zero (Ingesters d) h)) (distinctHosts st))
    as Hids.
  { rewrite Hinst, filter_fmap, <- list_fmap_compose.
    rewrite <- (list_fmap_id (filter _ (distinctHosts st))) at 2.
    apply list_fmap_ext. intros n h Hh. simpl.
    apply list_elem_of_lookup_2, list_elem_of_filter in Hh as [_ Hh].
    rewrite Forall_forall in Hown.
    destruct (Hown h Hh) as (token & info & Htok & Hi & <-).
    by apply ownerOk_spec, (tokens_consistent_owner r d _ token info Hcons). }
  assert (NoDup (Id <$> filter P (instances st))) as Hnd'.
  { rewrite Hids. by apply NoDup_filter. }
  split_and!; [done|done|]. by eapply NoDup_fmap_1.
Qed.

End GetClaims.

(** ** The selection walk of shuffle sharding *)

Section WalkFacts.
Context (r : Ring) (d : Desc) (lookbackPeriod now : Z) (tokens : list Z).
Hypothesis desc_present : ringDesc r = Some d.

Lemma walkOrder_S (p todo : nat) :
  walkOrder tokens p (S todo)
  = tokens !!! (p mod length tokens)%nat
    :: walkOrder tokens (S (p mod length tokens)) todo.
Proof.
  unfold walkOrder. simpl. rewrite Nat.add_0_r. f_equal.
  rewrite <- fmap_S_seq, <- list_fmap_compose. apply list_fmap_ext.
  intros i j _. simpl. f_equal.
  destruct (decide (length tokens = 0)%nat) as [Hz|Hnz].
  - rewrite Hz, !Nat.mod_0_r. lia.
  - pose proof (Nat.div_mod_eq p (length tokens)) as Hp.
    rewrite (Nat.mul_comm (length tokens)) in Hp.
    replace (p + S j)%nat
      with (S (p mod length tokens) + j + p / length tokens * length tokens)%nat
      by lia.
    by rewrite Nat.Div0.mod_add.
Qed.

(** The test of the code, with the bound [shuffleShard] computes from [now],
    is the condition of the specification. *)
Lemma keepsWalking_continues (instance : InstanceDesc) :
  keepsWalking lookbackPeriod (Unix_of (now - lookbackPeriod)) instance = true
  ↔ continues lookbackPeriod now instance.
Proof.
  unfold keepsWalking, continues.
  by rewrite orb_true_iff, andb_true_iff, Z.ltb_lt, Z.leb_le, bool_decide_eq_true.
Qed.

Lemma passes_insert (shard : gmap string InstanceDesc) (id : string) (t : Z) :
  continues lookbackPeriod now (index_or_zero (Ingesters d) id) →
  passes r d lookbackPeriod now (<[id := index_or_zero (Ingesters d) id]> shard) t →
  passes r d lookbackPeriod now shard t.
Proof.
  intros Hk (info & Hi & Hor). exists info. split; [done|].
  destruct Hor as [Hin|?]; [|by right].
  destruct (decide (id = InstanceID info)) as [->|Hne]; [by right|].
  left. by rewrite lookup_insert_ne in Hin.
Qed.

(** The walk, told through the tokens it meets. *)
Lemma shardWalk_trace (todo p : nat) (shard shard' : gmap string InstanceDesc)
    (found : bool) :
  shardWalk r lookbackPeriod (Unix_of (now - lookbackPeriod)) tokens todo p shard
    = Ok (shard', found) →
  ∃ visited rest,
    walkOrder tokens p todo = visited ++ rest
    ∧ shard' = foldl (addOwner r d) shard visited
    ∧ if found then
        ∃ pre t, visited = pre ++ [t]
                 ∧ Forall (passes r d lookbackPeriod now shard) pre
                 ∧ settles r d lookbackPeriod now (foldl (addOwner r d) shard pre) t
      else rest = []
           ∧ Forall (passes r d lookbackPeriod now shard) visited.
Proof.
  revert p shard. induction todo as [|todo IH]; intros p shard; simpl.
  { intros [= <- <-]. exists [], []. by split_and!. }
  rewrite walkOrder_S.
  destruct (tokens !! (p mod length tokens)%nat) as [token|] eqn:Htok; [|done].
  rewrite (list_lookup_total_correct _ _ _ Htok).
  destruct (ringInstanceByToken r !! token) as [info|] eqn:Hinfo; [|done].
  destruct (shard !! InstanceID info) as [present|] eqn:Hin.
  - intros Hw. destruct (IH _ _ Hw) as (visited & rest & Hord & Hsh & Hf).
    assert (addOwner r d shard token = shard) as Hadd.
    { unfold addOwner. by rewrite Hinfo, Hin. }
    assert (passes r d lookbackPeriod now shard token) as Hpass.
    { exists info. split; [done|]. left. by rewrite Hin. }
    exists (token :: visited), rest. split_and!.
    + by rewrite Hord.
    + simpl. by rewrite Hadd.
    + destruct found.
      * destruct Hf as (pre & t & -> & Hpre & Hset).
        exists (token :: pre), t. split_and!; [done|by constructor|].
        simpl. by rewrite Hadd.
      * destruct Hf as [-> Hall]. split; [done|]. by constructor.
  - rewrite desc_present.
    set (inst := index_or_zero (Ingesters d) (InstanceID info)).
    assert (addOwner r d shard token = <[InstanceID info := inst]> shard) as Hadd.
    { unfold addOwner. by rewrite Hinfo, Hin. }
    destruct (keepsWalking lookbackPeriod (Unix_of (now - lookbackPeriod)) inst) eqn:Hk.
    + apply keepsWalking_continues in Hk.
      intros Hw. destruct (IH _ _ Hw) as (visited & rest & Hord & Hsh & Hf).
      assert (passes r d lookbackPeriod now shard token) as Hpass.
      { exists info. split; [done|]. by right. }
      exists (token :: visited), rest. split_and!.
      * by rewrite Hord.
      * simpl. by rewrite Hadd.
      * destruct found.
        -- destruct Hf as (pre & t & -> & Hpre & Hset).
           exists (token :: pre), t. split_and!; [done| |].
           ++ constructor; [done|]. eapply Forall_impl; [exact Hpre|].
              intros u. by apply passes_insert.
           ++ simpl. by rewrite Hadd.
        -- destruct Hf as [-> Hall]. split; [done|]. constructor; [done|].
           eapply Forall_impl; [exact Hall|]. intros u. by apply passes_insert.
    + assert (¬ continues lookbackPeriod now inst) as Hstop.
      { rewrite <- keepsWalking_continues. by rewrite Hk. }
      intros [= <- <-].
      exists [token], (walkOrder tokens (S (p mod length tokens)) todo).
      split_and!; [done|by simpl; rewrite Hadd|].
      exists [], token. split_and!; [done|constructor|].
      exists info. by split_and!.
Qed.

End WalkFacts.

(** C2.  One draw of the per-zone selection (the walk run by ShuffleShard,
    ShuffleShardWithZoneStability and ShuffleShardWithLookback alike, with
    the bound [lookbackUntil] that [shuffleShard] computes from [now]) meets
    the tokens of the zone in ring order from its start, and puts the owner
    of every token it meets into the shard.  It goes past a token whose
    owner was already selected, and past one whose owner it has just added
    exactly when [lookbackPeriod > 0] and the owner registered at or after
    [now - lookbackPeriod], or the owner is READONLY; at the first token
    whose owner is new and is neither, it breaks with [found = true] and the
    draw is over.  It ends with [found = false] only after all tokens.  The
    condition is [continues], written in the words of the specification; the
    test of the code enters through the walk alone. *)
Theorem shardWalk_continues_iff (r : Ring) (d : Desc)
    (lookbackPeriod now : Z) (tokens : list Z) (start : nat)
    (shard shard' : gmap string InstanceDesc) (found : bool) :
  ringDesc r = Some d →
  shardWalk r lookbackPeriod (Unix_of (now - lookbackPeriod)) tokens (length tokens)
    start shard = Ok (shard', found) →
  let goesOn := fun instance : InstanceDesc =>
    (0 < lookbackPeriod ∧ Unix_of (now - lookbackPeriod) ≤ RegisteredTimestamp instance)
    ∨ State instance = READONLY in
  let owner := fun info : instanceInfo =>
    index_or_zero (Ingesters d) (InstanceID info) in
  let passed := fun t : Z =>
    ∃ info, ringInstanceByToken r !! t = Some info
            ∧ (is_Some (shard !! InstanceID info) ∨ goesOn (owner info)) in
  ∃ visited rest,
    walkOrder tokens start (length tokens) = visited ++ rest
    ∧ shard' = foldl (addOwner r d) shard visited
    ∧ if found then
        ∃ pre t, visited = pre ++ [t]
                 ∧ Forall passed pre
                 ∧ ∃ info, ringInstanceByToken r !! t = Some info
                           ∧ foldl (addOwner r d) shard pre !! InstanceID info = None
                           ∧ ¬ goesOn (owner info)
      else rest = [] ∧ Forall passed visited.
Proof.
  intros Hd Hw goesOn owner passed.
  exact (shardWalk_trace r d lookbackPeriod now tokens Hd _ _ _ _ _ Hw).
Qed.

(** ** Shuffle sharding and the shard size *)

Lemma elem_of_ownersOf (r : Ring) (tokens : list Z) (id : string) :
  id ∈ ownersOf r tokens
  ↔ ∃ t info, t ∈ tokens ∧ ringInstanceByToken r !! t = Some info ∧ InstanceID info = id.
Proof.
  unfold ownersOf. rewrite elem_of_list_to_set, list_elem_of_omap. split.
  - intros (t & Ht & Hf).
    destruct (ringInstanceByToken r !! t) as [info|] eqn:Hi; simpl in Hf; [|done].
    injection Hf as <-. by exists t, info.
  - intros (t & info & Ht & Hi & <-). exists t. split; [done|]. by rewrite Hi.
Qed.

Section ShardFacts.
Context (E : Env) (r : Ring) (lookbackPeriod lookbackUntil : Z).

(** A walk only adds instances, and only owners of the tokens it walks. *)
Lemma shardWalk_grows (tokens : list Z) (todo p : nat)
    (shard shard' : gmap string InstanceDesc) (found : bool) :
  shardWalk r lookbackPeriod lookbackUntil tokens todo p shard = Ok (shard', found) →
  shard ⊆ shard' ∧ dom shard' ⊆ dom shard ∪ ownersOf r tokens.
Proof.
  revert p shard. induction todo as [|todo IH]; intros p shard; simpl.
  { intros [= <- <-]. split; [done|set_solver]. }
  destruct (tokens !! (p mod length tokens)%nat) as [token|] eqn:Htok; [|done].
  destruct (ringInstanceByToken r !! token) as [info|] eqn:Hinfo; [|done].
  assert (InstanceID info ∈ ownersOf r tokens) as Hown.
  { apply elem_of_ownersOf. exists token, info. split_and!; [|done..].
    by eapply list_elem_of_lookup_2. }
  destruct (shard !! InstanceID info) as [present|] eqn:Hin; [by apply IH|].
  destruct (ringDesc r) as [d|]; [|done].
  set (shard1 := <[InstanceID info := index_or_zero (Ingesters d) (InstanceID info)]> shard).
  assert (shard ⊆ shard1) as Hsub by by apply insert_subseteq.
  assert (dom shard1 ⊆ dom shard ∪ ownersOf r tokens) as Hdom.
  { unfold shard1. rewrite dom_insert_L. set_solver. }
  destruct (keepsWalking _ _ _).
  - intros Hw. destruct (IH _ _ Hw) as [Hs Hd]. split; [by etrans|set_solver].
  - intros [= <- <-]. done.
Qed.

(** Instances that own no token of the walk do not change it. *)
Lemma shardWalk_frame (tokens : list Z) (X : gmap string InstanceDesc) :
  (∀ id, id ∈ ownersOf r tokens → X !! id = None) →
  ∀ todo p shard,
    shardWalk r lookbackPeriod lookbackUntil tokens todo p (shard ∪ X)
    = '(shard', found) ← shardWalk r lookbackPeriod lookbackUntil tokens todo p shard;
      Ok (shard' ∪ X, found).
Proof.
  intros HX todo. induction todo as [|todo IH]; intros p shard; simpl; [done|].
  destruct (tokens !! (p mod length tokens)%nat) as [token|] eqn:Htok; [|done].
  destruct (ringInstanceByToken r !! token) as [info|] eqn:Hinfo; [|done].
  assert (X !! InstanceID info = None) as Hfresh.
  { apply HX, elem_of_ownersOf. exists token, info. split_and!; [|done..].
    by eapply list_elem_of_lookup_2. }
  rewrite lookup_union_l by done.
  destruct (shard !! InstanceID info) as [present|]; [by apply IH|].
  destruct (ringDesc r) as [d|]; [|done].
  rewrite insert_union_l. destruct (keepsWalking _ _ _); [by apply IH|done].
Qed.

Lemma shardDraws_grows (identifier zone : string) (tokens : list Z) (todo i : nat)
    (shard shard' : gmap string InstanceDesc) :
  shardDraws E r lookbackPeriod lookbackUntil identifier zone tokens todo i shard
    = Ok shard' →
  shard ⊆ shard' ∧ dom shard' ⊆ dom shard ∪ ownersOf r tokens.
Proof.
  revert i shard. induction todo as [|todo IH]; intros i shard; simpl.
  { intros [= <-]. split; [done|set_solver]. }
  destruct (shardWalk _ _ _ _ _ _ _) as [[s f]| |] eqn:Hw; simpl; [|done..].
  apply shardWalk_grows in Hw as [Hs Hd]. destruct f.
  - intros Hdr. destruct (IH _ _ Hdr) as [Hs' Hd']. split; [by etrans|set_solver].
  - intros [= <-]. done.
Qed.

Lemma shardDraws_frame (identifier zone : string) (tokens : list Z)
    (X : gmap string InstanceDesc) :
  (∀ id, id ∈ ownersOf r tokens → X !! id = None) →
  ∀ todo i shard,
    shardDraws E r lookbackPeriod lookbackUntil identifier zone tokens todo i (shard ∪ X)
    = shard' ← shardDraws E r lookbackPeriod lookbackUntil identifier zone tokens
                 todo i shard;
      Ok (shard' ∪ X).
Proof.
  intros HX todo. induction todo as [|todo IH]; intros i shard; simpl; [done|].
  rewrite shardWalk_frame by done.
  destruct (shardWalk _ _ _ _ _ _ _) as [[s f]| |]; simpl; [|done..].
  destruct f; [by apply IH|done].
Qed.

(** More draws select more: the first draws are the same draws. *)
Lemma shardDraws_mono (identifier zone : string) (tokens : list Z) (a b i : nat)
    (shard s1 s2 : gmap string InstanceDesc) :
  shardDraws E r lookbackPeriod lookbackUntil identifier zone tokens a i shard = Ok s1 →
  shardDraws E r lookbackPeriod lookbackUntil identifier zone tokens (a + b) i shard
    = Ok s2 →
  s1 ⊆ s2.
Proof.
  revert i shard. induction a as [|a IH]; intros i shard; simpl.
  { intros [= <-] Hd. by apply shardDraws_grows in Hd as [? _]. }
  destruct (shardWalk _ _ _ _ _ _ _) as [[s f]| |]; simpl; [|done..].
  destruct f; [by apply IH|]. by intros [= <-] [= <-].
Qed.

Lemma shardZones_cons (identifier : string) (p : Z) (zone : string)
    (zones : list string) (shard : gmap string InstanceDesc) (e : Z) :
  shardZones E r lookbackPeriod lookbackUntil identifier p (zone :: zones) shard e
  = shard' ← shardDraws E r lookbackPeriod lookbackUntil identifier zone
               (zoneTokens r zone) (quota p e) 0 shard;
    shardZones E r lookbackPeriod lookbackUntil identifier p zones shard' (nextExtra e).
Proof. done. Qed.

Lemma planLe_quota (p1 e1 p2 e2 : Z) :
  planLe p1 e1 p2 e2 → (quota p1 e1 ≤ quota p2 e2)%nat.
Proof.
  unfold planLe, quota. intros H.
  destruct (Z.ltb_spec 0 e1), (Z.ltb_spec 0 e2); lia.
Qed.

Lemma planLe_next (p1 e1 p2 e2 : Z) :
  planLe p1 e1 p2 e2 → planLe p1 (nextExtra e1) p2 (nextExtra e2).
Proof.
  unfold planLe, nextExtra. intros H.
  destruct (Z.ltb_spec 0 e1), (Z.ltb_spec 0 e2); lia.
Qed.

Lemma shardZones_dom (identifier : string) (p : Z) (zones : list string)
    (shard shard' : gmap string InstanceDesc) (e : Z) (owners : gset string) :
  Forall (fun zone => ownersOf r (zoneTokens r zone) ⊆ owners) zones →
  shardZones E r lookbackPeriod lookbackUntil identifier p zones shard e = Ok shard' →
  dom shard' ⊆ dom shard ∪ owners.
Proof.
  intros Hall. revert shard e.
  induction zones as [|zone zones IH]; intros shard e.
  { simpl. intros [= <-]. set_solver. }
  apply Forall_cons in Hall as [Hzone Hall].
  rewrite shardZones_cons.
  destruct (shardDraws _ _ _ _ _ _ _ _ _ _) as [s| |] eqn:Hd; simpl; [|done..].
  intros Hz. apply (IH Hall) in Hz. apply shardDraws_grows in Hd as [_ Hd].
  set_solver.
Qed.

(** With no more draws asked of any zone, no fewer instances are selected. *)
Lemma shardZones_mono (identifier : string) (zones : list string) :
  zonesSeparate r zones →
  ∀ p1 e1 p2 e2 (s1 s2 t1 t2 : gmap string InstanceDesc),
    planLe p1 e1 p2 e2 →
    s1 ⊆ s2 →
    Forall (fun zone => ∀ id, id ∈ ownersOf r (zoneTokens r zone) → s2 !! id = None) zones →
    shardZones E r lookbackPeriod lookbackUntil identifier p1 zones s1 e1 = Ok t1 →
    shardZones E r lookbackPeriod lookbackUntil identifier p2 zones s2 e2 = Ok t2 →
    t1 ⊆ t2.
Proof.
  induction zones as [|zone zones IH]; intros Hsep p1 e1 p2 e2 s1 s2 t1 t2 Hle Hsub Hfresh.
  { simpl. by intros [= <-] [= <-]. }
  destruct Hsep as [Hdisj Hsep]. apply Forall_cons in Hfresh as [Hfz Hfresh].
  rewrite !shardZones_cons.
  assert (∀ id, id ∈ ownersOf r (zoneTokens r zone) → s1 !! id = None) as Hfz1.
  { intros id Hid. specialize (Hfz id Hid).
    destruct (s1 !! id) as [x|] eqn:Hx; [|done].
    by rewrite (lookup_weaken _ _ _ _ Hx Hsub) in Hfz. }
  rewrite <- (left_id_L ∅ (∪) s1), <- (left_id_L ∅ (∪) s2).
  rewrite !shardDraws_frame by done.
  destruct (shardDraws _ _ _ _ _ _ _ (quota p1 e1) _ _) as [d1| |] eqn:Hd1;
    simpl; [|done..].
  destruct (shardDraws _ _ _ _ _ _ _ (quota p2 e2) _ _) as [d2| |] eqn:Hd2;
    simpl; [|done..].
  assert (d1 ⊆ d2) as Hd12.
  { pose proof (planLe_quota _ _ _ _ Hle) as Hq.
    replace (quota p2 e2) with (quota p1 e1 + (quota p2 e2 - quota p1 e1))%nat in Hd2
      by lia.
    by eapply shardDraws_mono. }
  apply shardDraws_grows in Hd2 as [_ Hdom2'].
  assert (dom d2 ⊆ ownersOf r (zoneTokens r zone)) as Hdom2 by set_solver.
  clear Hdom2'.
  apply IH; [done|by apply planLe_next| |].
  - apply map_subseteq_spec. intros k v. rewrite !lookup_union_Some_raw.
    intros [Hk|[Hk1 Hk2]].
    + left. by eapply lookup_weaken.
    + destruct (d2 !! k) as [w|] eqn:Hw.
      * exfalso. assert (k ∈ ownersOf r (zoneTokens r zone)) as Hown.
        { apply Hdom2, elem_of_dom. by rewrite Hw. }
        rewrite (Hfz1 k Hown) in Hk2. done.
      * right. split; [done|]. by eapply lookup_weaken.
  - rewrite Forall_forall in Hfresh, Hdisj. apply Forall_forall.
    intros z' Hz' id Hid. apply lookup_union_None. split.
    + apply not_elem_of_dom. intros Hin. apply Hdom2 in Hin.
      specialize (Hdisj z' Hz'). set_solver.
    + by apply (Hfresh z' Hz').
Qed.

End ShardFacts.

Section SizeFacts.
Context (E : Env) (r : Ring) (d : Desc).
Hypothesis desc_present : ringDesc r = Some d.
Hypothesis consistent : shard_consistent r d.
Hypothesis zones_ok :
  ZoneAwarenessEnabled (cfg r) = true → NoDup (ringZones r) ∧ zones_owned r.

Lemma zone_owner_ok (zone : string) (t : Z) (info : instanceInfo) :
  zone ∈ walkedZones r →
  t ∈ zoneTokens r zone →
  ringInstanceByToken r !! t = Some info →
  ownerOk d info = true.
Proof.
  intros Hz Ht Hi. pose proof consistent as Hall.
  unfold shard_consistent in Hall. rewrite Forall_forall in Hall.
  by apply (tokens_consistent_owner r d _ t info (Hall zone Hz)).
Qed.

Lemma ownersOf_known :
  Forall (fun zone => ownersOf r (zoneTokens r zone) ⊆ dom (Ingesters d)) (walkedZones r).
Proof.
  apply Forall_forall. intros zone Hz id (t & info & Ht & Hi & <-)%elem_of_ownersOf.
  pose proof (zone_owner_ok zone t info Hz Ht Hi) as Hok. unfold ownerOk in Hok.
  apply elem_of_dom. by destruct (Ingesters d !! InstanceID info).
Qed.

Lemma shardPlan_zones (s : Z) (zoneStableSharding : bool) (p e : Z) (z : list string) :
  shardPlan r s zoneStableSharding = Ok (p, z, e) → z = walkedZones r.
Proof.
  unfold shardPlan, walkedZones.
  destruct (ZoneAwarenessEnabled (cfg r)); [|by intros [= _ <- _]].
  destruct zoneStableSharding; [|by intros [= _ <- _]].
  destruct (go_div _ _); simpl; [|done..].
  destruct (go_rem _ _); simpl; [|done..]. by intros [= _ <- _].
Qed.

Lemma zonesSeparate_aware (zones : list string) :
  ZoneAwarenessEnabled (cfg r) = true →
  NoDup zones → zones ⊆ ringZones r → zonesSeparate r zones.
Proof.
  intros Hza. destruct (zones_ok Hza) as [_ Hown].
  assert (∀ z id, z ∈ ringZones r → id ∈ ownersOf r (zoneTokens r z) →
            Zone (index_or_zero (Ingesters d) id) = z) as Hzone.
  { intros z id Hz (t & info & Ht & Hi & <-)%elem_of_ownersOf.
    assert (ownerOk d info = true) as Hok.
    { apply (zone_owner_ok z t info); [|done..]. unfold walkedZones. by rewrite Hza. }
    unfold zoneTokens in Ht. rewrite Hza in Ht.
    unfold zones_owned in Hown. rewrite Forall_forall in Hown.
    specialize (Hown z Hz). rewrite Forall_forall in Hown. specialize (Hown t Ht).
    unfold zoneTokenOk in Hown. rewrite Hi in Hown. apply bool_decide_eq_true in Hown.
    destruct (ownerOk_spec d info Hok) as [_ ->]. done. }
  induction zones as [|zone zones IH]; intros Hnd Hsub; simpl; [done|].
  apply NoDup_cons in Hnd as [Hnin Hnd]. split.
  - apply Forall_forall. intros z' Hz' id Hid Hid'.
    assert (zone = z') as <-.
    { rewrite <- (Hzone zone id), <- (Hzone z' id); [done| |done| |done]; set_solver. }
    done.
  - apply IH; [done|set_solver].
Qed.

Lemma shardPlan_le (s1 s2 : Z) (zoneStableSharding : bool)
    (p1 e1 p2 e2 : Z) (z1 z2 : list string) :
  0 < s1 → s1 < s2 →
  shardPlan r s1 zoneStableSharding = Ok (p1, z1, e1) →
  shardPlan r s2 zoneStableSharding = Ok (p2, z2, e2) →
  z1 = z2 ∧ planLe p1 e1 p2 e2.
Proof.
  intros Hpos Hlt. unfold shardPlan, planLe.
  destruct (ZoneAwarenessEnabled (cfg r)).
  - destruct zoneStableSharding.
    + unfold go_div, go_rem.
      destruct (Z.eqb_spec (len (ringZones r)) 0) as [|Hn]; [done|]. simpl.
      intros [= <- <- <-] [= <- <- <-]. split; [done|].
      assert (0 < len (ringZones r)) as Hn' by (unfold len in *; lia).
      rewrite !Z.quot_div_nonneg, !Z.rem_mod_nonneg by lia.
      pose proof (Z.div_le_mono s1 s2 (len (ringZones r)) Hn' ltac:(lia)).
      pose proof (Z.div_mod s1 (len (ringZones r)) ltac:(lia)).
      pose proof (Z.div_mod s2 (len (ringZones r)) ltac:(lia)).
      destruct (decide (s1 `div` len (ringZones r) = s2 `div` len (ringZones r))) as [Heq|];
        [right|left; lia].
      split; [done|]. rewrite Heq in *. lia.
    + intros [= <- <- <-] [= <- <- <-]. split; [done|].
      unfold ShuffleShardExpectedInstancesPerZone.
      destruct (Z.eqb_spec (len (ringZones r)) 0) as [Hz|Hn].
      * rewrite Hz, !Z.div_0_r. right. lia.
      * assert (0 < len (ringZones r)) as Hn' by (unfold len in *; lia).
        pose proof (Z.div_le_mono (s1 + len (ringZones r) - 1)
                      (s2 + len (ringZones r) - 1) (len (ringZones r)) Hn' ltac:(lia)).
        lia.
  - intros [= <- <- <-] [= <- <- <-]. split; [done|]. lia.
Qed.

(** The selection grows with the shard size, whatever the lookback. *)
Lemma shuffleShard_instances_mono (identifier : string) (s1 s2 : Z)
    (lookbackPeriod now : Z) (zoneStableSharding : bool)
    (t1 t2 : gmap string InstanceDesc) :
  0 < s1 → s1 < s2 →
  shuffleShard_instances E r identifier s1 lookbackPeriod now zoneStableSharding = Ok t1 →
  shuffleShard_instances E r identifier s2 lookbackPeriod now zoneStableSharding = Ok t2 →
  t1 ⊆ t2.
Proof.
  intros Hpos Hlt. unfold shuffleShard_instances.
  destruct (shardPlan r s1 _) as [[[p1 z1] e1]| |] eqn:Hp1; simpl; [|done..].
  destruct (shardPlan r s2 _) as [[[p2 z2] e2]| |] eqn:Hp2; simpl; [|done..].
  destruct (shardPlan_le _ _ _ _ _ _ _ _ _ Hpos Hlt Hp1 Hp2) as [<- Hle].
  apply shardZones_mono; [|done|done|].
  - rewrite (shardPlan_zones _ _ _ _ _ Hp1). unfold walkedZones.
    case_eq (ZoneAwarenessEnabled (cfg r)); intros Hza.
    + apply zonesSeparate_aware; [done| |done]. by apply zones_ok.
    + simpl. done.
  - apply Forall_forall. intros zone _ id _. apply lookup_empty.
Qed.

Lemma shuffleShard_instances_known (identifier : string) (s : Z)
    (lookbackPeriod now : Z) (zoneStableSharding : bool)
    (t : gmap string InstanceDesc) :
  shuffleShard_instances E r identifier s lookbackPeriod now zoneStableSharding = Ok t →
  dom t ⊆ dom (Ingesters d).
Proof.
  unfold shuffleShard_instances.
  destruct (shardPlan r s _) as [[[p z] e]| |] eqn:Hp; simpl; [|done..].
  rewrite (shardPlan_zones _ _ _ _ _ Hp).
  intros Hz. eapply shardZones_dom in Hz; [|apply ownersOf_known]. set_solver.
Qed.

(** The ring a shuffle shard call returns: the ring itself when the size is
    not a proper shard size, else a subring with the instances that
    [shuffleShard] selects. *)
Lemma shuffleShardWithCache_ids (identifier : string) (s : Z)
    (zoneStableSharding : bool) (r' sub : Ring) :
  cache_coherent E r →
  shuffleShardWithCache E r identifier s zoneStableSharding = Ok (r', sub) →
  ((s ≤ 0 ∨ map_len (Ingesters d) ≤ s) ∧ sub = r)
  ∨ (0 < s < map_len (Ingesters d)
     ∧ ∃ sd fresh, ringDesc sub = Some sd
         ∧ shuffleShard_instances E r identifier s 0 (now E) zoneStableSharding = Ok fresh
         ∧ dom (Ingesters sd) = dom fresh).
Proof.
  intros Hcoh. unfold shuffleShardWithCache.
  destruct (Z.leb_spec s 0) as [Hs|Hs]; [intros [= <- <-]; left; split; [by left|done]|].
  unfold InstancesCount. rewrite desc_present. simpl.
  destruct (Z.leb_spec (map_len (Ingesters d)) s) as [Hc|Hc];
    [intros [= <- <-]; left; split; [by right|done]|].
  intros Hres. right. split; [lia|].
  unfold getCachedShuffledSubring in Hres.
  set (key := {| identifier := identifier; shardSize := s;
                 zoneStableSharding := zoneStableSharding |}) in *.
  assert (∀ res, shuffleShard E r identifier s 0 (now E) zoneStableSharding = Ok res →
            ∃ sd fresh, ringDesc res = Some sd
              ∧ shuffleShard_instances E r identifier s 0 (now E) zoneStableSharding
                = Ok fresh
              ∧ dom (Ingesters sd) = dom fresh) as Hfresh.
  { intros res. unfold shuffleShard.
    destruct (shuffleShard_instances _ _ _ _ _ _ _) as [fresh| |]; simpl; [|done..].
    intros [= <-]. simpl. by eexists _, fresh. }
  assert (∀ r0, (res ← shuffleShard E r identifier s 0 (now E) zoneStableSharding;
                 Ok (r0 res, res)) = Ok (r', sub) →
            ∃ sd fresh, ringDesc sub = Some sd
              ∧ shuffleShard_instances E r identifier s 0 (now E) zoneStableSharding
                = Ok fresh
              ∧ dom (Ingesters sd) = dom fresh) as Hmiss.
  { intros r0.
    destruct (shuffleShard E r identifier s 0 (now E) zoneStableSharding)
      as [res| |] eqn:Hsh; simpl; [|done..].
    intros [= <- <-]. by apply Hfresh. }
  destruct (SubringCacheDisabled (cfg r)); simpl in Hres; [by eapply Hmiss|].
  destruct (shuffledSubringCache r) as [cache|] eqn:Hcache; simpl in Hres;
    [|by eapply Hmiss].
  destruct (cache !! key) as [cached|] eqn:Hkey; simpl in Hres; [|by eapply Hmiss].
  destruct (Hcoh cache key cached Hcache Hkey) as (cd & fresh & Hcd & Hsh & Hdom).
  rewrite Hcd, desc_present in Hres. simpl in Hres. injection Hres as <- <-.
  eexists _, fresh. split_and!; [done|done|]. simpl. rewrite <- Hdom.
  apply set_eq. intros name. rewrite !elem_of_dom, patch_lookup.
  by rewrite fmap_is_Some.
Qed.

End SizeFacts.

Section SizeClaim.
Context (E : Env).

Lemma shuffleShardWithCache_monotone (r : Ring) (d : Desc) (identifier : string)
    (s1 s2 : Z) (zoneStableSharding : bool) (r1 sub1 r2 sub2 : Ring) :
  ringDesc r = Some d →
  shard_consistent r d →
  (ZoneAwarenessEnabled (cfg r) = true → NoDup (ringZones r) ∧ zones_owned r) →
  cache_coherent E r →
  0 < s1 → s1 < s2 →
  shuffleShardWithCache E r identifier s1 zoneStableSharding = Ok (r1, sub1) →
  shuffleShardWithCache E r identifier s2 zoneStableSharding = Ok (r2, sub2) →
  ∃ d1 d2, ringDesc sub1 = Some d1 ∧ ringDesc sub2 = Some d2
           ∧ dom (Ingesters d1) ⊆ dom (Ingesters d2).
Proof.
  intros Hd Hcons Hzones Hcoh Hpos Hlt H1 H2.
  apply (shuffleShardWithCache_ids E r d Hd) in H1; [|done].
  apply (shuffleShardWithCache_ids E r d Hd) in H2; [|done].
  destruct H1 as [[Hs1 ->]|(Hs1 & sd1 & f1 & Hsd1 & Hf1 & Hdom1)],
           H2 as [[Hs2 ->]|(Hs2 & sd2 & f2 & Hsd2 & Hf2 & Hdom2)].
  - by exists d, d.
  - lia.
  - exists sd1, d. split_and!; [done..|]. rewrite Hdom1.
    by eapply shuffleShard_instances_known.
  - exists sd1, sd2. split_and!; [done..|]. rewrite Hdom1, Hdom2.
    apply subseteq_dom. by eapply (shuffleShard_instances_mono E r d).
Qed.

(** C4, amended.  On a ring whose token views agree with its descriptor
    and whose cache holds what shuffle sharding selects, for shard sizes
    [0 < s1 < s2] every instance of the subring returned for [s1] is an
    instance of the subring returned for [s2]: for ShuffleShard when [s1]
    and [s2] are multiples of the number of zones, and for
    ShuffleShardWithZoneStability always. *)
Theorem ShuffleShard_monotone (r : Ring) (d : Desc) (identifier : string) (s1 s2 : Z) :
  ringDesc r = Some d →
  shard_consistent r d →
  (ZoneAwarenessEnabled (cfg r) = true → NoDup (ringZones r) ∧ zones_owned r) →
  cache_coherent E r →
  0 < s1 → s1 < s2 →
  (∀ r1 sub1 r2 sub2,
     (len (ringZones r) | s1) ∧ (len (ringZones r) | s2) →
     ShuffleShard E r identifier s1 = Ok (r1, sub1) →
     ShuffleShard E r identifier s2 = Ok (r2, sub2) →
     ∃ d1 d2, ringDesc sub1 = Some d1 ∧ ringDesc sub2 = Some d2
              ∧ dom (Ingesters d1) ⊆ dom (Ingesters d2))
  ∧ (∀ r1 sub1 r2 sub2,
       ShuffleShardWithZoneStability E r identifier s1 = Ok (r1, sub1) →
       ShuffleShardWithZoneStability E r identifier s2 = Ok (r2, sub2) →
       ∃ d1 d2, ringDesc sub1 = Some d1 ∧ ringDesc sub2 = Some d2
                ∧ dom (Ingesters d1) ⊆ dom (Ingesters d2)).
Proof.
  intros Hd Hcons Hzones Hcoh Hpos Hlt. split.
  - intros r1 sub1 r2 sub2 _. unfold ShuffleShard.
    by apply (shuffleShardWithCache_monotone r d).
  - intros r1 sub1 r2 sub2. unfold ShuffleShardWithZoneStability.
    by apply (shuffleShardWithCache_monotone r d).
Qed.

End SizeClaim.

(** ** The theorems at work on the example ring *)

Section Witnesses.
Import Example.

Lemma GetReplicationSetForOperation_zone_unaware_witness :
  (ZoneAwarenessEnabled (cfg flatRing) = false
   ∧ ringDesc flatRing = Some desc
   ∧ ringTokens flatRing ≠ [])
  ∧ ∃ rs, GetReplicationSetForOperation env flatRing Read = Ok rs
          ∧ MaxErrors rs = 1
          ∧ MaxUnavailableZones rs = 0.
Proof.
  split; [by split_and!|].
  destruct (GetReplicationSetForOperation_zone_unaware env flatRing Read desc
              eq_refl eq_refl ltac:(done)) as [_ Hok].
  destruct Hok as (rs & Hrs & _ & Herr & Hz); [by vm_compute|].
  exists rs. split_and!; [done| |done]. rewrite Herr. by vm_compute.
Defined.

Lemma GetReplicationSetForOperation_zone_aware_witness :
  (ZoneAwarenessEnabled (cfg ring) = true
   ∧ ringDesc ring = Some desc
   ∧ ringTokens ring ≠ [])
  ∧ ∃ failedZones : gset string,
      (GetReplicationSetForOperation env ring Read = Err ErrTooManyUnhealthyInstances
       ↔ 1 < set_len failedZones).
Proof.
  split; [by split_and!|].
  destruct (GetReplicationSetForOperation_zone_aware env ring Read desc
              eq_refl eq_refl ltac:(done)) as (failedZones & _ & Hfail & _).
  exists failedZones. exact Hfail.
Defined.

Lemma cached_subring_patched_witness :
  (SubringCacheDisabled (cfg cachingRing) = false
   ∧ shuffledSubringCache cachingRing = Some {[ cachedKey := cachedSubring ]}
   ∧ ({[ cachedKey := cachedSubring ]} : gmap subringCacheKey Ring) !! cachedKey
       = Some cachedSubring
   ∧ ringDesc cachedSubring = Some cachedDesc)
  ∧ ∃ r' sub,
      getCachedShuffledSubring cachingRing "t" 3 false = Ok (r', Some sub)
      ∧ patched_from ingesters cachedSubring sub.
Proof.
  assert (({[ cachedKey := cachedSubring ]} : gmap subringCacheKey Ring) !! cachedKey
          = Some cachedSubring) as Hkey by apply lookup_singleton_eq.
  split; [by split_and!|].
  destruct (cached_subring_patched env cachingRing "t" 3 false
              {[ cachedKey := cachedSubring ]} cachedSubring cachedDesc
              eq_refl eq_refl Hkey eq_refl) as [Hhit _].
  destruct (Hhit desc eq_refl) as (r' & sub & Hget & Hpatch & _).
  by exists r', sub.
Defined.

Lemma infos_consistent_ring : infos_consistent ring desc.
Proof. apply (bool_decide_unpack (infos_consistent ring desc)). by vm_compute. Qed.

Lemma shard_consistent_ring : shard_consistent ring desc.
Proof. apply (bool_decide_unpack (shard_consistent ring desc)). by vm_compute. Qed.

Lemma zones_owned_ring : zones_owned ring.
Proof. apply (bool_decide_unpack (zones_owned ring)). by vm_compute. Qed.

Lemma Get_distinct_witness :
  match Get env ring 0 Read with
  | Ok rs =>
      ∃ d hosts,
        ringDesc ring = Some d
        ∧ NoDup hosts
        ∧ Instances rs = index_or_zero (Ingesters d) <$> hosts
        ∧ (infos_consistent ring d →
           Id <$> Instances rs = hosts
           ∧ NoDup (Id <$> Instances rs)
           ∧ NoDup (Instances rs))
  | _ => False
  end.
Proof.
  destruct (Get env ring 0 Read) as [rs| |] eqn:Hget.
  - exact (Get_distinct env ring 0 Read rs Hget).
  - by vm_compute in Hget.
  - by vm_compute in Hget.
Defined.

Lemma Get_zone_balance_witness :
  match Get_candidates ring 0 Write with
  | Ok st => ∀ z, z ≠ "" → len (zoneMembers Write z (instances st)) ≤ ceil_div 3 3
  | _ => False
  end.
Proof.
  destruct (Get_candidates ring 0 Write) as [st| |] eqn:Hget.
  - exact (proj1 (Get_zone_balance ring desc 0 Write st eq_refl ltac:(done)
                    ltac:(by vm_compute) eq_refl infos_consistent_ring Hget)).
  - by vm_compute in Hget.
  - by vm_compute in Hget.
Defined.

Lemma shardWalk_continues_iff_witness :
  (* a2 is READONLY: the draw that meets it first goes on, and ends at a1 *)
  match shardWalk (ringOf true readonlyDesc (Some ∅)) 0 (Unix_of (now env - 0))
          [10; 40; 70] (length [10; 40; 70]) 1 ∅ with
  | Ok (shard', found) =>
      found = true
      ∧ dom shard' = {["a2"; "a1"]}
      ∧ ∃ visited rest,
          walkOrder [10; 40; 70] 1 (length [10; 40; 70]) = visited ++ rest
          ∧ shard' = foldl (addOwner (ringOf true readonlyDesc (Some ∅)) readonlyDesc)
                       ∅ visited
          ∧ if found then
              ∃ pre t,
                visited = pre ++ [t]
                ∧ Forall (passes (ringOf true readonlyDesc (Some ∅)) readonlyDesc
                            0 (now env) ∅) pre
                ∧ settles (ringOf true readonlyDesc (Some ∅)) readonlyDesc 0 (now env)
                    (foldl (addOwner (ringOf true readonlyDesc (Some ∅)) readonlyDesc)
                       ∅ pre) t
            else rest = []
                 ∧ Forall (passes (ringOf true readonlyDesc (Some ∅)) readonlyDesc
                             0 (now env) ∅) visited
  | _ => False
  end
  (* every instance registered within a lookback of ten minutes: the draw
     goes past a2 and a1, and ends after all the tokens *)
  ∧ match shardWalk ring (600 * Second) (Unix_of (now env - 600 * Second))
            [10; 40; 70] (length [10; 40; 70]) 1 ∅ with
    | Ok (shard', found) =>
        found = false
        ∧ dom shard' = {["a2"; "a1"]}
        ∧ ∃ visited rest,
            walkOrder [10; 40; 70] 1 (length [10; 40; 70]) = visited ++ rest
            ∧ shard' = foldl (addOwner ring desc) ∅ visited
            ∧ if found then
                ∃ pre t,
                  visited = pre ++ [t]
                  ∧ Forall (passes ring desc (600 * Second) (now env) ∅) pre
                  ∧ settles ring desc (600 * Second) (now env)
                      (foldl (addOwner ring desc) ∅ pre) t
              else rest = []
                   ∧ Forall (passes ring desc (600 * Second) (now env) ∅) visited
    | _ => False
    end.
Proof.
  split.
  - assert (match shardWalk (ringOf true readonlyDesc (Some ∅)) 0 (Unix_of (now env - 0))
                    [10; 40; 70] (length [10; 40; 70]) 1 ∅ with
            | Ok (s, f) => f = true ∧ dom s = {["a2"; "a1"]}
            | _ => False
            end) as Hrun.
    { vm_compute. by split. }
    revert Hrun.
    destruct (shardWalk (ringOf true readonlyDesc (Some ∅)) 0 (Unix_of (now env - 0))
                [10; 40; 70] (length [10; 40; 70]) 1 ∅) as [[shard' found]| |] eqn:Hw;
      intros Hrun; [|done..].
    exact (conj (proj1 Hrun) (conj (proj2 Hrun)
             (shardWalk_continues_iff (ringOf true readonlyDesc (Some ∅)) readonlyDesc
                0 (now env) [10; 40; 70] 1 ∅ shard' found eq_refl Hw))).
  - assert (match shardWalk ring (600 * Second) (Unix_of (now env - 600 * Second))
                    [10; 40; 70] (length [10; 40; 70]) 1 ∅ with
            | Ok (s, f) => f = false ∧ dom s = {["a2"; "a1"]}
            | _ => False
            end) as Hrun.
    { vm_compute. by split. }
    revert Hrun.
    destruct (shardWalk ring (600 * Second) (Unix_of (now env - 600 * Second))
                [10; 40; 70] (length [10; 40; 70]) 1 ∅) as [[shard' found]| |] eqn:Hw;
      intros Hrun; [|done..].
    exact (conj (proj1 Hrun) (conj (proj2 Hrun)
             (shardWalk_continues_iff ring desc (600 * Second) (now env)
                [10; 40; 70] 1 ∅ shard' found eq_refl Hw))).
Defined.

Lemma cache_coherent_ring : cache_coherent env ring.
Proof. intros cache key cached [= <-] Hl. by rewrite lookup_empty in Hl. Qed.

Lemma ShuffleShard_monotone_witness :
  match ShuffleShard env ring "t" 3, ShuffleShard env ring "t" 6 with
  | Ok (_, sub1), Ok (_, sub2) =>
      ∃ d1 d2, ringDesc sub1 = Some d1 ∧ ringDesc sub2 = Some d2
               ∧ dom (Ingesters d1) ⊆ dom (Ingesters d2)
  | _, _ => False
  end
  ∧ match ShuffleShardWithZoneStability env ring "t" 4,
          ShuffleShardWithZoneStability env ring "t" 5 with
    | Ok (_, sub1), Ok (_, sub2) =>
        ∃ d1 d2, ringDesc sub1 = Some d1 ∧ ringDesc sub2 = Some d2
                 ∧ dom (Ingesters d1) ⊆ dom (Ingesters d2)
    | _, _ => False
    end.
Proof.
  assert (ZoneAwarenessEnabled (cfg ring) = true → NoDup (ringZones ring) ∧ zones_owned ring)
    as Hzones.
  { intros _. split; [|exact zones_owned_ring].
    apply (bool_decide_unpack (NoDup (ringZones ring))). by vm_compute. }
  split.
  - destruct (ShuffleShard env ring "t" 3) as [[r1 sub1]| |] eqn:H1;
      [|by vm_compute in H1..].
    destruct (ShuffleShard env ring "t" 6) as [[r2 sub2]| |] eqn:H2;
      [|by vm_compute in H2..].
    refine (proj1 (ShuffleShard_monotone env ring desc "t" 3 6 eq_refl
                     shard_consistent_ring Hzones cache_coherent_ring
                     ltac:(done) ltac:(done)) r1 sub1 r2 sub2 _ H1 H2).
    split; [by exists 1|by exists 2].
  - destruct (ShuffleShardWithZoneStability env ring "t" 4) as [[r1 sub1]| |] eqn:H1;
      [|by vm_compute in H1..].
    destruct (ShuffleShardWithZoneStability env ring "t" 5) as [[r2 sub2]| |] eqn:H2;
      [|by vm_compute in H2..].
    exact (proj2 (ShuffleShard_monotone env ring desc "t" 4 5 eq_refl
                    shard_consistent_ring Hzones cache_coherent_ring
                    ltac:(done) ltac:(done)) r1 sub1 r2 sub2 H1 H2).
Defined.

(** The claim of C3 as it was stated fails for the zone without a name:
    with replication factor 2 and the two zones [""] and ["z"], Get collects
    the two instances without a zone, none of which extends the replica
    set, where [ceil(2 / 2)] is 1. *)
Lemma Get_zone_balance_counterexample :
  ZoneAwarenessEnabled (cfg unzoned) = true
  ∧ ReplicationFactor (cfg unzoned) ≤ len (ringZones unzoned)
  ∧ ∃ st, Get_candidates unzoned 0 Reporting = Ok st
          ∧ replicationFactor st = ReplicationFactor (cfg unzoned)
          ∧ zoneMembers Reporting "" (instances st) = instances st
          ∧ ¬ (len (zoneMembers Reporting "" (instances st))
               ≤ ceil_div (ReplicationFactor (cfg unzoned)) (len (ringZones unzoned))).
Proof.
  split; [done|]. split; [by vm_compute|].
  eexists. split; [by vm_compute|]. split; [done|]. split; [by vm_compute|].
  by vm_compute.
Qed.

(** The claim of C4 as it was stated fails for [s1 = 0]: ShuffleShard with
    size 0 returns the ring itself, six instances, and with size 3 a subring
    of three instances; 0 and 3 are multiples of the three zones. *)
Lemma ShuffleShard_monotone_counterexample :
  ∃ r1 sub1 r2 sub2 d1 d2,
    ShuffleShard env ring "t" 0 = Ok (r1, sub1)
    ∧ ShuffleShard env ring "t" 3 = Ok (r2, sub2)
    ∧ 0 < 3
    ∧ (len (ringZones ring) | 0) ∧ (len (ringZones ring) | 3)
    ∧ ringDesc sub1 = Some d1 ∧ ringDesc sub2 = Some d2
    ∧ ¬ dom (Ingesters d1) ⊆ dom (Ingesters d2).
Proof.
  eexists _, _, _, _, _, _.
  split; [by vm_compute|]. split; [by vm_compute|]. split; [done|].
  split; [by exists 0|]. split; [by exists 1|].
  split; [reflexivity|]. split; [reflexivity|].
  intros Hsub. specialize (Hsub "a1"). revert Hsub. vm_compute.
  intros H. by specialize (H eq_refl).
Qed.

(** ** The model on scenarios of the specification *)

(** The token views of the example rings are the views derived from their
    descriptors. *)
Example ring_views :
  ringTokens ring = GetTokens env desc
  ∧ ringTokensByZone ring = getTokensByZone env desc
  ∧ ringInstanceByToken ring = getTokensInfo env desc
  ∧ ringZones ring = getZones env (getTokensByZone env desc).
Proof. by vm_compute. Qed.

Example unzoned_views :
  match ringDesc unzoned with
  | Some d =>
      ringTokens unzoned = GetTokens env d
      ∧ ringTokensByZone unzoned = getTokensByZone env d
      ∧ ringInstanceByToken unzoned = getTokensInfo env d
      ∧ ringZones unzoned = getZones env (getTokensByZone env d)
  | None => False
  end.
Proof. by vm_compute. Qed.

(** Three zones, all ACTIVE and fresh: Get returns one instance per zone
    and tolerates one error. *)
Example Get_three_zones :
  summary (Get env ring 0 Write) = Some (["a1"; "b1"; "c1"], 1, 0).
Proof. by vm_compute. Qed.

(** One stale instance, zone-aware: its zone is left out as a whole and no
    further zone may fail. *)
Example replication_set_one_stale_zone :
  summary (GetReplicationSetForOperation env (ringOf true staleDesc None) Read)
  = Some (["c1"; "c2"; "b1"; "b2"], 0, 0).
Proof. by vm_compute. Qed.

(** One stale instance of six, not zone-aware: five are required, five are
    healthy. *)
Example replication_set_one_stale :
  summary (GetReplicationSetForOperation env (ringOf false staleDesc None) Read)
  = Some (["c1"; "c2"; "a2"; "b1"; "b2"], 0, 0).
Proof. by vm_compute. Qed.

Example GetAllHealthy_one_stale :
  summary (GetAllHealthy env (ringOf true staleDesc None) Read)
  = Some (["c1"; "c2"; "a2"; "b1"; "b2"], 0, 0).
Proof. by vm_compute. Qed.

(** With a forget period of 105 seconds only a1 is forgotten. *)
Example AutoForgetFromRing_one_stale :
  (map_to_list (Ingesters (AutoForgetFromRing env staleDesc (105 * Second)))).*1
  = ["c1"; "c2"; "a2"; "b1"; "b2"].
Proof. by vm_compute. Qed.

(** A shard of three is one instance per zone; a READONLY pick is kept and
    replaced by the next instance of its zone; with a lookback that covers
    the registration of every instance the walk takes them all. *)
Example ShuffleShard_three :
  members (snd <$> ShuffleShard env ring "t" 3) = Some ["c1"; "a2"; "b1"].
Proof. by vm_compute. Qed.

Example ShuffleShard_readonly :
  members (snd <$> ShuffleShard env (ringOf true readonlyDesc None) "t" 3)
  = Some ["c1"; "a1"; "a2"; "b1"].
Proof. by vm_compute. Qed.

Example ShuffleShardWithLookback_all :
  members (ShuffleShardWithLookback env ring "t" 3 (600 * Second) (now env))
  = Some ["c1"; "c2"; "a1"; "a2"; "b1"; "b2"].
Proof. by vm_compute. Qed.

(** The subring shares the token map of the ring, and the invariants of
    Get and of shuffle sharding hold of it as they do of the ring. *)
Example subring_consistent :
  match ShuffleShard env ring "t" 3 with
  | Ok (_, sub) =>
      match ringDesc sub with
      | Some d =>
          ringInstanceByToken sub = ringInstanceByToken ring
          ∧ infos_consistent sub d ∧ shard_consistent sub d ∧ zones_owned sub
      | None => False
      end
  | _ => False
  end.
Proof.
  vm_compute ShuffleShard. simpl. split; [done|]. split_and!.
  - match goal with |- ?P => apply (bool_decide_unpack P) end. by vm_compute.
  - match goal with |- ?P => apply (bool_decide_unpack P) end. by vm_compute.
  - match goal with |- ?P => apply (bool_decide_unpack P) end. by vm_compute.
Qed.

(** A cached subring after an update of states and heartbeats only: a2 is
    returned LEAVING with its new heartbeat. *)
Example cached_subring_after_update :
  RingCompare env (ringDesc cachingRing) leavingDesc = EqualButStatesAndTimestamps
  ∧ match getCachedShuffledSubring (updateRingState env cachingRing leavingDesc)
            "t" 3 false with
    | Ok (_, Some sub) =>
        (fun d => (fun i => (Id i, State i, Timestamp i)) <$> (map_to_list (Ingesters d)).*2)
          <$> ringDesc sub
    | _ => None
    end = Some [("c1", ACTIVE, 1000); ("a2", LEAVING, 1005); ("b1", ACTIVE, 1000)].
Proof. by vm_compute. Qed.

End Witnesses.

(** * Further properties of the ring *)

(** ** The operation codec: the extend half *)

(** X1.  The counterpart of the healthy test for the upper sixteen bits: the
    operation NewOp builds extends the replica set on a state if and only if
    an extend function was given and holds of that state, whatever the list
    of healthy states.  NewOp asks the function about all six states, and the
    healthy bits stay below bit 16. *)
Theorem NewOp_extend_iff (code : InstanceState → Z)
    (code_range : ∀ s, 0 ≤ code s < 16)
    (code_inj : ∀ s t, code s = code t → s = t)
    (healthyStates : list InstanceState)
    (shouldExtendReplicaSet : option (InstanceState → bool))
    (s : InstanceState) :
  Op.ShouldExtendReplicaSetOnState code (Op.NewOp code healthyStates shouldExtendReplicaSet) s
    = true
  ↔ ∃ f, shouldExtendReplicaSet = Some f ∧ f s = true.
Proof.
  rewrite extend_test_bit by done.
  rewrite NewOp_bits by (done || (specialize (code_range s); lia)).
  assert (Hh : existsb (fun s0 => code s0 =? 16 + code s) healthyStates = false).
  { apply not_true_is_false. intros Hex. apply existsb_exists in Hex.
    destruct Hex as (t & _ & Ht). apply Z.eqb_eq in Ht.
    pose proof (code_range t). pose proof (code_range s). lia. }
  rewrite Hh, orb_false_l. destruct shouldExtendReplicaSet as [f|].
  - rewrite existsb_exists. split.
    + intros (t & _ & Ht). apply andb_true_iff in Ht as [Hf Ht].
      apply Z.eqb_eq in Ht. assert (t = s) as -> by (apply code_inj; lia).
      by exists f.
    + intros (g & [= <-] & Hg). exists s. split.
      * apply list_elem_of_In. unfold Op.extendStates. destruct s; set_solver.
      * rewrite Hg. simpl. apply Z.eqb_refl.
  - split; [done|]. by intros (g & ? & _).
Qed.

Lemma NewOp_extend_iff_witness :
  Op.ShouldExtendReplicaSetOnState Op.state_code
    (Op.NewOp Op.state_code [ACTIVE] (Some (fun s => bool_decide (s = READONLY))))
    READONLY = true
  ↔ ∃ f, Some (fun s => bool_decide (s = READONLY)) = Some f ∧ f READONLY = true.
Proof.
  apply (NewOp_extend_iff Op.state_code state_code_range state_code_inj).
Defined.

(** X2.  The four operations of the package, state by state.  Write and
    WriteNoExtend accept ACTIVE only; Write extends the replica set on every
    other state, WriteNoExtend on READONLY alone.  Read accepts every state
    but LEFT and extends on PENDING and LEFT, so that PENDING is both read
    from and extends the set.  Reporting accepts every state and never
    extends.  For the two write operations and Reporting no state is both
    healthy and extending. *)
Theorem package_operations (s : InstanceState) :
  let healthy op := Op.IsInstanceInStateHealthy Op.state_code op s in
  let extends op := Op.ShouldExtendReplicaSetOnState Op.state_code op s in
  healthy Example.Write = bool_decide (s = ACTIVE)
  ∧ extends Example.Write = bool_decide (s ≠ ACTIVE)
  ∧ healthy Example.WriteNoExtend = bool_decide (s = ACTIVE)
  ∧ extends Example.WriteNoExtend = bool_decide (s = READONLY)
  ∧ healthy Example.Read = bool_decide (s ≠ LEFT)
  ∧ extends Example.Read = bool_decide (s = PENDING ∨ s = LEFT)
  ∧ healthy Example.Reporting = true
  ∧ extends Example.Reporting = false.
Proof. destruct s; vm_compute; repeat split. Qed.

(** ** The fleet-wide listings *)

Section ListingFacts.
Context (E : Env).

Lemma splitHealthy_foldl (r : Ring) (op : Op.Operation) (L : Z)
    (l : list (string * InstanceDesc)) (st : list InstanceDesc * list InstanceDesc) :
  foldl (splitHealthy E r op L) st l
  = (st.1 ++ filter (fun i => IsHealthy E r i op L = true) l.*2,
     st.2 ++ filter (fun i => IsHealthy E r i op L ≠ true) l.*2).
Proof.
  revert st. induction l as [|[k i] l IH]; intros [hs us]; simpl.
  - by rewrite !app_nil_r.
  - rewrite IH. unfold splitHealthy. simpl. rewrite !filter_cons.
    destruct (IsHealthy E r i op L) eqn:Hh; simpl; by rewrite <- app_assoc.
Qed.

Lemma filter_split_perm {A : Type} (P : A → Prop) `{∀ x, Decision (P x)} (l : list A) :
  filter P l ++ filter (fun x => ¬ P x) l ≡ₚ l.
Proof.
  induction l as [|a l IH]; [done|].
  rewrite !filter_cons. destruct (decide (P a)) as [Ha|Ha].
  - rewrite decide_False by tauto. simpl. by rewrite IH.
  - rewrite decide_True by done. rewrite <- Permutation_middle. by rewrite IH.
Qed.

(** X3.  GetAllInstanceDescs fails with EmptyRing exactly when the descriptor is
    nil or holds no instance.  Otherwise it succeeds, and its two lists
    split the instances of the ring: the first holds exactly the instances
    that pass the health check for the operation, the second exactly those
    that do not, and together they are all the instances, each once. *)
Theorem GetAllInstanceDescs_partition (r : Ring) (op : Op.Operation) :
  (GetAllInstanceDescs E r op = Err ErrEmptyRing
   ↔ ringDesc r = None ∨ ∃ d, ringDesc r = Some d ∧ Ingesters d = ∅)
  ∧ (∀ d, ringDesc r = Some d → Ingesters d ≠ ∅ →
       ∃ healthy unhealthy,
         GetAllInstanceDescs E r op = Ok (healthy, unhealthy)
         ∧ healthy ≡ₚ (map_to_list (healthyIngesters E r op d)).*2
         ∧ (∀ i, i ∈ unhealthy ↔
                 (∃ id, Ingesters d !! id = Some i)
                 ∧ IsHealthy E r i op (LastUpdateTime E) = false)
         ∧ healthy ++ unhealthy ≡ₚ (map_to_list (Ingesters d)).*2).
Proof.
  unfold GetAllInstanceDescs. destruct (ringDesc r) as [d|] eqn:Hd.
  - destruct (map_len (Ingesters d) =? 0) eqn:Hz.
    + apply map_len_zero in Hz. split.
      * split; [|done]. intros _. right. by exists d.
      * intros d' [= <-] Hne. done.
    + split.
      * split; [done|]. intros [?|(d' & [= <-] & Hemp)]; [done|].
        apply map_len_zero in Hemp. congruence.
      * intros d' [= <-] _. rewrite splitHealthy_foldl. simpl.
        eexists _, _. split_and!; [done| | |].
        -- apply filter_values.
        -- intros i. rewrite list_elem_of_filter, list_elem_of_fmap. split.
           ++ intros [Hh ([id i'] & -> & Hin)]. apply elem_of_map_to_list in Hin.
              simpl in *. split; [by exists id|]. by apply not_true_is_false.
           ++ intros [[id Hid] Hh]. split; [congruence|].
              exists (id, i). split; [done|]. by apply elem_of_map_to_list.
        -- apply (filter_split_perm (fun i => IsHealthy E r i op (LastUpdateTime E) = true)).
  - split.
    + split; [|done]. intros _. by left.
    + intros d' [=].
Qed.

Lemma keepHealthy_foldl_lookup (r : Ring) (op : Op.Operation) (L : Z)
    (l : list (string * InstanceDesc)) (acc : gmap string InstanceDesc) (id : string) :
  NoDup l.*1 →
  foldl (keepHealthy E r op L) acc l !! id
  = match (list_to_map l : gmap string InstanceDesc) !! id with
    | Some i => if IsHealthy E r i op L then Some i else acc !! id
    | None => acc !! id
    end.
Proof.
  revert acc. induction l as [|[k i] l IH]; intros acc Hnd; simpl.
  - by rewrite lookup_empty.
  - apply NoDup_cons in Hnd as [Hk Hnd]. rewrite IH by done.
    unfold keepHealthy. simpl.
    destruct (decide (id = k)) as [->|Hne].
    + rewrite (not_elem_of_list_to_map_1 _ _ Hk). rewrite lookup_insert_eq.
      destruct (IsHealthy E r i op L); [by rewrite lookup_insert_eq|done].
    + rewrite (lookup_insert_ne _ k id) by done.
      destruct (list_to_map l !! id) as [j|]; simpl.
      * destruct (IsHealthy E r j op L); [done|].
        destruct (IsHealthy E r i op L); [by rewrite lookup_insert_ne|done].
      * destruct (IsHealthy E r i op L); [by rewrite lookup_insert_ne|done].
Qed.

(** X4.  GetInstanceDescsForOperation fails with EmptyRing exactly when the
    descriptor is nil or holds no instance; otherwise it returns the map of
    the instances that pass the health check for the operation, each under
    its own key: the same instances GetAllHealthy lists. *)
Theorem GetInstanceDescsForOperation_healthy (r : Ring) (op : Op.Operation) :
  (GetInstanceDescsForOperation E r op = Err ErrEmptyRing
   ↔ ringDesc r = None ∨ ∃ d, ringDesc r = Some d ∧ Ingesters d = ∅)
  ∧ (∀ d, ringDesc r = Some d → Ingesters d ≠ ∅ →
       GetInstanceDescsForOperation E r op = Ok (healthyIngesters E r op d)
       ∧ ∃ rs, GetAllHealthy E r op = Ok rs
               ∧ Instances rs ≡ₚ (map_to_list (healthyIngesters E r op d)).*2).
Proof.
  unfold GetInstanceDescsForOperation, GetAllHealthy.
  destruct (ringDesc r) as [d|] eqn:Hd.
  - destruct (map_len (Ingesters d) =? 0) eqn:Hz.
    + apply map_len_zero in Hz. split.
      * split; [|done]. intros _. right. by exists d.
      * intros d' [= <-] Hne. done.
    + split.
      * split; [done|]. intros [?|(d' & [= <-] & Hemp)]; [done|].
        apply map_len_zero in Hemp. congruence.
      * intros d' [= <-] _. split.
        -- f_equal. apply map_eq. intros id.
           rewrite keepHealthy_foldl_lookup by apply NoDup_fst_map_to_list.
           rewrite list_to_map_to_list, lookup_empty.
           unfold healthyIngesters. rewrite map_lookup_filter.
           destruct (Ingesters d !! id) as [i|] eqn:Hl; simpl; [|done].
           destruct (IsHealthy E r i op (LastUpdateTime E)) eqn:Hh.
           ++ by rewrite option_guard_True.
           ++ by rewrite option_guard_False by (simpl; congruence).
        -- eexists. split; [done|]. simpl. rewrite collectHealthy_foldl. simpl.
           apply filter_values.
  - split.
    + split; [|done]. intros _. by left.
    + intros d' [=].
Qed.

End ListingFacts.

(** ** Looking an instance up *)

(** X5.  HasInstance and GetInstanceState agree, on a nil descriptor too:
    GetInstanceState returns the state the descriptor records for the
    instance when HasInstance is true of it, and InstanceNotFound when it is
    not; neither panics on a ring without a descriptor. *)
Theorem GetInstanceState_HasInstance (r : Ring) (instanceID : string) :
  (∀ s, GetInstanceState r instanceID = Ok s
        ↔ ∃ d i, ringDesc r = Some d ∧ Ingesters d !! instanceID = Some i ∧ State i = s)
  ∧ (HasInstance r instanceID = true ↔ ∃ s, GetInstanceState r instanceID = Ok s)
  ∧ (HasInstance r instanceID = false
     ↔ GetInstanceState r instanceID = Err ErrInstanceNotFound)
  ∧ (ringDesc r = None → HasInstance r instanceID = false).
Proof.
  unfold GetInstanceState, HasInstance, GetIngesters.
  destruct (ringDesc r) as [d|]; simpl.
  - destruct (Ingesters d !! instanceID) as [i|] eqn:Hl; split_and!; try done.
    + intros s. split.
      * intros [= <-]. by exists d, i.
      * intros (d' & i' & [= <-] & Hl' & <-). congruence.
    + split; [by exists (State i)|done].
    + intros s. split; [done|]. intros (d' & i' & [= <-] & Hl' & _). congruence.
    + split; [done|]. by intros [s ?].
  - rewrite lookup_empty. split_and!; try done.
    + intros s. split; [done|]. by intros (d & i & ? & _).
    + split; [done|]. by intros [s ?].
Qed.

(** ** The tolerances of a fleet-wide replication set *)

Section ToleranceFacts.
Context (E : Env).

(** X6.  Whatever GetReplicationSetForOperation returns, neither tolerance is
    negative and at most one of them is not zero: a zone-aware ring
    tolerates unavailable zones and no further error, a ring without
    zone-awareness tolerates errors and no unavailable zone.  Every instance
    returned is an instance of the descriptor that passes the health
    check. *)
Theorem GetReplicationSetForOperation_tolerances (r : Ring) (op : Op.Operation)
    (rs : ReplicationSet) :
  GetReplicationSetForOperation E r op = Ok rs →
  0 ≤ MaxErrors rs
  ∧ 0 ≤ MaxUnavailableZones rs
  ∧ (if ZoneAwarenessEnabled (cfg r) then MaxErrors rs = 0 else MaxUnavailableZones rs = 0)
  ∧ ∀ i, i ∈ Instances rs →
      IsHealthy E r i op (LastUpdateTime E) = true
      ∧ ∃ d id, ringDesc r = Some d ∧ Ingesters d !! id = Some i.
Proof.
  unfold GetReplicationSetForOperation.
  destruct (ringDesc r) as [d|] eqn:Hd; [|done].
  destruct (len (ringTokens r) =? 0); [done|].
  rewrite partitionHealthy_foldl. simpl.
  assert (∀ i, i ∈ filter (fun i => IsHealthy E r i op (LastUpdateTime E) = true)
                      (map_to_list (Ingesters d)).*2 →
            IsHealthy E r i op (LastUpdateTime E) = true
            ∧ ∃ d0 id, Some d = Some d0 ∧ Ingesters d0 !! id = Some i) as Hmem.
  { intros i [Hh Hin]%list_elem_of_filter. split; [done|].
    apply list_elem_of_fmap in Hin as ([id i'] & -> & Hin).
    apply elem_of_map_to_list in Hin. by exists d, id. }
  destruct (ZoneAwarenessEnabled (cfg r)).
  - destruct (Z.ltb_spec
      (Z.quot (Z.min (len (ringZones r)) (ReplicationFactor (cfg r))) 2 + 1 - 1)
      (set_len (list_to_set (Zone <$> filter
          (fun i => IsHealthy E r i op (LastUpdateTime E) ≠ true)
          (map_to_list (Ingesters d)).*2) ∪ ∅))) as [Hlt|Hge]; [done|].
    intros [= <-]. simpl. split_and!; [done|lia|done|].
    intros i Hi. apply Hmem. destruct (0 <? _); [|done].
    by apply list_elem_of_filter in Hi as [_ Hi].
  - match goal with |- context [if ?a <? ?b then Err _ else _] =>
      destruct (Z.ltb_spec a b) as [Hlt|Hge]; [done|] end.
    intros [= <-]. simpl. split_and!; [lia|done|done|done].
Qed.

End ToleranceFacts.

Lemma GetReplicationSetForOperation_tolerances_witness :
  match GetReplicationSetForOperation Example.env
          (Example.ringOf true Example.staleDesc (Some ∅)) Example.Read with
  | Ok rs => 0 ≤ MaxErrors rs ∧ 0 ≤ MaxUnavailableZones rs ∧ MaxErrors rs = 0
  | _ => False
  end.
Proof.
  destruct (GetReplicationSetForOperation Example.env
              (Example.ringOf true Example.staleDesc (Some ∅)) Example.Read)
    as [rs| |] eqn:H.
  - destruct (GetReplicationSetForOperation_tolerances _ _ _ _ H) as (H0 & H1 & H2 & _).
    exact (conj H0 (conj H1 H2)).
  - by vm_compute in H.
  - by vm_compute in H.
Defined.


(** ** Loops that delete from the map they range over *)

Lemma foldl_delete_lookup {K : Type} `{Countable K} {A : Type} (p : K * A → bool)
    (l : list (K * A)) (m : gmap K A) (k : K) :
  foldl (fun m kv => if p kv then delete kv.1 m else m) m l !! k
  = if decide (k ∈ (filter (fun kv => p kv = true) l).*1) then None else m !! k.
Proof.
  revert m. induction l as [|[k' a] l IH]; intros m; simpl; [done|].
  rewrite IH. rewrite filter_cons. simpl. destruct (p (k', a)) eqn:Hp; simpl.
  - destruct (decide (k = k')) as [->|Hne].
    + rewrite (decide_True (P := k' ∈ k' :: _)) by apply list_elem_of_here.
      case_decide; [done|]. apply lookup_delete_eq.
    + rewrite lookup_delete_ne by done. repeat case_decide; try done; set_solver.
  - done.
Qed.

(** Ranging over a map and deleting the entries that satisfy a test leaves
    the entries that do not. *)
Lemma foldl_delete_filter {K : Type} `{Countable K} {A : Type} (p : K * A → bool)
    (m : gmap K A) :
  foldl (fun m kv => if p kv then delete kv.1 m else m) m (map_to_list m)
  = filter (fun kv => p kv = false) m.
Proof.
  apply map_eq. intros k. rewrite foldl_delete_lookup. apply option_eq. intros a.
  rewrite map_lookup_filter_Some. case_decide as Hin.
  - split; [done|]. intros [Hl Hn]. exfalso.
    apply list_elem_of_fmap in Hin as ([k' a'] & -> & Hin).
    apply list_elem_of_filter in Hin as [Hf Hin].
    apply elem_of_map_to_list in Hin. simpl in *. congruence.
  - split; [|tauto]. intros Hl. split; [done|]. apply not_true_is_false. intros Hf.
    apply Hin. apply list_elem_of_fmap. exists (k, a). split; [done|].
    apply list_elem_of_filter. split; [done|]. by apply elem_of_map_to_list.
Qed.

(** ** updateRingState and the excluded zones *)

Section UpdateFacts.
Context (E : Env).

Lemma filterExcludedZones_filter (r : Ring) (newDesc : Desc) :
  Ingesters (filterExcludedZones r newDesc)
  = filter (fun kv => Zone kv.2 ∉ ExcludedZones (cfg r)) (Ingesters newDesc).
Proof.
  unfold filterExcludedZones. destruct (ExcludedZones (cfg r)) as [|z zs] eqn:Hex.
  - simpl. symmetry. apply map_filter_id. intros k a _. simpl. set_solver.
  - change (0 <? len (z :: zs)) with true. cbv iota. simpl Ingesters.
    unfold dropExcluded.
    rewrite (foldl_delete_filter (fun kv => StringsContain (z :: zs) (Zone kv.2))).
    apply map_filter_ext. intros k a _. simpl. unfold StringsContain.
    rewrite bool_decide_eq_false. done.
Qed.

Lemma updateRingState_desc (r : Ring) (newDesc : Desc) :
  ringDesc (updateRingState E r newDesc) = Some (filterExcludedZones r newDesc).
Proof.
  unfold updateRingState.
  destruct (RingCompare E (ringDesc r) (filterExcludedZones r newDesc)); simpl; try done.
  by destruct (shuffledSubringCache r).
Qed.

Lemma updateRingState_cfg (r : Ring) (newDesc : Desc) :
  cfg (updateRingState E r newDesc) = cfg r.
Proof.
  unfold updateRingState.
  destruct (RingCompare E (ringDesc r) (filterExcludedZones r newDesc)); simpl; try done.
  by destruct (shuffledSubringCache r).
Qed.

(** X7.  Whatever RingCompare answers, after updateRingState the ring holds a
    descriptor, and its instances are exactly the instances of the new
    descriptor whose zone is not an excluded zone, unchanged: no instance of
    an excluded zone is ever visible through HasInstance or GetInstanceState,
    and the configuration is untouched. *)
Theorem updateRingState_excludes_zones (r : Ring) (newDesc : Desc) :
  let r' := updateRingState E r newDesc in
  cfg r' = cfg r
  ∧ (∃ d', ringDesc r' = Some d'
       ∧ ∀ id i, Ingesters d' !! id = Some i
                 ↔ Ingesters newDesc !! id = Some i ∧ Zone i ∉ ExcludedZones (cfg r))
  ∧ (∀ id, HasInstance r' id = true
           ↔ ∃ i, Ingesters newDesc !! id = Some i ∧ Zone i ∉ ExcludedZones (cfg r))
  ∧ (∀ id i, Ingesters newDesc !! id = Some i → Zone i ∈ ExcludedZones (cfg r) →
       GetInstanceState r' id = Err ErrInstanceNotFound).
Proof.
  intros r'. unfold r'.
  assert (∀ id i, Ingesters (filterExcludedZones r newDesc) !! id = Some i
                  ↔ Ingesters newDesc !! id = Some i ∧ Zone i ∉ ExcludedZones (cfg r))
    as Hl.
  { intros id i. rewrite filterExcludedZones_filter. apply map_lookup_filter_Some. }
  split_and!.
  - apply updateRingState_cfg.
  - exists (filterExcludedZones r newDesc). split; [apply updateRingState_desc|done].
  - intros id. unfold HasInstance. rewrite updateRingState_desc. simpl.
    destruct (Ingesters (filterExcludedZones r newDesc) !! id) as [i|] eqn:Hi.
    + split; [|done]. intros _. exists i. by apply Hl.
    + split; [done|]. intros (i & Hi'). apply Hl in Hi'. congruence.
  - intros id i Hi Hz. unfold GetInstanceState. rewrite updateRingState_desc. simpl.
    destruct (Ingesters (filterExcludedZones r newDesc) !! id) as [j|] eqn:Hj; [|done].
    apply Hl in Hj as [Hj Hn]. assert (j = i) as -> by congruence. done.
Qed.

(** X8.  After an update that RingCompare classifies as Different or as
    EqualButReadOnly no cached subring survives: the cache lookup misses for
    every identifier, size and flag, and a shuffle shard call with a proper
    shard size returns what shuffleShard computes on the updated ring.  An
    update classified as Equal or EqualButStatesAndTimestamps keeps the
    cache and all the token views. *)
Theorem updateRingState_invalidates (r : Ring) (newDesc : Desc) :
  let rc := RingCompare E (ringDesc r) (filterExcludedZones r newDesc) in
  let r' := updateRingState E r newDesc in
  (rc = Different ∨ rc = EqualButReadOnly →
     ∀ identifier size zoneStableSharding,
       getCachedShuffledSubring r' identifier size zoneStableSharding = Ok (r', None)
       ∧ (0 < size < map_len (Ingesters (filterExcludedZones r newDesc)) →
          snd <$> shuffleShardWithCache E r' identifier size zoneStableSharding
          = shuffleShard E r' identifier size 0 (now E) zoneStableSharding))
  ∧ (rc = Equal ∨ rc = EqualButStatesAndTimestamps →
       r' = with_ringDesc r (Some (filterExcludedZones r newDesc))).
Proof.
  intros rc r'. split.
  - intros Hrc identifier size zoneStableSharding.
    assert (shuffledSubringCache r' = None ∨ shuffledSubringCache r' = Some ∅) as Hcache.
    { unfold r', updateRingState. unfold rc in Hrc.
      destruct Hrc as [Hrc|Hrc]; rewrite Hrc; simpl;
        destruct (shuffledSubringCache r) eqn:Hc; simpl; rewrite ?Hc; auto. }
    assert (getCachedShuffledSubring r' identifier size zoneStableSharding = Ok (r', None))
      as Hmiss.
    { unfold getCachedShuffledSubring. destruct (SubringCacheDisabled (cfg r')); [done|].
      destruct Hcache as [-> | ->]; [done|]. by rewrite lookup_empty. }
    split; [done|]. intros [Hpos Hlt].
    unfold shuffleShardWithCache. rewrite Hmiss.
    destruct (Z.leb_spec size 0) as [|_]; [lia|].
    pose proof (updateRingState_desc r newDesc) as Hd. fold r' in Hd.
    unfold InstancesCount. rewrite Hd. simpl.
    destruct (Z.leb_spec (map_len (Ingesters (filterExcludedZones r newDesc))) size)
      as [|_]; [lia|].
    by destruct (shuffleShard E r' identifier size 0 (now E) zoneStableSharding).
  - intros Hrc. unfold r', updateRingState. unfold rc in Hrc.
    by destruct Hrc as [Hrc|Hrc]; rewrite Hrc.
Qed.

End UpdateFacts.

Lemma updateRingState_invalidates_witness :
  getCachedShuffledSubring
    (updateRingState Example.env Example.cachingRing Example.readonlyDesc) "t" 3 false
  = Ok (updateRingState Example.env Example.cachingRing Example.readonlyDesc, None).
Proof.
  apply (updateRingState_invalidates Example.env Example.cachingRing Example.readonlyDesc).
  right. by vm_compute.
Defined.


(** ** Cleaning the subring cache *)

Lemma CleanupShuffleShardCache_cache (r : Ring) (identifier0 : string) :
  shuffledSubringCache (CleanupShuffleShardCache r identifier0)
  = if SubringCacheDisabled (cfg r) then shuffledSubringCache r
    else filter (fun kv => identifier kv.1 ≠ identifier0) <$> shuffledSubringCache r.
Proof.
  unfold CleanupShuffleShardCache. destruct (SubringCacheDisabled (cfg r)); [done|].
  destruct (shuffledSubringCache r) as [cache|] eqn:Hc; [|by rewrite Hc].
  simpl. f_equal. unfold dropIdentifier.
  rewrite (foldl_delete_filter (fun kv => bool_decide (identifier kv.1 = identifier0))).
  apply map_filter_ext. intros k a _. simpl. by rewrite bool_decide_eq_false.
Qed.

Lemma CleanupShuffleShardCache_frame (r : Ring) (identifier0 : string) :
  CleanupShuffleShardCache r identifier0
  = with_cache r (shuffledSubringCache (CleanupShuffleShardCache r identifier0)).
Proof.
  unfold CleanupShuffleShardCache. destruct (SubringCacheDisabled (cfg r)).
  - by destruct r.
  - destruct (shuffledSubringCache r) eqn:Hcache; [done|]. rewrite <- ?Hcache.
    by destruct r.
Qed.

(** X9.  CleanupShuffleShardCache drops every cached subring of the identifier,
    whatever its size and flag, so that the next lookup for the identifier
    misses; the cached subrings of every other identifier stay as they are,
    and nothing but the cache changes.  With the cache disabled or nil the
    call does nothing. *)
Theorem CleanupShuffleShardCache_drops (r : Ring) (identifier0 : string) :
  let r' := CleanupShuffleShardCache r identifier0 in
  r' = with_cache r (shuffledSubringCache r')
  ∧ (∀ size zoneStableSharding,
       getCachedShuffledSubring r' identifier0 size zoneStableSharding = Ok (r', None))
  ∧ (∀ key, identifier key ≠ identifier0 →
       (shuffledSubringCache r' ≫= fun cache => cache !! key)
       = (shuffledSubringCache r ≫= fun cache => cache !! key))
  ∧ (SubringCacheDisabled (cfg r) = true ∨ shuffledSubringCache r = None → r' = r).
Proof.
  intros r'. pose proof (CleanupShuffleShardCache_cache r identifier0) as Hc.
  fold r' in Hc.
  assert (cfg r' = cfg r) as Hcfg.
  { unfold r', CleanupShuffleShardCache. destruct (SubringCacheDisabled (cfg r)); [done|].
    by destruct (shuffledSubringCache r). }
  split_and!.
  - apply CleanupShuffleShardCache_frame.
  - intros size zoneStableSharding. unfold getCachedShuffledSubring.
    rewrite Hcfg. destruct (SubringCacheDisabled (cfg r)); [done|].
    rewrite Hc. destruct (shuffledSubringCache r) as [cache|]; [|done]. simpl.
    rewrite map_lookup_filter.
    destruct (cache !! _) as [cached|]; [|done]. simpl.
    by rewrite option_guard_False by (simpl; tauto).
  - intros key Hne. rewrite Hc. destruct (SubringCacheDisabled (cfg r)); [done|].
    destruct (shuffledSubringCache r) as [cache|]; [|done]. simpl.
    rewrite map_lookup_filter. destruct (cache !! key) as [cached|]; [|done]. simpl.
    by rewrite option_guard_True.
  - unfold r', CleanupShuffleShardCache. intros [-> | ->]; [done|].
    by destruct (SubringCacheDisabled (cfg r)).
Qed.

(** ** A ring that has not received a descriptor yet *)

Section FreshFacts.
Context (E : Env).

(** X10.  NewWithStoreClientAndStrategy rejects a replication factor that is not
    positive.  The ring it builds otherwise holds no instance and no token:
    every read answers EmptyRing (Get does not reach its division by the
    number of zones), no instance is found, and shuffle sharding returns the
    ring itself for every shard size. *)
Theorem NewWithStoreClientAndStrategy_empty (cfg0 : Config) :
  (NewWithStoreClientAndStrategy cfg0 = None ↔ ReplicationFactor cfg0 ≤ 0)
  ∧ ∀ r, NewWithStoreClientAndStrategy cfg0 = Some r →
      cfg r = cfg0
      ∧ (∀ key op, Get E r key op = Err ErrEmptyRing)
      ∧ (∀ op, GetAllHealthy E r op = Err ErrEmptyRing
               ∧ GetReplicationSetForOperation E r op = Err ErrEmptyRing
               ∧ GetAllInstanceDescs E r op = Err ErrEmptyRing
               ∧ GetInstanceDescsForOperation E r op = Err ErrEmptyRing)
      ∧ (∀ id, HasInstance r id = false
               ∧ GetInstanceState r id = Err ErrInstanceNotFound
               ∧ GetInstanceIdByAddr r id = Err ErrInstanceNotFound)
      ∧ (∀ id size, ShuffleShard E r id size = Ok (r, r)
                    ∧ ShuffleShardWithZoneStability E r id size = Ok (r, r))
      ∧ (∀ id size lookbackPeriod now,
           ShuffleShardWithLookback E r id size lookbackPeriod now = Ok r).
Proof.
  unfold NewWithStoreClientAndStrategy.
  destruct (Z.leb_spec (ReplicationFactor cfg0) 0) as [Hle|Hgt].
  - split; [done|]. intros r [=].
  - split; [split; [done|lia]|]. intros r [= <-]. split_and!; try done.
    + intros id size. unfold ShuffleShard, ShuffleShardWithZoneStability,
        shuffleShardWithCache. simpl.
      destruct (Z.leb_spec size 0); [done|].
      change (map_len (∅ : gmap string InstanceDesc)) with 0.
      destruct (Z.leb_spec 0 size); [done|lia].
    + intros id size lookbackPeriod now0. unfold ShuffleShardWithLookback. simpl.
      destruct (Z.leb_spec size 0); [done|].
      change (map_len (∅ : gmap string InstanceDesc)) with 0.
      destruct (Z.leb_spec 0 size); [done|lia].
Qed.

End FreshFacts.

(** ** Get: how many replicas, and which errors *)

Section GetCount.
Context (E : Env) (r : Ring) (d : Desc) (op : Op.Operation) (maxInstancePerZone : Z).

Lemma Get_loop_guarded (P : getState → Prop) :
  (∀ i st st', P st → len (distinctHosts st) < replicationFactor st →
     Get_visit r d op maxInstancePerZone i st = Ok st' → P st') →
  ∀ todo i st st',
    P st → Get_loop r d op maxInstancePerZone todo i st = Ok st' → P st'.
Proof.
  intros Hstep todo. induction todo as [|todo IH]; intros i st st' HP; simpl.
  - by intros [= <-].
  - destruct (Z.ltb_spec (len (distinctHosts st)) (replicationFactor st)) as [Hlt|Hge];
      [|by intros [= <-]].
    destruct (Get_visit r d op maxInstancePerZone (i mod length (ringTokens r)) st)
      as [st1| |] eqn:Hv; simpl; [|done..].
    intros Hl. eapply IH; [|exact Hl]. eapply Hstep; [exact HP|exact Hlt|exact Hv].
Qed.

Lemma Get_select_replicationFactor (info : instanceInfo) (st : getState) :
  replicationFactor (Get_select r d op maxInstancePerZone info st)
  = replicationFactor st
    + (if Op.ShouldExtendReplicaSetOnState Op.state_code op
            (State (index_or_zero (Ingesters d) (InstanceID info)))
       then 1 else 0).
Proof.
  unfold Get_select. simpl.
  destruct (Op.ShouldExtendReplicaSetOnState _ _ _); [done|].
  destruct (zoneChecked r info); simpl; [|lia].
  rewrite (proj1 (countZone_frame _ _ _)). simpl. lia.
Qed.

(** The replication factor of the loop is the configured one plus the
    number of candidates that extended the replica set, and the loop never
    holds more hosts than that. *)
Lemma replicaInv_visit (RF : Z) (i : nat) (st st' : getState) :
  replicaInv op RF st →
  len (distinctHosts st) < replicationFactor st →
  Get_visit r d op maxInstancePerZone i st = Ok st' →
  replicaInv op RF st'.
Proof.
  intros (Hlen & Hrf & Hle) Hlt Hv.
  apply Get_visit_cases in Hv as [->|(token & info & _ & _ & _ & _ & ->)]; [done|].
  unfold replicaInv, extending in *.
  rewrite Get_select_hosts, Get_select_instances, Get_select_replicationFactor.
  rewrite filter_app, filter_cons, filter_nil. unfold len in *. rewrite !length_app. simpl.
  destruct (Op.ShouldExtendReplicaSetOnState Op.state_code op
              (State (index_or_zero (Ingesters d) (InstanceID info)))) eqn:Hext.
  - rewrite decide_True by done. simpl. lia.
  - rewrite decide_False by congruence. simpl. lia.
Qed.

(** With tokens in the ring the loop never panics, and it fails only at a
    token of the ring that has no owner in the token map. *)
Lemma Get_loop_outcome (todo i : nat) (st : getState) :
  ringTokens r ≠ [] →
  match Get_loop r d op maxInstancePerZone todo i st with
  | Ok _ => True
  | Err e => e = ErrInconsistentTokensInfo
             ∧ ∃ t, t ∈ ringTokens r ∧ ringInstanceByToken r !! t = None
  | Panic _ => False
  end.
Proof.
  intros Hne. revert i st. induction todo as [|todo IH]; intros i st; simpl; [done|].
  destruct (len (distinctHosts st) <? replicationFactor st); [|done].
  unfold Get_visit.
  assert (i mod length (ringTokens r) < length (ringTokens r))%nat as Hi.
  { apply Nat.mod_upper_bound. by destruct (ringTokens r). }
  destruct (lookup_lt_is_Some_2 _ _ Hi) as [token Htok]. rewrite Htok.
  destruct (ringInstanceByToken r !! token) as [info|] eqn:Hinfo; simpl.
  - destruct (StringsContain _ _); simpl; [apply IH|].
    destruct (zoneChecked r info && _); simpl; apply IH.
  - split; [done|]. exists token. split; [|done]. by eapply list_elem_of_lookup_2.
Qed.

End GetCount.

Lemma length_filter_mono {A : Type} (P Q : A → Prop)
    `{∀ x, Decision (P x)} `{∀ x, Decision (Q x)} (l : list A) :
  (∀ x, P x → Q x) → (length (filter P l) ≤ length (filter Q l))%nat.
Proof.
  intros HPQ. induction l as [|a l IH]; [done|].
  rewrite !filter_cons. destruct (decide (P a)) as [Ha|Ha].
  - rewrite decide_True by auto. simpl. lia.
  - destruct (decide (Q a)); simpl; lia.
Qed.

Section GetCountTheorems.
Context (E : Env).

Lemma Get_candidates_replicaInv (r : Ring) (key : Z) (op : Op.Operation) (st : getState) :
  0 ≤ ReplicationFactor (cfg r) →
  Get_candidates r key op = Ok st →
  replicaInv op (ReplicationFactor (cfg r)) st.
Proof.
  intros Hrf. unfold Get_candidates. destruct (ringDesc r) as [d|]; [|done].
  destruct (len (ringTokens r) =? 0); [done|].
  destruct (go_div _ _) as [m| |]; simpl; [|done..].
  destruct (go_rem _ _) as [x| |]; simpl; [|done..].
  intros Hl.
  eapply (Get_loop_guarded r d op m (replicaInv op (ReplicationFactor (cfg r))));
    [| |exact Hl].
  - intros i s s'. apply replicaInv_visit.
  - unfold replicaInv, extending, len. simpl. lia.
Qed.

Lemma Get_candidates_count (r : Ring) (key : Z) (op : Op.Operation) (st : getState) :
  0 ≤ ReplicationFactor (cfg r) →
  Get_candidates r key op = Ok st →
  let stays := fun i : InstanceDesc =>
    Op.ShouldExtendReplicaSetOnState Op.state_code op (State i) = false in
  len (instances st) = len (distinctHosts st)
  ∧ len (instances st) = len (filter stays (instances st))
                         + len (extending op (instances st))
  ∧ len (filter stays (instances st)) ≤ ReplicationFactor (cfg r).
Proof.
  intros Hrf Hc N. apply Get_candidates_replicaInv in Hc as (Hlen & Hst & Hle); [|done].
  assert (len (instances st) = len (filter N (instances st))
                               + len (extending op (instances st))) as Hsplit.
  { unfold extending, len.
    pose proof (filter_split_perm N (instances st)) as Hperm.
    apply Permutation_length in Hperm. rewrite length_app in Hperm.
    assert (length (filter (fun x => ¬ N x) (instances st))
            = length (filter (fun i => Op.ShouldExtendReplicaSetOnState Op.state_code op
                                         (State i) = true) (instances st))) as Heq.
    { f_equal. apply list_filter_iff. intros i. unfold N.
      by destruct (Op.ShouldExtendReplicaSetOnState Op.state_code op (State i)). }
    lia. }
  split_and!; [done|done|lia].
Qed.

(** X11.  The size of the replica set of Get.  With a replication factor that is
    not negative, the walk of Get collects as many instances as hosts, and
    at most RF of them are in a state that does not extend the replica set:
    every candidate beyond RF is matched by one that extended it.  The
    replication strategy keeps candidates only, so the same bound holds for
    the instances Get returns; for an operation with no state both healthy
    and extending (Write, WriteNoExtend, Reporting) Get returns at most RF
    instances. *)
Theorem Get_replica_count (r : Ring) (key : Z) (op : Op.Operation) :
  0 ≤ ReplicationFactor (cfg r) →
  let RF := ReplicationFactor (cfg r) in
  let stays := fun i : InstanceDesc =>
    Op.ShouldExtendReplicaSetOnState Op.state_code op (State i) = false in
  (∀ st, Get_candidates r key op = Ok st →
     len (instances st) = len (distinctHosts st)
     ∧ len (instances st) = len (filter stays (instances st))
                            + len (extending op (instances st))
     ∧ len (filter stays (instances st)) ≤ RF)
  ∧ (∀ rs, Get E r key op = Ok rs →
       len (filter stays (Instances rs)) ≤ RF
       ∧ ((∀ s, Op.IsInstanceInStateHealthy Op.state_code op s = true →
               Op.ShouldExtendReplicaSetOnState Op.state_code op s = false) →
          len (Instances rs) ≤ RF)).
Proof.
  intros Hrf RF N.
  split; [intros st Hc; exact (Get_candidates_count r key op st Hrf Hc)|].
  intros rs. unfold Get.
  destruct (Get_candidates r key op) as [st| |] eqn:Hc; simpl; [|done..].
  destruct (Get_candidates_count r key op st Hrf Hc) as (_ & _ & Hnon).
  unfold Filter.
  set (P := fun i => IsHealthy E r i op (LastUpdateTime E) = true).
  destruct (len (filter P (instances st)) <? _); [done|].
  simpl. intros [= <-]. simpl.
  assert (len (filter N (filter P (instances st))) ≤ RF) as Hnon'.
  { etrans; [|exact Hnon]. unfold len. apply inj_le.
    rewrite list_filter_filter. apply length_filter_mono. tauto. }
  split; [done|].
  intros Hop. etrans; [|exact Hnon']. unfold len. apply inj_le.
  rewrite list_filter_filter. apply length_filter_mono.
  intros i Hi. split; [|done]. unfold N. apply Hop.
  unfold P, IsHealthy in Hi. by apply andb_true_iff in Hi as [? _].
Qed.

(** X12.  The errors of Get.  It fails with EmptyRing when the descriptor is nil
    or the ring has no token, before anything else, and its walk fails so in
    no other case.  On a ring with a descriptor and tokens Get panics,
    dividing by zero, when the ring lists no zone; with zones listed the
    walk never panics, it fails only with InconsistentTokensInfo and only
    when a token of the ring has no owner in the token map, and when every
    token has an owner it succeeds, so that the replication strategy
    decides the outcome. *)
Theorem Get_errors (r : Ring) (key : Z) (op : Op.Operation) :
  (ringDesc r = None ∨ ringTokens r = [] → Get E r key op = Err ErrEmptyRing)
  ∧ (Get_candidates r key op = Err ErrEmptyRing ↔ ringDesc r = None ∨ ringTokens r = [])
  ∧ (ringDesc r ≠ None → ringTokens r ≠ [] →
     (ringZones r = [] → Get E r key op = Panic DivideByZero)
     ∧ (ringZones r ≠ [] →
        (∀ p, Get_candidates r key op ≠ Panic p)
        ∧ (∀ e, Get_candidates r key op = Err e →
             e = ErrInconsistentTokensInfo
             ∧ Get E r key op = Err ErrInconsistentTokensInfo
             ∧ ∃ t, t ∈ ringTokens r ∧ ringInstanceByToken r !! t = None)
        ∧ ((∀ t, t ∈ ringTokens r → is_Some (ringInstanceByToken r !! t)) →
           ∃ st, Get_candidates r key op = Ok st))).
Proof.
  unfold Get, Get_candidates. destruct (ringDesc r) as [d|] eqn:Hd; simpl.
  2:{ split_and!; [done| |done]. split; [by left|done]. }
  destruct (len (ringTokens r) =? 0) eqn:Hz; simpl.
  { apply len_zero in Hz. split_and!; [done| |done]. split; [by right|done]. }
  assert (ringTokens r ≠ []) as Hne.
  { intros Hemp. apply len_zero in Hemp. congruence. }
  unfold go_div, go_rem.
  destruct (len (ringZones r) =? 0) eqn:Hzones; simpl.
  { apply len_zero in Hzones. split_and!.
    - intros [?|?]; done.
    - split; [done|]. intros [?|?]; done.
    - intros _ _. split; [done|]. done. }
  assert (ringZones r ≠ []) as Hzne.
  { intros Hemp. apply len_zero in Hemp. congruence. }
  match goal with |- context [Get_loop r d op ?m ?todo ?i ?st0] =>
    pose proof (Get_loop_outcome r d op m todo i st0 Hne) as Hout;
    destruct (Get_loop r d op m todo i st0) as [st| |] eqn:Hl end; simpl.
  - split_and!.
    + intros [?|?]; done.
    + split; [done|]. intros [?|?]; done.
    + intros _ _. split; [done|]. intros _. split_and!; try done. intros _. by exists st.
  - destruct Hout as [-> (t & Ht & Hnone)]. split_and!.
    + intros [?|?]; done.
    + split; [done|]. intros [?|?]; done.
    + intros _ _. split; [done|]. intros _. split_and!; try done.
      * intros e [= <-]. split_and!; [done..|]. by exists t.
      * intros Hall. destruct (Hall t Ht) as [info Hinfo]. congruence.
  - done.
Qed.

End GetCountTheorems.

Lemma Get_replica_count_witness :
  match Get Example.env Example.ring 35 Example.Write with
  | Ok rs => len (Instances rs) ≤ 3
  | _ => False
  end.
Proof.
  destruct (Get Example.env Example.ring 35 Example.Write) as [rs| |] eqn:H.
  - destruct (Get_replica_count Example.env Example.ring 35 Example.Write
                ltac:(by vm_compute)) as [_ Hget].
    destruct (Hget rs H) as [_ Hop].
    apply Hop. intros s. destruct s; vm_compute; congruence.
  - by vm_compute in H.
  - by vm_compute in H.
Defined.

(** ** The subring of a shuffle shard *)

Section ShardEntries.
Context (E : Env) (r : Ring) (d : Desc) (lookbackPeriod lookbackUntil : Z).
Hypothesis desc_present : ringDesc r = Some d.

Lemma fromDesc_insert (shard : gmap string InstanceDesc) (id : string) :
  fromDesc d shard → fromDesc d (<[id := index_or_zero (Ingesters d) id]> shard).
Proof.
  intros Hs id' i. rewrite lookup_insert. case_decide as Hid; [|apply Hs].
  subst id'. by intros [= <-].
Qed.

Lemma shardWalk_fromDesc (tokens : list Z) (todo p : nat)
    (shard shard' : gmap string InstanceDesc) (found : bool) :
  fromDesc d shard →
  shardWalk r lookbackPeriod lookbackUntil tokens todo p shard = Ok (shard', found) →
  fromDesc d shard'.
Proof.
  revert p shard. induction todo as [|todo IH]; intros p shard Hs; simpl.
  { by intros [= <- <-]. }
  destruct (tokens !! (p mod length tokens)%nat) as [token|]; [|done].
  destruct (ringInstanceByToken r !! token) as [info|]; [|done].
  destruct (shard !! InstanceID info) as [present|]; [by apply IH|].
  rewrite desc_present. destruct (keepsWalking _ _ _).
  - apply IH. by apply fromDesc_insert.
  - intros [= <- <-]. by apply fromDesc_insert.
Qed.

Lemma shardDraws_fromDesc (identifier zone : string) (tokens : list Z) (todo i : nat)
    (shard shard' : gmap string InstanceDesc) :
  fromDesc d shard →
  shardDraws E r lookbackPeriod lookbackUntil identifier zone tokens todo i shard
    = Ok shard' →
  fromDesc d shard'.
Proof.
  revert i shard. induction todo as [|todo IH]; intros i shard Hs; simpl.
  { by intros [= <-]. }
  destruct (shardWalk _ _ _ _ _ _ _) as [[s f]| |] eqn:Hw; simpl; [|done..].
  apply shardWalk_fromDesc in Hw; [|done]. destruct f; [by apply IH|].
  by intros [= <-].
Qed.

Lemma shardZones_fromDesc (identifier : string) (p : Z) (zones : list string)
    (shard shard' : gmap string InstanceDesc) (e : Z) :
  fromDesc d shard →
  shardZones E r lookbackPeriod lookbackUntil identifier p zones shard e = Ok shard' →
  fromDesc d shard'.
Proof.
  revert shard e. induction zones as [|zone zones IH]; intros shard e Hs.
  { simpl. by intros [= <-]. }
  rewrite shardZones_cons.
  destruct (shardDraws _ _ _ _ _ _ _ _ _ _) as [s| |] eqn:Hd; simpl; [|done..].
  apply shardDraws_fromDesc in Hd; [|done]. by apply IH.
Qed.

End ShardEntries.

Lemma shuffleShard_instances_fromDesc (E : Env) (r : Ring) (d : Desc)
    (identifier : string) (size lookbackPeriod now : Z) (zoneStableSharding : bool)
    (shard : gmap string InstanceDesc) :
  ringDesc r = Some d →
  shuffleShard_instances E r identifier size lookbackPeriod now zoneStableSharding
    = Ok shard →
  fromDesc d shard.
Proof.
  intros Hd. unfold shuffleShard_instances.
  destruct (shardPlan r size _) as [[[p z] e]| |]; simpl; [|done..].
  apply (shardZones_fromDesc E r d _ _ Hd). by intros id i.
Qed.

Section SubringFacts.
Context (E : Env).

(** X13.  The subring shuffleShard builds, on a ring whose token views agree with
    its descriptor.  Every instance of the subring is an instance of the
    ring, with the same descriptor entry, so HasInstance and
    GetInstanceState on the subring agree with the ring for the instances it
    holds.  The subring shares the configuration and the topology stamp of
    the ring, holds no cache of its own, and carries no address index:
    GetInstanceIdByAddr on it finds no address. *)
Theorem shuffleShard_subring (r : Ring) (d : Desc) (identifier : string)
    (size lookbackPeriod now : Z) (zoneStableSharding : bool) (sub : Ring) :
  ringDesc r = Some d →
  shard_consistent r d →
  (ZoneAwarenessEnabled (cfg r) = true → NoDup (ringZones r) ∧ zones_owned r) →
  shuffleShard E r identifier size lookbackPeriod now zoneStableSharding = Ok sub →
  (∃ sd, ringDesc sub = Some sd ∧ Ingesters sd ⊆ Ingesters d)
  ∧ (∀ id, HasInstance sub id = true →
       HasInstance r id = true ∧ GetInstanceState sub id = GetInstanceState r id)
  ∧ (∀ addr, GetInstanceIdByAddr sub addr = Err ErrInstanceNotFound)
  ∧ cfg sub = cfg r
  ∧ lastTopologyChange sub = lastTopologyChange r
  ∧ shuffledSubringCache sub = None.
Proof.
  intros Hd Hcons Hzones. unfold shuffleShard.
  destruct (shuffleShard_instances E r identifier size lookbackPeriod now
              zoneStableSharding) as [shard| |] eqn:Hsh; simpl; [|done..].
  intros [= <-].
  pose proof (shuffleShard_instances_fromDesc _ _ _ _ _ _ _ _ _ Hd Hsh) as Hfrom.
  pose proof (shuffleShard_instances_known E r d Hd Hcons Hzones _ _ _ _ _ _ Hsh)
    as Hknown.
  assert (shard ⊆ Ingesters d) as Hsub.
  { apply map_subseteq_spec. intros id i Hi.
    assert (id ∈ dom (Ingesters d)) as Hin by (apply Hknown; by apply elem_of_dom).
    apply elem_of_dom in Hin as [j Hj]. rewrite (Hfrom id i Hi).
    unfold index_or_zero. by rewrite Hj. }
  split_and!; try done.
  - by eexists.
  - intros id. unfold HasInstance, GetInstanceState. rewrite Hd. simpl.
    destruct (shard !! id) as [i|] eqn:Hi; [|done].
    by rewrite (lookup_weaken _ _ _ _ Hi Hsub).
Qed.

End SubringFacts.

Lemma shuffleShard_subring_witness :
  match shuffleShard Example.env Example.ring "t" 3 0 (now Example.env) false with
  | Ok sub => (∃ sd, ringDesc sub = Some sd ∧ Ingesters sd ⊆ Example.ingesters)
              ∧ ∀ addr, GetInstanceIdByAddr sub addr = Err ErrInstanceNotFound
  | _ => False
  end.
Proof.
  destruct (shuffleShard Example.env Example.ring "t" 3 0 (now Example.env) false)
    as [sub| |] eqn:H.
  - assert (ZoneAwarenessEnabled (cfg Example.ring) = true →
            NoDup (ringZones Example.ring) ∧ zones_owned Example.ring) as Hz.
    { intros _. split; [|exact zones_owned_ring].
      apply (bool_decide_unpack (NoDup (ringZones Example.ring))). by vm_compute. }
    destruct (shuffleShard_subring Example.env Example.ring Example.desc "t" 3 0
                (now Example.env) false sub eq_refl shard_consistent_ring Hz H)
      as (Hsd & _ & Haddr & _).
    exact (conj Hsd Haddr).
  - by vm_compute in H.
  - by vm_compute in H.
Defined.

(** ** Shuffle sharding through the cache *)

Lemma patch_fixed (parent m : gmap string InstanceDesc) :
  (∀ name c, m !! name = Some c → patchedInstance parent name c = c) →
  foldl (patchInstance parent) m (map_to_list m) = m.
Proof.
  intros Hfix. apply map_eq. intros name. rewrite patch_lookup.
  destruct (m !! name) as [c|] eqn:Hc; [|done]. simpl. by rewrite (Hfix name c Hc).
Qed.

Lemma patchedInstance_fromDesc (d : Desc) (name : string) :
  patchedInstance (Ingesters d) name (index_or_zero (Ingesters d) name)
  = index_or_zero (Ingesters d) name.
Proof. unfold patchedInstance. by destruct (index_or_zero (Ingesters d) name). Qed.

Section StableFacts.
Context (E : Env).

(** Only the cache field decides what the cache lookup sees; the selection
    itself never reads the cache. *)
Lemma shardWalk_with_cache (r : Ring) (c : option (gmap subringCacheKey Ring))
    (lp lu : Z) (tokens : list Z) (todo p : nat) (shard : gmap string InstanceDesc) :
  shardWalk (with_cache r c) lp lu tokens todo p shard
  = shardWalk r lp lu tokens todo p shard.
Proof.
  revert p shard. induction todo as [|todo IH]; intros p shard; simpl; [done|].
  destruct (tokens !! (p mod length tokens)%nat) as [token|]; [|done].
  destruct (ringInstanceByToken r !! token) as [info|]; [|done].
  destruct (shard !! InstanceID info); [apply IH|].
  destruct (ringDesc r) as [d|]; [|done].
  destruct (keepsWalking _ _ _); [apply IH|done].
Qed.

Lemma shardDraws_with_cache (r : Ring) (c : option (gmap subringCacheKey Ring))
    (lp lu : Z) (identifier zone : string) (tokens : list Z) (todo i : nat)
    (shard : gmap string InstanceDesc) :
  shardDraws E (with_cache r c) lp lu identifier zone tokens todo i shard
  = shardDraws E r lp lu identifier zone tokens todo i shard.
Proof.
  revert i shard. induction todo as [|todo IH]; intros i shard; simpl; [done|].
  rewrite shardWalk_with_cache.
  destruct (shardWalk _ _ _ _ _ _ _) as [[s f]| |]; simpl; [|done..].
  destruct f; [apply IH|done].
Qed.

Lemma shardZones_with_cache (r : Ring) (c : option (gmap subringCacheKey Ring))
    (lp lu : Z) (identifier : string) (p : Z) (zones : list string)
    (shard : gmap string InstanceDesc) (e : Z) :
  shardZones E (with_cache r c) lp lu identifier p zones shard e
  = shardZones E r lp lu identifier p zones shard e.
Proof.
  revert shard e. induction zones as [|zone zones IH]; intros shard e; [done|].
  rewrite !shardZones_cons. change (zoneTokens (with_cache r c) zone) with (zoneTokens r zone).
  rewrite shardDraws_with_cache.
  destruct (shardDraws _ _ _ _ _ _ _ _ _ _) as [s| |]; simpl; [|done..]. apply IH.
Qed.

Lemma shuffleShard_instances_with_cache (r : Ring)
    (c : option (gmap subringCacheKey Ring)) (identifier : string)
    (size lp now : Z) (zoneStableSharding : bool) :
  shuffleShard_instances E (with_cache r c) identifier size lp now zoneStableSharding
  = shuffleShard_instances E r identifier size lp now zoneStableSharding.
Proof.
  unfold shuffleShard_instances.
  change (shardPlan (with_cache r c) size zoneStableSharding)
    with (shardPlan r size zoneStableSharding).
  destruct (shardPlan r size zoneStableSharding) as [[[p z] e]| |]; simpl; [|done..].
  apply shardZones_with_cache.
Qed.

Lemma with_cache_same (r : Ring) : with_cache r (shuffledSubringCache r) = r.
Proof. by destruct r. Qed.

(** A cache entry that the patch does not change is returned as it is, and
    the ring stays as it is. *)
Lemma getCachedShuffledSubring_fixed (r : Ring) (d : Desc)
    (cache : gmap subringCacheKey Ring) (ident : string) (size : Z) (stable : bool)
    (cached : Ring) (m : gmap string InstanceDesc) :
  SubringCacheDisabled (cfg r) = false →
  ringDesc r = Some d →
  shuffledSubringCache r = Some cache →
  cache !! {| identifier := ident; shardSize := size; zoneStableSharding := stable |}
    = Some cached →
  ringDesc cached = Some {| Ingesters := m |} →
  (∀ name c, m !! name = Some c → patchedInstance (Ingesters d) name c = c) →
  getCachedShuffledSubring r ident size stable = Ok (r, Some cached).
Proof.
  intros Hdis Hd Hcache Hkey Hcd Hfix. unfold getCachedShuffledSubring.
  rewrite Hdis, Hcache, Hkey, Hcd, Hd. simpl. rewrite (patch_fixed _ _ Hfix).
  assert (with_ringDesc cached (Some {| Ingesters := m |}) = cached) as ->.
  { destruct cached. simpl in *. by subst. }
  rewrite (insert_id _ _ _ Hkey). rewrite <- Hcache. by rewrite with_cache_same.
Qed.

(** What a shuffle shard call does to the ring: nothing but the cache
    changes, and the call that follows on the ring as it then is returns the
    same subring and changes nothing further. *)
Lemma shuffleShardWithCache_again (r : Ring) (ident : string) (size : Z)
    (stable : bool) (r1 sub : Ring) :
  shuffleShardWithCache E r ident size stable = Ok (r1, sub) →
  r1 = with_cache r (shuffledSubringCache r1)
  ∧ shuffleShardWithCache E r1 ident size stable = Ok (r1, sub).
Proof.
  unfold shuffleShardWithCache.
  destruct (Z.leb_spec size 0) as [Hs|Hs].
  { intros [= <- <-]. by rewrite with_cache_same. }
  unfold InstancesCount. destruct (ringDesc r) as [d|] eqn:Hd; simpl; [|done].
  destruct (Z.leb_spec (map_len (Ingesters d)) size) as [Hc|Hc].
  { intros [= <- <-]. rewrite with_cache_same, Hd. simpl.
    destruct (Z.leb_spec (map_len (Ingesters d)) size); [done|lia]. }
  assert ((map_len (Ingesters d) <=? size) = false) as Hc'.
  { apply Z.leb_gt. lia. }
  set (key := {| identifier := ident; shardSize := size; zoneStableSharding := stable |}).
  destruct (getCachedShuffledSubring r ident size stable) as [[r' hit]| |] eqn:Hget;
    simpl; [|done..].
  destruct (SubringCacheDisabled (cfg r)) eqn:Hdis.
  { (* no cache: the subring is computed at every call *)
    unfold getCachedShuffledSubring in Hget. rewrite Hdis in Hget.
    injection Hget as <- <-.
    destruct (shuffleShard E r ident size 0 (now E) stable) as [res| |] eqn:Hres;
      simpl; [|done..].
    unfold setCachedShuffledSubring. rewrite Hdis. intros [= <- <-].
    rewrite with_cache_same, Hd. simpl. rewrite Hc'.
    unfold getCachedShuffledSubring. rewrite ?Hdis, ?Hcache. simpl.
    rewrite Hres. simpl. unfold setCachedShuffledSubring. by rewrite ?Hdis, ?Hcache. }
  destruct (shuffledSubringCache r) as [cache|] eqn:Hcache.
  2:{ unfold getCachedShuffledSubring in Hget. rewrite Hdis, Hcache in Hget.
      injection Hget as <- <-.
      destruct (shuffleShard E r ident size 0 (now E) stable) as [res| |] eqn:Hres;
        simpl; [|done..].
      unfold setCachedShuffledSubring. rewrite Hdis, Hcache. intros [= <- <-].
      rewrite with_cache_same, Hd. simpl. rewrite Hc'.
    unfold getCachedShuffledSubring. rewrite ?Hdis, ?Hcache. simpl.
    rewrite Hres. simpl. unfold setCachedShuffledSubring. by rewrite ?Hdis, ?Hcache. }
  unfold getCachedShuffledSubring in Hget. rewrite Hdis, Hcache in Hget. fold key in Hget.
  destruct (cache !! key) as [cached|] eqn:Hkey.
  - (* a hit: the entry is patched, and patching it again changes nothing *)
    destruct (ringDesc cached) as [cd|] eqn:Hcd; [|done]. rewrite Hd in Hget.
    injection Hget as <- <-. intros [= <- <-]. simpl. split; [done|].
    rewrite Hd. simpl. rewrite Hc'.
    erewrite (getCachedShuffledSubring_fixed _ d); [done|done|done|done| |done|].
    + apply lookup_insert_eq.
    + simpl. intros name c Hl. rewrite patch_lookup in Hl.
      destruct (Ingesters cd !! name) as [c0|]; [|done]. simpl in Hl.
      by injection Hl as <-.
  - (* a miss: the subring computed is stored, and found by the next call *)
    injection Hget as <- <-.
    destruct (shuffleShard E r ident size 0 (now E) stable) as [res| |] eqn:Hres;
      simpl; [|done..].
    assert (∃ shard, shuffleShard_instances E r ident size 0 (now E) stable = Ok shard
                     ∧ ringDesc res = Some {| Ingesters := shard |}
                     ∧ lastTopologyChange res = lastTopologyChange r)
      as (shard & Hsh & Hrd & Hstamp).
    { revert Hres. unfold shuffleShard.
      destruct (shuffleShard_instances E r ident size 0 (now E) stable) as [shard| |];
        simpl; [|done..].
      intros [= <-]. by exists shard. }
    unfold setCachedShuffledSubring. rewrite Hdis, Hcache, Hstamp, Z.eqb_refl.
    fold key. intros [= <- <-]. simpl. split; [done|].
    rewrite Hd. simpl. rewrite Hc'.
    erewrite (getCachedShuffledSubring_fixed _ d); [done|done|done|done| |exact Hrd|].
    + apply lookup_insert_eq.
    + intros name c Hl.
      rewrite (shuffleShard_instances_fromDesc _ _ _ _ _ _ _ _ _ Hd Hsh name c Hl).
      apply patchedInstance_fromDesc.
Qed.

(** X14.  Stability through the cache: a shuffle shard call changes nothing of
    the ring but its cache, and calling again with the same identifier and
    size, on the ring as the first call left it, returns the same subring
    and leaves the ring as it is.  This holds with the cache enabled,
    disabled or nil, at a hit and at a miss. *)
Theorem ShuffleShard_stable (r : Ring) (identifier : string) (size : Z) (r1 sub : Ring) :
  (ShuffleShard E r identifier size = Ok (r1, sub) →
   r1 = with_cache r (shuffledSubringCache r1)
   ∧ ShuffleShard E r1 identifier size = Ok (r1, sub))
  ∧ (ShuffleShardWithZoneStability E r identifier size = Ok (r1, sub) →
     r1 = with_cache r (shuffledSubringCache r1)
     ∧ ShuffleShardWithZoneStability E r1 identifier size = Ok (r1, sub)).
Proof.
  split; apply shuffleShardWithCache_again.
Qed.

(** X15.  The cache stays coherent.  On a ring whose cached subrings hold the
    instances shuffle sharding selects, a shuffle shard call leaves such a
    ring, and so does CleanupShuffleShardCache; the ring
    NewWithStoreClientAndStrategy builds is such a ring, and so is the ring
    after an update that RingCompare classifies as Different or as
    EqualButReadOnly. *)
Theorem cache_coherent_kept (r : Ring) :
  (cache_coherent E r →
   (∀ ident size stable r1 sub,
      shuffleShardWithCache E r ident size stable = Ok (r1, sub) →
      cache_coherent E r1)
   ∧ (∀ ident, cache_coherent E (CleanupShuffleShardCache r ident)))
  ∧ (∀ newDesc,
       RingCompare E (ringDesc r) (filterExcludedZones r newDesc) = Different
       ∨ RingCompare E (ringDesc r) (filterExcludedZones r newDesc) = EqualButReadOnly →
       cache_coherent E (updateRingState E r newDesc))
  ∧ (∀ cfg0, NewWithStoreClientAndStrategy cfg0 = Some r → cache_coherent E r).
Proof.
  split_and!.
  - intros Hcoh. split.
    + intros ident size stable r1 sub Hcall.
      pose proof (shuffleShardWithCache_again _ _ _ _ _ _ Hcall) as [Hr1 _].
      intros cache1 key1 cached1 Hcache1 Hkey1. rewrite Hr1.
      rewrite shuffleShard_instances_with_cache.
      revert Hcall. unfold shuffleShardWithCache.
      destruct (size <=? 0); [intros [= <- <-]; by eapply Hcoh|].
      destruct (InstancesCount r) as [count| |]; simpl; [|done..].
      destruct (count <=? size); [intros [= <- <-]; by eapply Hcoh|].
      set (key := {| identifier := ident; shardSize := size;
                     zoneStableSharding := stable |}).
      assert ((res ← shuffleShard E r ident size 0 (now E) stable;
               Ok (setCachedShuffledSubring r ident size stable res, res))
              = Ok (r1, sub) →
              ∃ (cd : Desc) (fresh : gmap string InstanceDesc),
                ringDesc cached1 = Some cd
                ∧ shuffleShard_instances E r (identifier key1) (shardSize key1) 0
                    (now E) (zoneStableSharding key1) = Ok fresh
                ∧ dom (Ingesters cd) = dom fresh) as Hmiss.
      { unfold shuffleShard.
        destruct (shuffleShard_instances E r ident size 0 (now E) stable)
          as [shard| |] eqn:Hsh; simpl; [|done..].
        unfold setCachedShuffledSubring.
        destruct (SubringCacheDisabled (cfg r)); [intros [= <- <-]; by eapply Hcoh|].
        destruct (shuffledSubringCache r) as [cache|] eqn:Hcache;
          [|intros [= <- <-]; rewrite Hcache in Hcache1; done].
        simpl. rewrite Z.eqb_refl. fold key. intros [= <- <-]. simpl in Hcache1.
        injection Hcache1 as <-. rewrite lookup_insert in Hkey1.
        case_decide as Hk.
        - injection Hkey1 as <-. subst key1. simpl. by eexists _, shard.
        - by eapply Hcoh. }
      unfold getCachedShuffledSubring. fold key.
      destruct (SubringCacheDisabled (cfg r)); simpl; [done|].
      destruct (shuffledSubringCache r) as [cache|] eqn:Hcache; simpl; [|done].
      destruct (cache !! key) as [cached|] eqn:Hkey; simpl; [|done].
      destruct (ringDesc cached) as [cd|] eqn:Hcd; simpl; [|done].
      destruct (ringDesc r) as [d|] eqn:Hd; simpl.
      * intros [= <- <-]. simpl in Hcache1. injection Hcache1 as <-.
        rewrite lookup_insert in Hkey1. case_decide as Hk; [|by eapply Hcoh].
        injection Hkey1 as <-. subst key1.
        destruct (Hcoh cache key cached Hcache Hkey) as (cd' & fresh & Hcd' & Hf & Hdom).
        assert (cd' = cd) as -> by congruence.
        eexists _, fresh. split_and!; [done|done|]. simpl. rewrite <- Hdom.
        apply set_eq. intros name. rewrite !elem_of_dom, patch_lookup.
        by rewrite fmap_is_Some.
      * destruct (map_len (Ingesters cd) =? 0); simpl; [|done].
        intros [= <- <-]. exact (Hcoh _ _ _ Hcache1 Hkey1).
    + intros ident cache1 key1 cached1 Hcache1 Hkey1.
      rewrite CleanupShuffleShardCache_frame, shuffleShard_instances_with_cache.
      rewrite CleanupShuffleShardCache_cache in Hcache1.
      destruct (SubringCacheDisabled (cfg r)); [by eapply Hcoh|].
      destruct (shuffledSubringCache r) as [cache|] eqn:Hcache; [|done].
      simpl in Hcache1. injection Hcache1 as <-.
      apply map_lookup_filter_Some in Hkey1 as [Hkey1 _]. by eapply Hcoh.
  - intros newDesc Hrc cache1 key1 cached1 Hcache1 Hkey1. exfalso.
    revert Hcache1. unfold updateRingState.
    destruct Hrc as [Hrc|Hrc]; rewrite Hrc; simpl;
      destruct (shuffledSubringCache r) eqn:Hc; simpl; rewrite ?Hc;
      intros [= <-]; by rewrite lookup_empty in Hkey1.
  - intros cfg0. unfold NewWithStoreClientAndStrategy.
    destruct (ReplicationFactor cfg0 <=? 0); [done|]. intros [= <-].
    intros cache1 key1 cached1 [= <-] Hkey1. by rewrite lookup_empty in Hkey1.
Qed.

End StableFacts.

Lemma ShuffleShard_stable_witness :
  match ShuffleShard Example.env Example.ring "t" 3 with
  | Ok (r1, sub) => ShuffleShard Example.env r1 "t" 3 = Ok (r1, sub)
  | _ => False
  end.
Proof.
  destruct (ShuffleShard Example.env Example.ring "t" 3) as [[r1 sub]| |] eqn:H.
  - exact (proj2 (proj1 (ShuffleShard_stable Example.env Example.ring "t" 3 r1 sub) H)).
  - by vm_compute in H.
  - by vm_compute in H.
Defined.

Lemma cache_coherent_kept_witness :
  cache_coherent Example.env (CleanupShuffleShardCache Example.ring "t").
Proof.
  exact (proj2 (proj1 (cache_coherent_kept Example.env Example.ring) cache_coherent_ring)
           "t").
Defined.

(** ** The size of a shuffle shard *)

Section ShardSize.
Context (E : Env) (r : Ring) (lookbackPeriod lookbackUntil : Z).

Lemma settled_insert (shard : gmap string InstanceDesc) (id : string) (i : InstanceDesc) :
  shard !! id = None →
  size (settled lookbackPeriod lookbackUntil (<[id := i]> shard))
  = (size (settled lookbackPeriod lookbackUntil shard)
     + (if keepsWalking lookbackPeriod lookbackUntil i then 0 else 1))%nat.
Proof.
  intros Hnew. unfold settled. rewrite map_filter_insert. simpl.
  destruct (keepsWalking lookbackPeriod lookbackUntil i) eqn:Hk.
  - rewrite decide_False by done. rewrite delete_id by done. lia.
  - rewrite decide_True by done. rewrite map_size_insert_None; [lia|].
    apply map_lookup_filter_None. by left.
Qed.

(** A walk puts one instance that ends a draw into the shard when it finds
    one, and none otherwise. *)
Lemma shardWalk_settled (tokens : list Z) (todo p : nat)
    (shard shard' : gmap string InstanceDesc) (found : bool) :
  shardWalk r lookbackPeriod lookbackUntil tokens todo p shard = Ok (shard', found) →
  size (settled lookbackPeriod lookbackUntil shard')
  = (size (settled lookbackPeriod lookbackUntil shard) + (if found then 1 else 0))%nat.
Proof.
  revert p shard. induction todo as [|todo IH]; intros p shard; simpl.
  { intros [= <- <-]. lia. }
  destruct (tokens !! (p mod length tokens)%nat) as [token|]; [|done].
  destruct (ringInstanceByToken r !! token) as [info|]; [|done].
  destruct (shard !! InstanceID info) as [present|] eqn:Hin; [by apply IH|].
  destruct (ringDesc r) as [d|]; [|done].
  pose proof (settled_insert shard (InstanceID info)
                (index_or_zero (Ingesters d) (InstanceID info)) Hin) as Hins.
  destruct (keepsWalking _ _ _).
  - intros Hw. apply IH in Hw. lia.
  - intros [= <- <-]. lia.
Qed.

Lemma shardDraws_settled (identifier zone : string) (tokens : list Z) (todo i : nat)
    (shard shard' : gmap string InstanceDesc) :
  shardDraws E r lookbackPeriod lookbackUntil identifier zone tokens todo i shard
    = Ok shard' →
  (size (settled lookbackPeriod lookbackUntil shard')
   ≤ size (settled lookbackPeriod lookbackUntil shard) + todo)%nat.
Proof.
  revert i shard. induction todo as [|todo IH]; intros i shard; simpl.
  { intros [= <-]. lia. }
  destruct (shardWalk _ _ _ _ _ _ _) as [[s f]| |] eqn:Hw; simpl; [|done..].
  apply shardWalk_settled in Hw. destruct f.
  - intros Hd. apply IH in Hd. lia.
  - intros [= <-]. lia.
Qed.

Lemma shardZones_settled (identifier : string) (p : Z) (zones : list string)
    (shard shard' : gmap string InstanceDesc) (e : Z) :
  shardZones E r lookbackPeriod lookbackUntil identifier p zones shard e = Ok shard' →
  (size (settled lookbackPeriod lookbackUntil shard')
   ≤ size (settled lookbackPeriod lookbackUntil shard) + plannedDraws p e zones)%nat.
Proof.
  revert shard e. induction zones as [|zone zones IH]; intros shard e.
  { simpl. intros [= <-]. lia. }
  rewrite shardZones_cons.
  destruct (shardDraws _ _ _ _ _ _ _ _ _ _) as [s| |] eqn:Hd; simpl; [|done..].
  apply shardDraws_settled in Hd. intros Hz. apply IH in Hz. lia.
Qed.

End ShardSize.

Lemma plannedDraws_total (p e : Z) (zones : list string) :
  0 ≤ p → 0 ≤ e →
  Z.of_nat (plannedDraws p e zones) = p * len zones + Z.min e (len zones).
Proof.
  intros Hp. revert e. induction zones as [|zone zones IH]; intros e He.
  { unfold len. simpl. lia. }
  simpl plannedDraws. rewrite Nat2Z.inj_add.
  unfold quota, nextExtra, len in *. simpl length. rewrite Nat2Z.inj_succ.
  destruct (Z.ltb_spec 0 e) as [Hpos|Hzero].
  - rewrite IH by lia. rewrite Z2Nat.id by lia. lia.
  - rewrite IH by lia. rewrite Z2Nat.id by lia. lia.
Qed.

(** The draws planned for a shard size that is not negative: the size
    itself with zone-stable sharding and without zone-awareness, and
    [ceil(size / |zones|)] for each zone with the default sharding. *)
Lemma shardPlan_planned (r : Ring) (sz : Z) (zoneStableSharding : bool)
    (p e : Z) (zones : list string) :
  0 ≤ sz →
  shardPlan r sz zoneStableSharding = Ok (p, zones, e) →
  Z.of_nat (plannedDraws p e zones)
  = if ZoneAwarenessEnabled (cfg r) && negb zoneStableSharding
    then ShuffleShardExpectedInstancesPerZone sz (len (ringZones r)) * len (ringZones r)
    else sz.
Proof.
  intros Hsize. unfold shardPlan.
  destruct (ZoneAwarenessEnabled (cfg r)); simpl.
  - destruct zoneStableSharding; simpl.
    + unfold go_div, go_rem.
      destruct (Z.eqb_spec (len (ringZones r)) 0) as [|Hn]; [done|]. simpl.
      intros [= <- <- <-].
      assert (0 < len (ringZones r)) as Hpos by (unfold len in *; lia).
      pose proof (Z.quot_rem' sz (len (ringZones r))) as Hqr.
      pose proof (Z.rem_bound_pos sz (len (ringZones r)) Hsize Hpos) as Hrem.
      pose proof (Z.quot_pos sz (len (ringZones r)) Hsize Hpos) as Hquot.
      rewrite plannedDraws_total by lia. lia.
    + intros [= <- <- <-]. unfold ShuffleShardExpectedInstancesPerZone.
      destruct (Z.eqb_spec (len (ringZones r)) 0) as [Hn|Hn].
      * assert (ringZones r = []) as -> by (by apply len_zero, Z.eqb_eq).
        unfold len. simpl. lia.
      * assert (0 < len (ringZones r)) as Hpos by (unfold len in *; lia).
        assert (0 ≤ (sz + len (ringZones r) - 1) `div` len (ringZones r))
          by (apply Z.div_pos; lia).
        rewrite plannedDraws_total by lia. lia.
  - intros [= <- <- <-]. rewrite plannedDraws_total by lia. unfold len. simpl. lia.
Qed.

Section ShardSizeTheorem.
Context (E : Env).

(** X16.  The shard size is an upper bound.  Of the instances [shuffleShard]
    selects, those that are not READONLY and did not register within the
    lookback period number at most the shard size, with zone-stable
    sharding and without zone-awareness, and at most
    [ceil(size / |zones|) * |zones|] with the default sharding across
    zones.  Hence, without lookback, a subring none of whose instances is
    READONLY holds no more instances than that. *)
Theorem shuffleShard_size_bound (r : Ring) (identifier : string)
    (sz lookbackPeriod now : Z) (zoneStableSharding : bool) (sub : Ring) :
  0 ≤ sz →
  shuffleShard E r identifier sz lookbackPeriod now zoneStableSharding = Ok sub →
  let bound :=
    if ZoneAwarenessEnabled (cfg r) && negb zoneStableSharding
    then ShuffleShardExpectedInstancesPerZone sz (len (ringZones r)) * len (ringZones r)
    else sz in
  ∃ sd, ringDesc sub = Some sd
    ∧ map_len (settled lookbackPeriod (Unix_of (now - lookbackPeriod)) (Ingesters sd))
      ≤ bound
    ∧ (lookbackPeriod ≤ 0 →
       (∀ id i, Ingesters sd !! id = Some i → State i ≠ READONLY) →
       map_len (Ingesters sd) ≤ bound).
Proof.
  intros Hsize. unfold shuffleShard, shuffleShard_instances.
  destruct (shardPlan r sz zoneStableSharding) as [[[p zones] e]| |] eqn:Hplan;
    simpl; [|done..].
  destruct (shardZones _ _ _ _ _ _ _ _ _) as [shard| |] eqn:Hz; simpl; [|done..].
  intros [= <-]. simpl. exists {| Ingesters := shard |}. simpl.
  apply shardZones_settled in Hz.
  assert (size (settled lookbackPeriod (Unix_of (now - lookbackPeriod))
                  (∅ : gmap string InstanceDesc)) = 0%nat) as Hempty.
  { unfold settled. by rewrite map_filter_empty. }
  rewrite Hempty in Hz. simpl in Hz.
  pose proof (shardPlan_planned r sz zoneStableSharding p e zones Hsize Hplan) as Hplanned.
  split_and!; [done| |].
  - unfold map_len. lia.
  - intros Hlp Hro.
    assert (settled lookbackPeriod (Unix_of (now - lookbackPeriod)) shard = shard) as Hall.
    { unfold settled. apply map_filter_id. intros id i Hi. simpl.
      unfold keepsWalking. destruct (Z.ltb_spec 0 lookbackPeriod); [lia|]. simpl.
      apply bool_decide_eq_false. by eapply Hro. }
    rewrite Hall in Hz. unfold map_len. lia.
Qed.

End ShardSizeTheorem.

Lemma shuffleShard_size_bound_witness :
  match shuffleShard Example.env Example.ring "t" 3 0 (now Example.env) true with
  | Ok sub => ∃ sd, ringDesc sub = Some sd ∧ map_len (Ingesters sd) ≤ 3
  | _ => False
  end.
Proof.
  destruct (shuffleShard Example.env Example.ring "t" 3 0 (now Example.env) true)
    as [sub| |] eqn:H.
  - destruct (shuffleShard_size_bound Example.env Example.ring "t" 3 0
                (now Example.env) true sub ltac:(lia) H) as (sd & Hsd & _ & Hall).
    exists sd. split; [exact Hsd|]. apply Hall; [lia|].
    revert Hsd. vm_compute in H. injection H as <-. intros [= <-].
    apply (bool_decide_unpack
             (map_Forall (fun (_ : string) (i : InstanceDesc) => State i ≠ READONLY) _)).
    by vm_compute.
  - by vm_compute in H.
  - by vm_compute in H.
Defined.

(** ** Shuffle sharding with a lookback period *)

Lemma walkOrder_full (tokens : list Z) (p : nat) (t : Z) :
  t ∈ tokens → t ∈ walkOrder tokens p (length tokens).
Proof.
  intros Ht. apply list_elem_of_lookup_1 in Ht as [k Hk].
  pose proof (lookup_lt_Some _ _ _ Hk) as Hlt.
  set (n := length tokens) in *. set (a := (p mod n)%nat).
  assert (a < n)%nat as Ha by (apply Nat.mod_upper_bound; lia).
  set (j := if decide (a ≤ k)%nat then (k - a)%nat else (k + n - a)%nat).
  assert (j < n)%nat as Hj by (unfold j; case_decide; lia).
  assert (((p + j) mod n)%nat = k) as Hmod.
  { rewrite <- Nat.Div0.add_mod_idemp_l. fold a. unfold j. case_decide.
    - replace (a + (k - a))%nat with k by lia. by apply Nat.mod_small.
    - replace (a + (k + n - a))%nat with (k + 1 * n)%nat by lia.
      rewrite Nat.Div0.mod_add. by apply Nat.mod_small. }
  unfold walkOrder. apply list_elem_of_fmap. exists j. split.
  - fold n. rewrite Hmod. symmetry. by apply list_lookup_total_correct.
  - apply elem_of_seq. lia.
Qed.

(** A walk that went through all its iterations without finding an
    instance leaves the owner of every token it met in the shard. *)
Lemma shardWalk_visits (r : Ring) (lp lu : Z) (tokens : list Z) (todo p : nat)
    (shard shard' : gmap string InstanceDesc) :
  shardWalk r lp lu tokens todo p shard = Ok (shard', false) →
  ∀ t info, t ∈ walkOrder tokens p todo →
    ringInstanceByToken r !! t = Some info → InstanceID info ∈ dom shard'.
Proof.
  revert p shard. induction todo as [|todo IH]; intros p shard; simpl.
  { intros _ t info Ht. unfold walkOrder in Ht. simpl in Ht. by apply elem_of_nil in Ht. }
  destruct (tokens !! (p mod length tokens)%nat) as [token|] eqn:Htok; [|done].
  destruct (ringInstanceByToken r !! token) as [info0|] eqn:Hinfo; [|done].
  intros Hw t info Ht Hi. rewrite walkOrder_S in Ht.
  rewrite (list_lookup_total_correct _ _ _ Htok) in Ht.
  apply elem_of_cons in Ht as [->|Ht].
  - assert (info = info0) as -> by congruence.
    destruct (shard !! InstanceID info0) as [present|] eqn:Hin.
    + apply shardWalk_grows in Hw as [Hgrow _]. apply subseteq_dom in Hgrow.
      apply Hgrow, elem_of_dom. by rewrite Hin.
    + destruct (ringDesc r) as [d|]; [|done].
      destruct (keepsWalking _ _ _); [|done].
      apply shardWalk_grows in Hw as [Hgrow _]. apply subseteq_dom in Hgrow.
      apply Hgrow. rewrite dom_insert_L. set_solver.
  - destruct (shard !! InstanceID info0) as [present|]; [by eapply IH|].
    destruct (ringDesc r) as [d|]; [|done].
    destruct (keepsWalking _ _ _); [by eapply IH|done].
Qed.

Lemma shardWalk_exhausts (r : Ring) (lp lu : Z) (tokens : list Z) (p : nat)
    (shard shard' : gmap string InstanceDesc) :
  shardWalk r lp lu tokens (length tokens) p shard = Ok (shard', false) →
  ownersOf r tokens ⊆ dom shard'.
Proof.
  intros Hw id (t & info & Ht & Hi & <-)%elem_of_ownersOf.
  eapply shardWalk_visits; [exact Hw| |exact Hi]. by apply walkOrder_full.
Qed.

Section Lookback.
Context (E : Env) (r : Ring) (lp1 lu1 lp2 lu2 : Z).
Hypothesis longer : ∀ i, keepsWalking lp1 lu1 i = true → keepsWalking lp2 lu2 i = true.

(** Two walks over the same tokens from the same start, the second with
    the test that keeps more instances walking and on a shard that holds at
    least the instances of the first: the first walk ends no later than the
    second, and the second shard still holds the instances of the first. *)
Lemma shardWalk_lookback (tokens : list Z) (todo p : nat)
    (sa sb sa' sb' : gmap string InstanceDesc) (fa fb : bool) :
  dom sa ⊆ dom sb →
  shardWalk r lp1 lu1 tokens todo p sa = Ok (sa', fa) →
  shardWalk r lp2 lu2 tokens todo p sb = Ok (sb', fb) →
  dom sa' ⊆ dom sb' ∧ (fb = true → fa = true).
Proof.
  revert p sa sb. induction todo as [|todo IH]; intros p sa sb Hsub; simpl.
  { by intros [= <- <-] [= <- <-]. }
  destruct (tokens !! (p mod length tokens)%nat) as [token|]; [|done].
  destruct (ringInstanceByToken r !! token) as [info|]; [|done].
  destruct (sa !! InstanceID info) as [ia|] eqn:Ha.
  - assert (is_Some (sb !! InstanceID info)) as [ib Hb].
    { apply elem_of_dom, Hsub, elem_of_dom. by rewrite Ha. }
    rewrite Hb. by apply IH.
  - destruct (ringDesc r) as [d|]; [|done].
    set (inst := index_or_zero (Ingesters d) (InstanceID info)).
    destruct (sb !! InstanceID info) as [ib|] eqn:Hb.
    + assert (dom (<[InstanceID info := inst]> sa) ⊆ dom sb) as Hsub'.
      { rewrite dom_insert_L. assert (InstanceID info ∈ dom sb)
          by (apply elem_of_dom; by rewrite Hb). set_solver. }
      destruct (keepsWalking lp1 lu1 inst) eqn:Hk1; [by apply IH|].
      intros [= <- <-] Hwb. apply shardWalk_grows in Hwb as [Hgrow _].
      apply subseteq_dom in Hgrow. split; [set_solver|done].
    + assert (dom (<[InstanceID info := inst]> sa) ⊆ dom (<[InstanceID info := inst]> sb))
        as Hsub'.
      { rewrite !dom_insert_L. set_solver. }
      destruct (keepsWalking lp1 lu1 inst) eqn:Hk1.
      * rewrite (longer _ Hk1). by apply IH.
      * intros [= <- <-]. destruct (keepsWalking lp2 lu2 inst).
        -- intros Hwb. apply shardWalk_grows in Hwb as [Hgrow _].
           apply subseteq_dom in Hgrow. split; [set_solver|done].
        -- by intros [= <- <-].
Qed.

Lemma shardDraws_lookback (identifier zone : string) (tokens : list Z) (todo i : nat)
    (sa sb sa' sb' : gmap string InstanceDesc) :
  dom sa ⊆ dom sb →
  shardDraws E r lp1 lu1 identifier zone tokens todo i sa = Ok sa' →
  shardDraws E r lp2 lu2 identifier zone tokens todo i sb = Ok sb' →
  dom sa' ⊆ dom sb'.
Proof.
  revert i sa sb. induction todo as [|todo IH]; intros i sa sb Hsub; simpl.
  { by intros [= <-] [= <-]. }
  destruct (shardWalk r lp1 lu1 _ _ _ _) as [[wa fa]| |] eqn:Hwa; simpl; [|done..].
  destruct (shardWalk r lp2 lu2 _ _ _ _) as [[wb fb]| |] eqn:Hwb; simpl; [|done..].
  destruct (shardWalk_lookback _ _ _ _ _ _ _ _ _ Hsub Hwa Hwb) as [Hsub' Hf].
  destruct fa, fb.
  - by apply IH.
  - intros Hda [= <-]. apply shardDraws_grows in Hda as [_ Hda].
    apply shardWalk_exhausts in Hwb. set_solver.
  - by specialize (Hf eq_refl).
  - by intros [= <-] [= <-].
Qed.

Lemma shardZones_lookback (identifier : string) (p : Z) (zones : list string)
    (sa sb sa' sb' : gmap string InstanceDesc) (e : Z) :
  dom sa ⊆ dom sb →
  shardZones E r lp1 lu1 identifier p zones sa e = Ok sa' →
  shardZones E r lp2 lu2 identifier p zones sb e = Ok sb' →
  dom sa' ⊆ dom sb'.
Proof.
  revert sa sb e. induction zones as [|zone zones IH]; intros sa sb e Hsub.
  { simpl. by intros [= <-] [= <-]. }
  rewrite !shardZones_cons.
  destruct (shardDraws E r lp1 lu1 _ _ _ _ _ _) as [da| |] eqn:Hda; simpl; [|done..].
  destruct (shardDraws E r lp2 lu2 _ _ _ _ _ _) as [db| |] eqn:Hdb; simpl; [|done..].
  apply IH. by eapply shardDraws_lookback.
Qed.

End Lookback.

Section LookbackTheorem.
Context (E : Env).

Lemma keepsWalking_longer (lp1 lp2 now1 now2 : Z) (i : InstanceDesc) :
  lp1 ≤ 0 ∨ (lp1 ≤ lp2 ∧ now2 ≤ now1) →
  keepsWalking lp1 (Unix_of (now1 - lp1)) i = true →
  keepsWalking lp2 (Unix_of (now2 - lp2)) i = true.
Proof.
  unfold keepsWalking, Unix_of. intros Hle.
  rewrite !orb_true_iff, !andb_true_iff, !Z.ltb_lt, !Z.leb_le.
  intros [[Hpos Hreg]|?]; [|by right]. left.
  destruct Hle as [?|[Hlp Hnow]]; [lia|]. split; [lia|].
  etrans; [|exact Hreg]. apply Z.div_le_mono; unfold Second; lia.
Qed.

Lemma shuffleShard_instances_lookback (r : Ring) (identifier : string)
    (size lp1 lp2 now1 now2 : Z) (zoneStableSharding : bool)
    (s1 s2 : gmap string InstanceDesc) :
  lp1 ≤ 0 ∨ (lp1 ≤ lp2 ∧ now2 ≤ now1) →
  shuffleShard_instances E r identifier size lp1 now1 zoneStableSharding = Ok s1 →
  shuffleShard_instances E r identifier size lp2 now2 zoneStableSharding = Ok s2 →
  dom s1 ⊆ dom s2.
Proof.
  intros Hle. unfold shuffleShard_instances.
  destruct (shardPlan r size zoneStableSharding) as [[[p zones] e]| |]; simpl; [|done..].
  apply shardZones_lookback; [|done].
  intros i. by apply keepsWalking_longer.
Qed.

(** X17.  The lookback only adds.  On a ring with a descriptor, the subring of
    ShuffleShardWithLookback for a longer lookback period, evaluated at the
    same time, holds every instance of the subring for a shorter one; and,
    when the cached subrings are what shuffle sharding selects, it holds
    every instance of the subring ShuffleShard returns for the same
    identifier and size, whatever the lookback period and the time. *)
Theorem ShuffleShardWithLookback_grows (r : Ring) (d : Desc) (identifier : string)
    (size : Z) :
  ringDesc r = Some d →
  (∀ lp1 lp2 now sub1 sub2,
     lp1 ≤ lp2 →
     ShuffleShardWithLookback E r identifier size lp1 now = Ok sub1 →
     ShuffleShardWithLookback E r identifier size lp2 now = Ok sub2 →
     ∃ d1 d2, ringDesc sub1 = Some d1 ∧ ringDesc sub2 = Some d2
              ∧ dom (Ingesters d1) ⊆ dom (Ingesters d2))
  ∧ (∀ lp now r1 sub1 sub2,
       cache_coherent E r →
       ShuffleShard E r identifier size = Ok (r1, sub1) →
       ShuffleShardWithLookback E r identifier size lp now = Ok sub2 →
       ∃ d1 d2, ringDesc sub1 = Some d1 ∧ ringDesc sub2 = Some d2
                ∧ dom (Ingesters d1) ⊆ dom (Ingesters d2)).
Proof.
  intros Hd.
  assert (∀ lp now sub,
            ShuffleShardWithLookback E r identifier size lp now = Ok sub →
            ((size ≤ 0 ∨ map_len (Ingesters d) ≤ size) ∧ sub = r)
            ∨ (0 < size < map_len (Ingesters d)
               ∧ ∃ shard, shuffleShard_instances E r identifier size lp now false = Ok shard
                          ∧ ringDesc sub = Some {| Ingesters := shard |})) as Hlook.
  { intros lp now0 sub. unfold ShuffleShardWithLookback.
    destruct (Z.leb_spec size 0); [intros [= <-]; left; split; [by left|done]|].
    unfold InstancesCount. rewrite Hd. simpl.
    destruct (Z.leb_spec (map_len (Ingesters d)) size);
      [intros [= <-]; left; split; [by right|done]|].
    unfold shuffleShard.
    destruct (shuffleShard_instances E r identifier size lp now0 false) as [shard| |];
      simpl; [|done..].
    intros [= <-]. right. split; [lia|]. by exists shard. }
  split.
  - intros lp1 lp2 now0 sub1 sub2 Hle H1 H2.
    apply Hlook in H1. apply Hlook in H2.
    destruct H1 as [[Hs1 ->]|(Hs1 & s1 & Hsh1 & Hd1)],
             H2 as [[Hs2 ->]|(Hs2 & s2 & Hsh2 & Hd2)].
    + by exists d, d.
    + lia.
    + lia.
    + exists {| Ingesters := s1 |}, {| Ingesters := s2 |}. split_and!; [done..|]. simpl.
      eapply shuffleShard_instances_lookback; [|exact Hsh1|exact Hsh2]. right. lia.
  - intros lp now0 r1 sub1 sub2 Hcoh H1 H2. unfold ShuffleShard in H1.
    apply (shuffleShardWithCache_ids E r d Hd) in H1; [|done]. apply Hlook in H2.
    destruct H1 as [[Hs1 ->]|(Hs1 & sd1 & fresh & Hsd1 & Hfresh & Hdom)],
             H2 as [[Hs2 ->]|(Hs2 & s2 & Hsh2 & Hd2)].
    + by exists d, d.
    + lia.
    + lia.
    + exists sd1, {| Ingesters := s2 |}. split_and!; [done..|]. simpl. rewrite Hdom.
      eapply shuffleShard_instances_lookback; [|exact Hfresh|exact Hsh2]. left. lia.
Qed.

End LookbackTheorem.

Lemma ShuffleShardWithLookback_grows_witness :
  match ShuffleShard Example.env Example.ring "t" 3,
        ShuffleShardWithLookback Example.env Example.ring "t" 3 (600 * Second)
          (now Example.env) with
  | Ok (_, sub1), Ok sub2 =>
      ∃ d1 d2, ringDesc sub1 = Some d1 ∧ ringDesc sub2 = Some d2
               ∧ dom (Ingesters d1) ⊆ dom (Ingesters d2)
  | _, _ => False
  end.
Proof.
  destruct (ShuffleShard Example.env Example.ring "t" 3) as [[r1 sub1]| |] eqn:H1;
    [|by vm_compute in H1..].
  destruct (ShuffleShardWithLookback Example.env Example.ring "t" 3 (600 * Second)
              (now Example.env)) as [sub2| |] eqn:H2; [|by vm_compute in H2..].
  destruct (ShuffleShardWithLookback_grows Example.env Example.ring Example.desc "t" 3
              eq_refl) as [_ Hgrow].
  exact (Hgrow _ _ _ _ _ cache_coherent_ring H1 H2).
Defined.

(** ** Ownership of the ring *)

Lemma sum_permutation (l1 l2 : list Z) :
  l1 ≡ₚ l2 → foldr Z.add 0 l1 = foldr Z.add 0 l2.
Proof. induction 1; simpl; lia. Qed.

Lemma totalOf_empty : totalOf ∅ = 0.
Proof. unfold totalOf. by rewrite map_to_list_empty. Qed.

Lemma totalOf_insert_new (m : gmap string Z) (k : string) (v : Z) :
  m !! k = None → totalOf (<[k := v]> m) = v + totalOf m.
Proof.
  intros Hk. unfold totalOf.
  by rewrite (sum_permutation _ _ (fmap_Permutation snd _ _ (map_to_list_insert m k v Hk))).
Qed.

Lemma totalOf_delete (m : gmap string Z) (k : string) (x : Z) :
  m !! k = Some x → totalOf m = x + totalOf (delete k m).
Proof.
  intros Hk. rewrite <- (totalOf_insert_new (delete k m) k x) by apply lookup_delete_eq.
  by rewrite insert_delete_id.
Qed.

Lemma totalOf_insert (m : gmap string Z) (k : string) (v : Z) :
  totalOf (<[k := v]> m) = totalOf m - countOf m k + v.
Proof.
  unfold countOf. destruct (m !! k) as [x|] eqn:Hk; simpl.
  - rewrite <- insert_delete_eq, totalOf_insert_new by apply lookup_delete_eq.
    rewrite (totalOf_delete m k x Hk). lia.
  - rewrite totalOf_insert_new by done. lia.
Qed.

Lemma totalOf_nonneg (m : gmap string Z) :
  (∀ k v, m !! k = Some v → 0 ≤ v) → 0 ≤ totalOf m.
Proof.
  intros Hall. unfold totalOf.
  assert (Forall (fun v => 0 ≤ v) (map_to_list m).*2) as Hf.
  { apply Forall_forall. intros v ([k v'] & -> & Hin)%list_elem_of_fmap.
    apply elem_of_map_to_list in Hin. by eapply Hall. }
  induction Hf; simpl; lia.
Qed.

(** A counter is at most the sum of the counters. *)
Lemma countOf_le_total (m : gmap string Z) (k : string) :
  (∀ k v, m !! k = Some v → 0 ≤ v) → 0 ≤ countOf m k ≤ totalOf m.
Proof.
  intros Hall. unfold countOf. destruct (m !! k) as [x|] eqn:Hk; simpl.
  - rewrite (totalOf_delete m k x Hk).
    assert (0 ≤ totalOf (delete k m)).
    { apply totalOf_nonneg. intros k' v Hl. apply lookup_delete_Some in Hl as [_ Hl].
      by eapply Hall. }
    specialize (Hall k x Hk). lia.
  - pose proof (totalOf_nonneg m Hall). lia.
Qed.

Lemma sorted_lookup_lt (l : list Z) (i j : nat) (a b : Z) :
  StronglySorted Z.lt l → (i < j)%nat → l !! i = Some a → l !! j = Some b → a < b.
Proof.
  intros Hs. revert i j. induction Hs as [|x l Hs IH Hall]; intros i j Hij Hi Hj; [done|].
  destruct j as [|j]; [lia|]. simpl in Hj. destruct i as [|i]; simpl in Hi.
  - injection Hi as <-. rewrite Forall_forall in Hall. apply Hall.
    by eapply list_elem_of_lookup_2.
  - apply (IH i j); [lia|done..].
Qed.

Section Ownership.
Context (r : Ring).
Hypothesis sorted : StronglySorted Z.lt (ringTokens r).
Hypothesis few : len (ringTokens r) < 2 ^ 32.
Hypothesis uint32 : Forall (fun t => 0 ≤ t < 2 ^ 32) (ringTokens r).

(** The counters after the iterations 1 to [k] of the first loop, for [k]
    below the number of tokens: the arcs counted so far reach from the
    first token to the token at [k]. *)
Lemma countStep_prefix (k : nat) :
  (k < length (ringTokens r))%nat →
  ∃ numTokens owned,
    foldl (countStep r) (Ok (∅, ∅)) (seq 1 k) = Ok (numTokens, owned)
    ∧ totalOf owned = ringTokens r !!! k - ringTokens r !!! 0%nat
    ∧ totalOf numTokens = Z.of_nat k
    ∧ dom numTokens = dom owned
    ∧ (∀ id v, owned !! id = Some v → 0 ≤ v)
    ∧ (∀ id v, numTokens !! id = Some v → 0 ≤ v).
Proof.
  induction k as [|k IH]; intros Hk.
  { exists ∅, ∅. simpl. rewrite !totalOf_empty. split_and!; try done. lia. }
  destruct IH as (nt & ow & Hfold & How & Hnt & Hdom & Hpos & Hpos'); [lia|].
  rewrite seq_S, foldl_app, Hfold. simpl.
  replace (k - 0)%nat with k by lia.
  rewrite (Nat.mod_small (S k)) by done.
  destruct (lookup_lt_is_Some_2 (ringTokens r) k ltac:(lia)) as [prev Hprev].
  destruct (lookup_lt_is_Some_2 (ringTokens r) (S k) Hk) as [token Htoken].
  rewrite Hprev, Htoken.
  rewrite (list_lookup_total_correct _ _ _ Htoken).
  rewrite (list_lookup_total_correct _ _ _ Hprev) in How.
  pose proof (sorted_lookup_lt _ k (S k) prev token sorted ltac:(lia) Hprev Htoken) as Hlt.
  set (id := InstanceID (infoOrZero r token)).
  eexists _, _. split; [done|].
  unfold tokenDistance. destruct (Z.ltb_spec prev token) as [_|]; [|lia].
  pose proof (countOf_le_total nt id Hpos') as Hcount.
  assert ((countOf nt id + 1) mod 2 ^ 32 = countOf nt id + 1) as Hwrap.
  { apply Z.mod_small. unfold len in few. lia. }
  unfold incr32, addTo. rewrite Hwrap, !totalOf_insert.
  split_and!.
  - lia.
  - lia.
  - rewrite !dom_insert_L. by rewrite Hdom.
  - intros id' v. rewrite lookup_insert. case_decide; [|by apply Hpos].
    intros [= <-]. pose proof (countOf_le_total ow id Hpos). lia.
  - intros id' v. rewrite lookup_insert. case_decide; [|by apply Hpos'].
    intros [= <-]. lia.
Qed.

(** The first loop as a whole: the arcs add up to the whole ring. *)
Lemma countStep_all :
  ringTokens r ≠ [] →
  ∃ numTokens owned,
    foldl (countStep r) (Ok (∅, ∅)) (seq 1 (length (ringTokens r))) = Ok (numTokens, owned)
    ∧ totalOf owned = 2 ^ 32
    ∧ totalOf numTokens = len (ringTokens r)
    ∧ dom numTokens = dom owned
    ∧ (∀ id v, owned !! id = Some v → 0 ≤ v).
Proof.
  intros Hne. destruct (length (ringTokens r)) as [|k] eqn:Hlen.
  { by destruct (ringTokens r). }
  destruct (countStep_prefix k) as (nt & ow & Hfold & How & Hnt & Hdom & Hpos & Hpos');
    [lia|].
  rewrite seq_S, foldl_app, Hfold. simpl.
  replace (k - 0)%nat with k by lia. rewrite Hlen, Nat.Div0.mod_same.
  destruct (lookup_lt_is_Some_2 (ringTokens r) k ltac:(lia)) as [prev Hprev].
  destruct (lookup_lt_is_Some_2 (ringTokens r) 0 ltac:(lia)) as [token Htoken].
  rewrite Hprev, Htoken.
  rewrite (list_lookup_total_correct _ _ _ Htoken),
    (list_lookup_total_correct _ _ _ Hprev) in How.
  assert (token ≤ prev) as Hle.
  { destruct k as [|k]; [by assert (prev = token) as -> by congruence|].
    pose proof (sorted_lookup_lt _ 0 (S k) token prev sorted ltac:(lia) Htoken Hprev).
    lia. }
  assert (0 ≤ token ∧ prev < 2 ^ 32) as Hrange.
  { rewrite Forall_forall in uint32.
    pose proof (uint32 _ (list_elem_of_lookup_2 _ _ _ Htoken)).
    pose proof (uint32 _ (list_elem_of_lookup_2 _ _ _ Hprev)). lia. }
  set (id := InstanceID (infoOrZero r token)).
  eexists _, _. split; [done|].
  unfold tokenDistance. destruct (Z.ltb_spec prev token) as [|_]; [lia|].
  pose proof (countOf_le_total nt id Hpos') as Hcount.
  assert ((countOf nt id + 1) mod 2 ^ 32 = countOf nt id + 1) as Hwrap.
  { apply Z.mod_small. unfold len in few. lia. }
  unfold incr32, addTo. rewrite Hwrap, !totalOf_insert. unfold len. rewrite Hlen.
  split_and!.
  - lia.
  - lia.
  - rewrite !dom_insert_L. by rewrite Hdom.
  - intros id' v. rewrite lookup_insert. case_decide; [|by apply Hpos].
    intros [= <-]. pose proof (countOf_le_total ow id Hpos). lia.
Qed.

End Ownership.

(** The second loop gives a zero to every instance that has none, and
    leaves the other counters alone. *)
Lemma countMissing_foldl (l : list (string * InstanceDesc)) (st : gmap string Z * gmap string Z) :
  dom st.1 = dom st.2 →
  let st' := foldl countMissing st l in
  totalOf st'.1 = totalOf st.1
  ∧ totalOf st'.2 = totalOf st.2
  ∧ dom st'.1 = dom st'.2
  ∧ dom st'.2 = dom st.2 ∪ list_to_set l.*1
  ∧ (∀ id v, st'.2 !! id = Some v → st.2 !! id = Some v ∨ v = 0).
Proof.
  revert st. induction l as [|[k i] l IH]; intros [nt ow] Hdom; simpl in *.
  { split_and!; try done; [set_solver|by left]. }
  unfold countMissing at 2 4 6 8 10 12. simpl.
  destruct (ow !! k) as [x|] eqn:Hk.
  - destruct (IH (nt, ow) Hdom) as (H1 & H2 & H3 & H4 & H5). simpl in *.
    split_and!; [done..| |done].
    rewrite H4. assert (k ∈ dom ow) by (apply elem_of_dom; by rewrite Hk). set_solver.
  - assert (nt !! k = None) as Hk'.
    { apply not_elem_of_dom. rewrite Hdom. by apply not_elem_of_dom. }
    destruct (IH (<[k := 0]> nt, <[k := 0]> ow)) as (H1 & H2 & H3 & H4 & H5).
    { simpl. by rewrite !dom_insert_L, Hdom. }
    simpl in *. rewrite !totalOf_insert_new in * by done. split_and!; [lia|lia|done| |].
    + rewrite H4, dom_insert_L. set_solver.
    + intros id v Hl. destruct (H5 id v Hl) as [Hin|?]; [|by right].
      rewrite lookup_insert in Hin. case_decide; [right; congruence|by left].
Qed.

(** X18.  countTokens on a ring whose tokens are 32-bit numbers in strictly
    ascending order, fewer than 2^32 of them: the lengths owned add up to the whole ring,
    2^32, none of them negative; the token counts add up to the number of
    tokens; and every instance of the descriptor has both counters, also an
    instance without tokens. *)
Theorem countTokens_total (r : Ring) (d : Desc) :
  ringDesc r = Some d →
  ringTokens r ≠ [] →
  StronglySorted Z.lt (ringTokens r) →
  Forall (fun t => 0 ≤ t < 2 ^ 32) (ringTokens r) →
  len (ringTokens r) < 2 ^ 32 →
  ∃ numTokens owned,
    countTokens r = Ok (numTokens, owned)
    ∧ totalOf owned = 2 ^ 32
    ∧ totalOf numTokens = len (ringTokens r)
    ∧ dom numTokens = dom owned
    ∧ dom (Ingesters d) ⊆ dom owned
    ∧ (∀ id v, owned !! id = Some v → 0 ≤ v).
Proof.
  intros Hd Hne Hsorted Hrange Hfew. unfold countTokens.
  destruct (countStep_all r Hsorted Hfew Hrange Hne) as (nt & ow & -> & How & Hnt & Hdom & Hpos).
  simpl. rewrite Hd.
  destruct (countMissing_foldl (map_to_list (Ingesters d)) (nt, ow) Hdom)
    as (H1 & H2 & H3 & H4 & H5).
  destruct (foldl countMissing (nt, ow) (map_to_list (Ingesters d))) as [nt' ow'].
  simpl in *. exists nt', ow'. split_and!; try done; try lia.
  - rewrite H4. intros id Hid. apply elem_of_union_r, elem_of_list_to_set.
    apply elem_of_dom in Hid as [i Hi].
    apply list_elem_of_fmap. exists (id, i). split; [done|]. by apply elem_of_map_to_list.
  - intros id v Hl. destruct (H5 id v Hl) as [Hin| ->]; [by eapply Hpos|done].
Qed.

Lemma countTokens_total_witness :
  ∃ numTokens owned,
    countTokens Example.ring = Ok (numTokens, owned)
    ∧ totalOf owned = 2 ^ 32
    ∧ totalOf numTokens = 9.
Proof.
  destruct (countTokens_total Example.ring Example.desc eq_refl) as
    (nt & ow & H & How & Hnt & _).
  - done.
  - apply (bool_decide_unpack (StronglySorted Z.lt (ringTokens Example.ring))).
    by vm_compute.
  - apply (bool_decide_unpack
             (Forall (fun t => 0 ≤ t < 2 ^ 32) (ringTokens Example.ring))).
    by vm_compute.
  - by vm_compute.
  - exists nt, ow. split_and!; [exact H|exact How|exact Hnt].
Defined.

(** ** Shards and replica sets that fall short *)

Section ShardFills.
Context (E : Env) (r : Ring) (lookbackPeriod lookbackUntil : Z).

(** The draws of a zone either all find an instance, or leave every
    instance that owns a token of the zone in the shard. *)
Lemma shardDraws_fills (identifier zone : string) (tokens : list Z) (todo i : nat)
    (shard shard' : gmap string InstanceDesc) :
  shardDraws E r lookbackPeriod lookbackUntil identifier zone tokens todo i shard
    = Ok shard' →
  size (settled lookbackPeriod lookbackUntil shard')
  = (size (settled lookbackPeriod lookbackUntil shard) + todo)%nat
  ∨ ownersOf r tokens ⊆ dom shard'.
Proof.
  revert i shard. induction todo as [|todo IH]; intros i shard; simpl.
  { intros [= <-]. left. lia. }
  destruct (shardWalk _ _ _ _ _ _ _) as [[s f]| |] eqn:Hw; simpl; [|done..].
  destruct f.
  - apply shardWalk_settled in Hw. intros Hd.
    destruct (IH _ _ Hd) as [Hexact|Hall]; [left; lia|by right].
  - intros [= <-]. right. exact (shardWalk_exhausts _ _ _ _ _ _ _ Hw).
Qed.

Lemma shardZones_grows (identifier : string) (p : Z) (zones : list string)
    (shard shard' : gmap string InstanceDesc) (e : Z) :
  shardZones E r lookbackPeriod lookbackUntil identifier p zones shard e = Ok shard' →
  dom shard ⊆ dom shard'.
Proof.
  revert shard e. induction zones as [|zone zones IH]; intros shard e.
  { simpl. by intros [= <-]. }
  rewrite shardZones_cons.
  destruct (shardDraws _ _ _ _ _ _ _ _ _ _) as [s| |] eqn:Hd; simpl; [|done..].
  intros Hz. apply IH in Hz. apply shardDraws_grows in Hd as [Hd _].
  apply subseteq_dom in Hd. set_solver.
Qed.

Lemma shardZones_fills (identifier : string) (p : Z) (zones : list string)
    (shard shard' : gmap string InstanceDesc) (e : Z) :
  shardZones E r lookbackPeriod lookbackUntil identifier p zones shard e = Ok shard' →
  size (settled lookbackPeriod lookbackUntil shard')
  = (size (settled lookbackPeriod lookbackUntil shard) + plannedDraws p e zones)%nat
  ∨ ∃ zone, zone ∈ zones ∧ ownersOf r (zoneTokens r zone) ⊆ dom shard'.
Proof.
  revert shard e. induction zones as [|zone zones IH]; intros shard e.
  { simpl. intros [= <-]. left. lia. }
  rewrite shardZones_cons.
  destruct (shardDraws _ _ _ _ _ _ _ _ _ _) as [s| |] eqn:Hd; simpl; [|done..].
  intros Hz. destruct (shardDraws_fills _ _ _ _ _ _ _ Hd) as [Hexact|Hall].
  - destruct (IH _ _ Hz) as [Hexact'|(z & Hin & Hall)].
    + left. unfold quota in *. lia.
    + right. exists z. split; [by apply list_elem_of_further|done].
  - right. exists zone. split; [apply list_elem_of_here|].
    apply shardZones_grows in Hz. set_solver.
Qed.

End ShardFills.

Section FillsTheorems.
Context (E : Env).

(** X19.  A shard falls short only when a zone runs out of instances.  Of
    the instances [shuffleShard] selects for a shard size that is not
    negative, those that are neither READONLY nor registered within the
    lookback period number exactly the shard size (with the default
    sharding across zones, [ceil(size / |zones|) * |zones|]), unless for one
    of the zones walked every instance that owns a token of the zone is in
    the subring. *)
Theorem shuffleShard_fills (r : Ring) (identifier : string)
    (sz lookbackPeriod now : Z) (zoneStableSharding : bool) (sub : Ring) :
  0 ≤ sz →
  shuffleShard E r identifier sz lookbackPeriod now zoneStableSharding = Ok sub →
  ∃ sd, ringDesc sub = Some sd
    ∧ (map_len (settled lookbackPeriod (Unix_of (now - lookbackPeriod)) (Ingesters sd))
       = (if ZoneAwarenessEnabled (cfg r) && negb zoneStableSharding
          then ShuffleShardExpectedInstancesPerZone sz (len (ringZones r))
               * len (ringZones r)
          else sz)
       ∨ ∃ zone, zone ∈ walkedZones r
                 ∧ ownersOf r (zoneTokens r zone) ⊆ dom (Ingesters sd)).
Proof.
  intros Hsize. unfold shuffleShard, shuffleShard_instances.
  destruct (shardPlan r sz zoneStableSharding) as [[[p zones] e]| |] eqn:Hplan;
    simpl; [|done..].
  destruct (shardZones _ _ _ _ _ _ _ _ _) as [shard| |] eqn:Hz; simpl; [|done..].
  intros [= <-]. simpl. exists {| Ingesters := shard |}. simpl. split; [done|].
  assert (zones = walkedZones r) as Hzones.
  { revert Hplan. unfold shardPlan, walkedZones.
    destruct (ZoneAwarenessEnabled (cfg r)); [|by intros [= _ <- _]].
    destruct zoneStableSharding; [|by intros [= _ <- _]].
    destruct (go_div _ _); simpl; [|done..].
    destruct (go_rem _ _); simpl; [|done..]. by intros [= _ <- _]. }
  apply shardZones_fills in Hz as [Hexact|(zone & Hin & Hall)].
  - left. rewrite <- (shardPlan_planned r sz zoneStableSharding p e zones Hsize Hplan).
    unfold map_len. rewrite Hexact. unfold settled. rewrite map_filter_empty.
    rewrite map_size_empty. lia.
  - right. exists zone. by rewrite <- Hzones.
Qed.

Lemma Get_visit_hosts (r : Ring) (d : Desc) (op : Op.Operation) (m : Z) (i : nat)
    (st st' : getState) :
  Get_visit r d op m i st = Ok st' → distinctHosts st ⊆ distinctHosts st'.
Proof.
  intros Hv. apply Get_visit_cases in Hv as [->|(token & info & _ & _ & _ & _ & ->)];
    [done|].
  rewrite Get_select_hosts. set_solver.
Qed.

Lemma Get_loop_hosts (r : Ring) (d : Desc) (op : Op.Operation) (m : Z) (todo i : nat)
    (st st' : getState) :
  Get_loop r d op m todo i st = Ok st' → distinctHosts st ⊆ distinctHosts st'.
Proof.
  apply (Get_loop_invariant r d op m (fun s => distinctHosts st ⊆ distinctHosts s));
    [|done].
  intros j s s' Hs Hv. apply Get_visit_hosts in Hv. set_solver.
Qed.

(** Without zone-awareness the loop of Get either ends with as many hosts
    as the replication factor asks for, or has met every token of its
    range and holds the owner of each. *)
Lemma Get_loop_fills (r : Ring) (d : Desc) (op : Op.Operation) (m : Z) (todo i : nat)
    (st st' : getState) :
  ZoneAwarenessEnabled (cfg r) = false →
  Get_loop r d op m todo i st = Ok st' →
  replicationFactor st' ≤ len (distinctHosts st')
  ∨ ∀ t info, t ∈ walkOrder (ringTokens r) i todo →
      ringInstanceByToken r !! t = Some info → InstanceID info ∈ distinctHosts st'.
Proof.
  intros Hza. revert i st. induction todo as [|todo IH]; intros i st; simpl.
  { intros [= <-]. right. intros t info Ht. unfold walkOrder in Ht. simpl in Ht.
    by apply elem_of_nil in Ht. }
  destruct (Z.ltb_spec (len (distinctHosts st)) (replicationFactor st)) as [Hlt|Hge];
    [|intros [= <-]; by left].
  destruct (Get_visit r d op m (i mod length (ringTokens r)) st) as [st1| |] eqn:Hv;
    simpl; [|done..].
  intros Hl. destruct (IH _ _ Hl) as [Hfull|Hall]; [by left|]. right.
  intros t info Ht Hi. rewrite walkOrder_S in Ht.
  apply elem_of_cons in Ht as [->|Ht]; [|by eapply Hall].
  apply (Get_loop_hosts _ _ _ _ _ _ _ _ Hl).
  revert Hv. unfold Get_visit.
  destruct (ringTokens r !! (i mod length (ringTokens r))%nat) as [token|] eqn:Htok;
    [|done].
  rewrite (list_lookup_total_correct _ _ _ Htok) in Hi. rewrite Hi.
  destruct (StringsContain (distinctHosts st) (InstanceID info)) eqn:Hc.
  { intros [= <-]. by apply StringsContain_spec. }
  unfold zoneChecked. rewrite Hza. simpl. intros [= <-].
  rewrite Get_select_hosts. set_solver.
Qed.

(** X20.  A replica set falls short only when the ring runs out of
    instances.  Without zone-awareness and with a replication factor that
    is not negative, the candidates of Get that did not extend the replica
    set number exactly RF, unless every instance that owns a token of the
    ring is a candidate. *)
Theorem Get_fills (r : Ring) (key : Z) (op : Op.Operation) (st : getState) :
  ZoneAwarenessEnabled (cfg r) = false →
  0 ≤ ReplicationFactor (cfg r) →
  Get_candidates r key op = Ok st →
  len (filter (fun i => Op.ShouldExtendReplicaSetOnState Op.state_code op (State i) = false)
         (instances st)) = ReplicationFactor (cfg r)
  ∨ ∀ id, id ∈ ownersOf r (ringTokens r) → id ∈ distinctHosts st.
Proof.
  intros Hza Hrf Hc.
  destruct (Get_candidates_count r key op st Hrf Hc) as (Hlen & Hsplit & Hle).
  pose proof (Get_candidates_replicaInv r key op st Hrf Hc) as (_ & Hst & _).
  revert Hc. unfold Get_candidates. destruct (ringDesc r) as [d|]; [|done].
  destruct (len (ringTokens r) =? 0); [done|].
  destruct (go_div _ _) as [m| |]; simpl; [|done..].
  destruct (go_rem _ _) as [x| |]; simpl; [|done..].
  intros Hl. apply (Get_loop_fills _ _ _ _ _ _ _ _ Hza) in Hl as [Hfull|Hall].
  - left. lia.
  - right. intros id (t & info & Ht & Hi & <-)%elem_of_ownersOf.
    eapply Hall; [|exact Hi]. by apply walkOrder_full.
Qed.

End FillsTheorems.

Lemma shuffleShard_fills_witness :
  match shuffleShard Example.env Example.flatRing "t" 4 0 (now Example.env) false with
  | Ok sub => ∃ sd, ringDesc sub = Some sd
                ∧ (map_len (settled 0 (Unix_of (now Example.env - 0)) (Ingesters sd)) = 4
                   ∨ ∃ zone, zone ∈ walkedZones Example.flatRing
                       ∧ ownersOf Example.flatRing (zoneTokens Example.flatRing zone)
                         ⊆ dom (Ingesters sd))
  | _ => False
  end.
Proof.
  destruct (shuffleShard Example.env Example.flatRing "t" 4 0 (now Example.env) false)
    as [sub| |] eqn:H.
  - exact (shuffleShard_fills Example.env Example.flatRing "t" 4 0 (now Example.env)
             false sub ltac:(lia) H).
  - by vm_compute in H.
  - by vm_compute in H.
Defined.

Lemma Get_fills_witness :
  match Get_candidates Example.flatRing 35 Example.Write with
  | Ok st => len (filter (fun i => Op.ShouldExtendReplicaSetOnState Op.state_code
                                     Example.Write (State i) = false) (instances st)) = 3
             ∨ ∀ id, id ∈ ownersOf Example.flatRing (ringTokens Example.flatRing) →
                 id ∈ distinctHosts st
  | _ => False
  end.
Proof.
  destruct (Get_candidates Example.flatRing 35 Example.Write) as [st| |] eqn:H.
  - exact (Get_fills Example.flatRing 35 Example.Write st eq_refl
             ltac:(by vm_compute) H).
  - by vm_compute in H.
  - by vm_compute in H.
Defined.
